(** * penrose-turing: decoder and execution engine of Penrose-encoded
    Turing machines

    A shallow embedding of [parse_tm], [run], [print_tm] and [print_tape] of
    [penrose-turing.c] and the properties of the design document that they
    have.

    Conventions of the embedding.
    - A [const char*] argument is the [string] of the characters before its
      terminator; a [char] buffer that the program writes to is the
      [list ascii] of all its allocated bytes, terminator included.
    - [size_t], [ssize_t] and [unsigned long long] variables that count
      allocated bytes or loop iterations are [nat] or [Z] without wrap-around:
      each is bounded by the size of a buffer that was allocated or by
      [max_steps].  The two expressions whose wrap-around or width can be
      reached (the predecessor of [states_len] and the [unsigned int] shift of
      [parse_tm])
      are written out.
    - [exit(1)] is the outcome [Exit] with the error that the message names;
      an access outside an allocated buffer, a null or dangling state pointer
      and a shift by 32 or more are the outcome [Undefined].  Allocation is
      assumed to succeed.
    - What is written to the standard output is the list of the characters
      written; a conversion of [printf] is the characters that the C standard
      gives it. *)

From Stdlib Require Import ZArith Ascii String Lia.
From stdpp Require Import base option list.

Local Open Scope Z_scope.

(** ** Outcomes *)

Inductive error :=
| InvalidCharacter (index : nat)
| InvalidRunLength (index : nat)
| IncompleteStateDefinition
| UndefinedStateReference (state_number : nat) (next_state_ix : Z)
| InvalidTapeCharacter (index : nat)
| StepLimitExceeded (max_steps : nat)
| TapeLimitExceeded (max_tape_len : nat).

Inductive outcome (A : Type) :=
| Done (a : A)
| Exit (e : error)
| Undefined
| OutOfFuel.
Arguments Done {A} a.
Arguments Exit {A} e.
Arguments Undefined {A}.
Arguments OutOfFuel {A}.

#[global] Instance outcome_ret : MRet outcome := fun A a => Done a.
#[global] Instance outcome_bind : MBind outcome := fun A B f m =>
  match m with
  | Done a => f a
  | Exit e => Exit e
  | Undefined => Undefined
  | OutOfFuel => OutOfFuel
  end.

#[global] Instance outcome_fmap : FMap outcome := fun A B f m =>
  match m with
  | Done a => Done (f a)
  | Exit e => Exit e
  | Undefined => Undefined
  | OutOfFuel => OutOfFuel
  end.

(** [buf[i]] for a buffer of [length buf] allocated elements. *)
Definition load {A} (buf : list A) (i : Z) : outcome A :=
  if i <? 0 then Undefined
  else match buf !! Z.to_nat i with
       | Some x => Done x
       | None => Undefined
       end.

(** [buf[i] = x]. *)
Definition store {A} (buf : list A) (i : Z) (x : A) : outcome (list A) :=
  if (i <? 0) || (Z.of_nat (length buf) <=? i) then Undefined
  else Done (<[Z.to_nat i := x]> buf).

(** ** Data model *)

(** [enum token { ZERO, ONE, RIGHT, LEFT, STOP }] *)
Inductive token := ZERO | ONE | RIGHT | LEFT | STOP.

Definition token_val (t : token) : Z :=
  match t with ZERO => 0 | ONE => 1 | RIGHT => 2 | LEFT => 3 | STOP => 4 end.

(** The cast [(enum token) n]; the tokenizer only casts values in 0..4. *)
Definition token_of_val (n : Z) : token :=
  if n =? 0 then ZERO else if n =? 1 then ONE else if n =? 2 then RIGHT
  else if n =? 3 then LEFT else STOP.

#[global] Instance token_eq_dec : EqDecision token.
Proof. solve_decision. Defined.

(** [struct action]; [next_state] points into the array of states and is
    the index of the state it points to, [None] for the null pointer. *)
Record action := Action {
  value_to_write : Z;
  direction_to_move : Z;
  next_state : option nat
}.

(** [struct state] *)
Record state := State {
  number : nat;
  action0 : action;
  action1 : action
}.

(** ** The codec: [parse_tm] *)

Definition chr0 : ascii := "0"%char.
Definition chr1 : ascii := "1"%char.
Definition blank : ascii := " "%char.
Definition NUL : ascii := "000"%char.

(** The first loop: every character is '0' or '1'; counts [tm_len]. *)
Fixpoint check_tm (s : list ascii) (tm_len : nat) : outcome nat :=
  match s with
  | [] => Done tm_len
  | c :: s' =>
      if negb (Ascii.eqb c chr0) && negb (Ascii.eqb c chr1)
      then Exit (InvalidCharacter tm_len)
      else check_tm s' (S tm_len)
  end.

(** [tm_tmp]: the specification between the implicit "110" and "110". *)
Definition wrap_tm (tm : list ascii) : list ascii :=
  [chr1; chr1; chr0] ++ tm ++ [chr1; chr1; chr0].

(** The counting loop before the allocation of [tokens]. *)
Fixpoint count_zeros (tm_tmp : list ascii) (tokens_len : nat) : nat :=
  match tm_tmp with
  | [] => tokens_len
  | c :: rest =>
      count_zeros rest (if Ascii.eqb c chr0 then S tokens_len else tokens_len)
  end.

(** The tokenizer loop over [tm_tmp] from index [i]; [tokens] holds the
    [token_ix] tokens written so far. *)
Fixpoint tokenize (tm_tmp : list ascii) (i : nat) (token_len : Z)
    (tokens : list token) : outcome (list token) :=
  match tm_tmp with
  | [] => Done tokens
  | c :: rest =>
      let token_len := token_len + 1 in
      if 5 <? token_len then Exit (InvalidRunLength i)
      else if Ascii.eqb c chr0
           then tokenize rest (S i) 0 (tokens ++ [token_of_val (token_len - 1)])
           else tokenize rest (S i) token_len tokens
  end.

(** [tokens[i] >= RIGHT] *)
Definition is_terminator (t : token) : bool := token_val RIGHT <=? token_val t.

(** The loop that counts the actions. *)
Fixpoint count_actions (tokens : list token) (actions_len : nat) : nat :=
  match tokens with
  | [] => actions_len
  | t :: rest =>
      count_actions rest (if is_terminator t then S actions_len else actions_len)
  end.

(** The loop variables of the loop that creates the states. *)
Record builder := Builder {
  states : list state;
  action_ix : nat;
  state_ix : nat;
  token_start : nat
}.

(** The summand of [next_state_ix]: the token, as [unsigned int], times [1u],
    shifted left by [j]; the value is defined for [j < 32] and taken modulo
    [2^32]. *)
Definition shl_u32 (t : token) (j : Z) : outcome Z :=
  if (j <? 0) || (32 <=? j) then Undefined
  else Done (Z.shiftl ((token_val t * 1) mod 2 ^ 32) j mod 2 ^ 32).

(** [for (t = tokens + i - 2; t >= token_start; --t) next_state_ix += ...],
    with [n] the number of iterations left, [t - token_start + 1]. *)
Fixpoint read_next_state_ix (tokens : list token) (n : nat) (t : nat) (j : Z)
    (next_state_ix : Z) : outcome Z :=
  match n with
  | O => Done next_state_ix
  | S n' =>
      tok ← load tokens (Z.of_nat t);
      v ← shl_u32 tok j;
      read_next_state_ix tokens n' (t - 1)%nat (j + 1) (next_state_ix + v)
  end.

(** The predecessor of [states_len] in [size_t]: it wraps around at zero. *)
Definition size_pred (n : nat) : Z :=
  if (n =? 0)%nat then 2 ^ 64 - 1 else Z.of_nat n - 1.

(** The action that the terminator [token] at index [i] defines. *)
Definition decode_action (tokens : list token) (states_len : nat) (i : nat)
    (token : token) (b : builder) : outcome action :=
  let direction :=
    if decide (token = RIGHT) then 1
    else if decide (token = LEFT) then -1
    else 0 in
  if (token_start b =? i)%nat then
    Done (Action 0 direction (Some 0%nat))
  else if (token_start b =? i - 1)%nat then
    v ← load tokens (Z.of_nat i - 1);
    Done (Action (token_val v) direction (Some 0%nat))
  else
    v ← load tokens (Z.of_nat i - 1);
    next_state_ix ← read_next_state_ix tokens (i - 1 - token_start b) (i - 2) 0 0;
    if size_pred states_len <? next_state_ix
    then Exit (UndefinedStateReference (state_ix b) next_state_ix)
    else Done (Action (token_val v) direction (Some (Z.to_nat next_state_ix))).

(** The body of the loop for a terminator: the action is stored in
    [action0] or [action1] of the state at [state_ix]. *)
Definition define_action (tokens : list token) (states_len : nat) (i : nat)
    (token : token) (b : builder) : outcome builder :=
  a ← decode_action tokens states_len i token b;
  st ← load (states b) (Z.of_nat (state_ix b));
  let st := State (state_ix b) (action0 st) (action1 st) in
  let st :=
    if (action_ix b mod 2 =? 0)%nat
    then State (number st) a (action1 st)
    else State (number st) (action0 st) a in
  sts ← store (states b) (Z.of_nat (state_ix b)) st;
  let action_ix' := S (action_ix b) in
  Done (Builder sts action_ix'
          (if (action_ix' mod 2 =? 0)%nat then S (state_ix b) else state_ix b)
          (S i)).

(** [for (i = 0; i < tokens_len; ++i)], with [rest] the tokens from [i] on. *)
Fixpoint build_loop (tokens : list token) (states_len : nat)
    (rest : list token) (i : nat) (b : builder) : outcome builder :=
  match rest with
  | [] => Done b
  | token :: rest' =>
      if token_val token <? token_val RIGHT
      then build_loop tokens states_len rest' (S i) b
      else
        b' ← define_action tokens states_len i token b;
        build_loop tokens states_len rest' (S i) b'
  end.

(** What [calloc] returns for an action and for a state. *)
Definition zero_action : action := Action 0 0 None.
Definition zero_state : state := State 0 zero_action zero_action.

(** The tokens of a specification: the first half of [parse_tm]. *)
Definition tm_tokens (tm : string) : outcome (list token) :=
  let tm := list_ascii_of_string tm in
  _ ← check_tm tm 0;
  tokenize (wrap_tm tm) 0 0 [].

Definition parse_tm (tm : string) : outcome (list state) :=
  tokens ← tm_tokens tm;
  let actions_len := count_actions tokens 0 in
  if negb (actions_len mod 2 =? 0)%nat then Exit IncompleteStateDefinition
  else
    let states_len := (actions_len / 2)%nat in
    b ← build_loop tokens states_len tokens 0
          (Builder (replicate states_len zero_state) 0 0 0);
    Done (states b).

(** ** The execution engine: [run] *)

(** The first loop of [run]: every character of the tape is '0' or '1'. *)
Fixpoint check_tape (s : list ascii) (initial_tape_len : nat) : outcome nat :=
  match s with
  | [] => Done initial_tape_len
  | c :: s' =>
      if negb (Ascii.eqb c chr0) && negb (Ascii.eqb c chr1)
      then Exit (InvalidTapeCharacter initial_tape_len)
      else check_tape s' (S initial_tape_len)
  end.

(** The local variables of [run] that both executions use. *)
Record locals := Locals {
  tape : list ascii;
  tape_len : nat;
  tape_expansion_amt : nat;
  curr_state : option nat;
  tape_ix : Z;
  rel_tape_ix : Z;
  min_rel_tape_ix : Z;
  max_rel_tape_ix : Z;
  step : nat
}.

Definition set_tape (l : locals) (x : list ascii) : locals :=
  Locals x (tape_len l) (tape_expansion_amt l) (curr_state l) (tape_ix l)
    (rel_tape_ix l) (min_rel_tape_ix l) (max_rel_tape_ix l) (step l).
Definition set_curr_state (l : locals) (x : option nat) : locals :=
  Locals (tape l) (tape_len l) (tape_expansion_amt l) x (tape_ix l)
    (rel_tape_ix l) (min_rel_tape_ix l) (max_rel_tape_ix l) (step l).
Definition set_tape_ix (l : locals) (x : Z) : locals :=
  Locals (tape l) (tape_len l) (tape_expansion_amt l) (curr_state l) x
    (rel_tape_ix l) (min_rel_tape_ix l) (max_rel_tape_ix l) (step l).
Definition set_rel_tape_ix (l : locals) (x : Z) : locals :=
  Locals (tape l) (tape_len l) (tape_expansion_amt l) (curr_state l) (tape_ix l)
    x (min_rel_tape_ix l) (max_rel_tape_ix l) (step l).
Definition set_min_rel_tape_ix (l : locals) (x : Z) : locals :=
  Locals (tape l) (tape_len l) (tape_expansion_amt l) (curr_state l) (tape_ix l)
    (rel_tape_ix l) x (max_rel_tape_ix l) (step l).
Definition set_max_rel_tape_ix (l : locals) (x : Z) : locals :=
  Locals (tape l) (tape_len l) (tape_expansion_amt l) (curr_state l) (tape_ix l)
    (rel_tape_ix l) (min_rel_tape_ix l) x (step l).
Definition set_step (l : locals) (x : nat) : locals :=
  Locals (tape l) (tape_len l) (tape_expansion_amt l) (curr_state l) (tape_ix l)
    (rel_tape_ix l) (min_rel_tape_ix l) (max_rel_tape_ix l) x.

(** The string that a buffer holds: its bytes before the first NUL; a buffer
    without NUL holds none. *)
Fixpoint c_str (buf : list ascii) : option (list ascii) :=
  match buf with
  | [] => None
  | c :: rest => if Ascii.eqb c NUL then Some [] else (c ::.) <$> c_str rest
  end.

(** [dst[off + i] = src[i]] for every [i < length src]. *)
Definition blit (dst : list ascii) (off : Z) (src : list ascii) : outcome (list ascii) :=
  if (off <? 0) || (Z.of_nat (length dst) <? off + Z.of_nat (length src))
  then Undefined
  else Done (take (Z.to_nat off) dst ++ src
               ++ drop (Z.to_nat off + length src) dst).

(** [strcpy(dst + off, src)] *)
Definition strcpy (dst : list ascii) (off : Z) (src : list ascii) : outcome (list ascii) :=
  match c_str src with
  | None => Undefined
  | Some s => blit dst off (s ++ [NUL])
  end.

(** [for (i = 0; i < n; ++i) dst[off + i] = c] *)
Definition fill (dst : list ascii) (off : Z) (n : nat) (c : ascii) : outcome (list ascii) :=
  blit dst off (replicate n c).

(** A state pointer followed. *)
Definition deref (sts : list state) (p : option nat) : outcome state :=
  match p with
  | None => Undefined
  | Some k => match sts !! k with Some s => Done s | None => Undefined end
  end.

(** The action for the character under the head: [action0] for '0' and for
    ' ', [action1] for every other character. *)
Definition select_action (c : ascii) (s : state) : action :=
  if Ascii.eqb c chr0 || Ascii.eqb c blank then action0 s else action1 s.

(** [action.value_to_write == 0 ? '0' : '1'] *)
Definition write_char (a : action) : ascii :=
  if value_to_write a =? 0 then chr0 else chr1.

(** The block that expands the tape by [tape_expansion_amt] cells, to the
    left when the head has left the buffer there, to the right otherwise. *)
Definition expand (l : locals) : outcome locals :=
  let amt := tape_expansion_amt l in
  let tape_tmp := replicate (tape_len l + amt + 1)%nat NUL in
  r ← (if tape_ix l <? 0 then
         t ← fill tape_tmp 0 amt blank;
         t ← strcpy t (Z.of_nat amt) (tape l);
         Done (t, tape_ix l + Z.of_nat amt)
       else
         t ← strcpy tape_tmp 0 (tape l);
         t ← fill t (Z.of_nat (tape_len l)) amt blank;
         t ← store t (Z.of_nat (tape_len l) + Z.of_nat amt) NUL;
         Done (t, tape_ix l));
  Done (Locals (fst r) (tape_len l + amt)%nat (amt * 2)%nat (curr_state l) (snd r)
          (rel_tape_ix l) (min_rel_tape_ix l) (max_rel_tape_ix l) (step l)).

(** How the body of a [while (1)] loop ends. *)
Inductive flow (A : Type) :=
| Break (a : A)
| Continue (a : A).
Arguments Break {A} a.
Arguments Continue {A} a.

(** One step of the first execution: the body of its loop after the two
    limit checks. *)
Definition pass1_body (sts : list state) (l : locals) : outcome (flow locals) :=
  c ← load (tape l) (tape_ix l);
  s ← deref sts (curr_state l);
  let action := select_action c s in
  tp ← store (tape l) (tape_ix l) (write_char action);
  let l := set_tape l tp in
  if direction_to_move action =? 0 then Done (Break l)
  else
    let l := set_tape_ix l (tape_ix l + direction_to_move action) in
    let l := set_rel_tape_ix l (rel_tape_ix l + direction_to_move action) in
    let l := if rel_tape_ix l <? min_rel_tape_ix l
             then set_min_rel_tape_ix l (rel_tape_ix l) else l in
    let l := if max_rel_tape_ix l <? rel_tape_ix l
             then set_max_rel_tape_ix l (rel_tape_ix l) else l in
    l ← (if (tape_ix l <? 0) || (tape_ix l =? Z.of_nat (tape_len l))
         then expand l else Done l);
    Done (Continue (set_curr_state l (next_state action))).

(** The loop of the first execution; [fuel] bounds its iterations. *)
Fixpoint pass1_loop (sts : list state) (max_tape_len max_steps : nat)
    (fuel : nat) (l : locals) : outcome locals :=
  match fuel with
  | O => OutOfFuel
  | S fuel' =>
      if (step l =? max_steps)%nat then Exit (StepLimitExceeded max_steps)
      else
        let l := set_step l (S (step l)) in
        if (max_tape_len <? tape_len l)%nat
        then Exit (TapeLimitExceeded max_tape_len)
        else
          r ← pass1_body sts l;
          match r with
          | Break l' => Done l'
          | Continue l' => pass1_loop sts max_tape_len max_steps fuel' l'
          end
  end.

(** The variables at the start of the first execution.  [max_rel_tape_ix]
    is [tape_len - 1] converted to [ssize_t], which is [-1] for the empty
    tape. *)
Definition run_init (initial_tape : list ascii) (initial_tape_len : nat) : locals :=
  Locals (initial_tape ++ [NUL]) initial_tape_len 1024 (Some 0%nat) 0 0 0
    (Z.of_nat initial_tape_len - 1) 0.

(** The first execution.  The loop leaves after at most [max_steps] steps and
    one more check, so that [S max_steps] iterations are all it can make. *)
Definition pass1 (sts : list state) (initial_tape : list ascii)
    (max_tape_len max_steps : nat) : outcome locals :=
  pass1_loop sts max_tape_len max_steps (S max_steps)
    (run_init initial_tape (length initial_tape)).

(** The loop that moves [s] down from the head while the byte at [s] is not
    ' ' and [s >= tape].  The byte at [s] is read before [s >= tape] is
    tested: when no byte from the head down to the start of the buffer is
    ' ', the byte before the buffer is read, which is [Undefined].  [n]
    bounds the iterations. *)
Fixpoint scan_back (tp : list ascii) (n : nat) (s : Z) : outcome Z :=
  match n with
  | O => Done s
  | S n' =>
      c ← load tp s;
      if negb (Ascii.eqb c blank) && (0 <=? s) then scan_back tp n' (s - 1)
      else Done s
  end.

(** What is printed when [verbosity == 0]: the tape is cut after the head
    and printed from the cell after the last blank before the head.  The
    loop reads at most the bytes from the head down to the one before the
    buffer. *)
Definition trimmed_output (l : locals) : outcome (list ascii) :=
  tp ← store (tape l) (tape_ix l + 1) NUL;
  s ← scan_back tp (S (Z.to_nat (tape_ix l + 1))) (tape_ix l);
  match c_str (drop (Z.to_nat (s + 1)) tp) with
  | Some str => Done str
  | None => Undefined
  end.

(** What [run] writes to the standard output: the line of the final tape, or
    the arguments of one call of [print_tape], with the number of the state
    in place of the pointer, [None] for the null pointer. *)
Inductive output :=
| Line (s : list ascii)
| Frame (step : nat) (state_number : option nat) (tape : list ascii)
    (tape_len : nat) (tape_ix : Z).

(** [print_tape] reads the number of the state when the pointer is not null;
    how the frame is laid out on the line is left out. *)
Definition print_tape (sts : list state) (tp : list ascii) (len : nat)
    (ix : Z) (stp : nat) (st : option nat) : outcome output :=
  match st with
  | None => Done (Frame stp None tp len ix)
  | Some _ =>
      s ← deref sts st;
      Done (Frame stp (Some (number s)) tp len ix)
  end.

(** The variables at the start of the second execution and [final_tape_len]. *)
Definition pass2_init (initial_tape : list ascii) (initial_tape_len : nat)
    (l : locals) : outcome (locals * nat) :=
  let final := max_rel_tape_ix l - min_rel_tape_ix l + 1 in
  if final <? 0 then Undefined
  else
    let final_tape_len := Z.to_nat final in
    let ix := - min_rel_tape_ix l in
    tp ← fill (replicate (final_tape_len + 1)%nat NUL) 0 final_tape_len blank;
    tp ← blit tp ix (take initial_tape_len initial_tape);
    tp ← store tp (Z.of_nat final_tape_len) NUL;
    Done (Locals tp (tape_len l) (tape_expansion_amt l) (Some 0%nat) ix
            (rel_tape_ix l) (min_rel_tape_ix l) (max_rel_tape_ix l) 0,
          final_tape_len).

(** One step of the second execution, with the frames printed so far. *)
Definition pass2_body (sts : list state) (verbosity : Z) (final_tape_len : nat)
    (l : locals) (out : list output) : outcome (flow (locals * list output)) :=
  let l := set_step l (S (step l)) in
  curr_value ← load (tape l) (tape_ix l);
  s ← deref sts (curr_state l);
  let action := select_action curr_value s in
  let value_to_write := write_char action in
  tp ← store (tape l) (tape_ix l) value_to_write;
  let l := set_tape l tp in
  out ← (if (verbosity =? 2) || negb (Ascii.eqb value_to_write curr_value)
         then f ← print_tape sts (tape l) final_tape_len (tape_ix l) (step l)
                    (curr_state l);
              Done (out ++ [f])
         else Done out);
  if direction_to_move action =? 0 then Done (Break (l, out))
  else
    let l := set_tape_ix l (tape_ix l + direction_to_move action) in
    Done (Continue (set_curr_state l (next_state action), out)).

(** The loop of the second execution; the source has no bound for it and
    [fuel] bounds its iterations here. *)
Fixpoint pass2_loop (sts : list state) (verbosity : Z) (final_tape_len : nat)
    (fuel : nat) (l : locals) (out : list output)
    : outcome (locals * list output) :=
  match fuel with
  | O => OutOfFuel
  | S fuel' =>
      r ← pass2_body sts verbosity final_tape_len l out;
      match r with
      | Break r' => Done r'
      | Continue r' =>
          pass2_loop sts verbosity final_tape_len fuel' (fst r') (snd r')
      end
  end.

(** The second execution from the variables that the first one left. *)
Definition pass2 (sts : list state) (initial_tape : list ascii)
    (verbosity : Z) (fuel : nat) (l : locals) : outcome (locals * list output) :=
  r ← pass2_init initial_tape (length initial_tape) l;
  f ← print_tape sts (tape (fst r)) (snd r) (tape_ix (fst r)) (step (fst r))
        (curr_state (fst r));
  pass2_loop sts verbosity (snd r) fuel (fst r) [f].

(** [run]; [fuel] bounds the iterations of the second execution. *)
Definition run (sts : list state) (initial_tape : string)
    (max_tape_len max_steps : nat) (verbosity : Z) (fuel : nat)
    : outcome (list output) :=
  let initial_tape := list_ascii_of_string initial_tape in
  _ ← check_tape initial_tape 0;
  l ← pass1 sts initial_tape max_tape_len max_steps;
  if verbosity =? 0 then
    s ← trimmed_output l;
    Done [Line s]
  else
    r ← pass2 sts initial_tape verbosity fuel l;
    Done (snd r).

(** ** The encoding, as the design document words it *)

(** A token is a run of [token_val t] ones that a zero ends. *)
Definition encode_token (t : token) : list ascii :=
  replicate (Z.to_nat (token_val t)) chr1 ++ [chr0].

Fixpoint encode_tokens (ts : list token) : list ascii :=
  match ts with
  | [] => []
  | t :: ts' => encode_token t ++ encode_tokens ts'
  end.

(** The characters of a list of bits. *)
Definition bits (bs : list bool) : list ascii :=
  (fun b : bool => if b then chr1 else chr0) <$> bs.

(** A run of five ones: [n] ones were read just before [bs]. *)
Fixpoint run_of_five_from (n : nat) (bs : list bool) : bool :=
  (5 <=? n)%nat
  || match bs with
     | [] => false
     | b :: bs' =>
         if b then run_of_five_from (S n) bs' else run_of_five_from 0 bs'
     end.

(** The partition of the token stream into actions: every token from [RIGHT]
    on ends one action, whose body is the tokens since the previous such
    token.  [pending] is the body read so far. *)
Fixpoint split_actions (pending ts : list token) : list (list token * token) :=
  match ts with
  | [] => []
  | t :: ts' =>
      if is_terminator t then (pending, t) :: split_actions [] ts'
      else split_actions (pending ++ [t]) ts'
  end.

(** The tokens after the last terminator. *)
Fixpoint pending_after (pending ts : list token) : list token :=
  match ts with
  | [] => pending
  | t :: ts' =>
      if is_terminator t then pending_after [] ts'
      else pending_after (pending ++ [t]) ts'
  end.

(** The number that tokens spell, most significant bit first. *)
Definition binary_msb (addr : list token) : Z :=
  fold_left (fun acc t => 2 * acc + token_val t) addr 0.

Definition direction_of (t : token) : Z :=
  match t with RIGHT => 1 | LEFT => -1 | _ => 0 end.

(** The action of the table that the [k]-th decoded action is stored in:
    [action0] of state [k / 2] for even [k], its [action1] for odd [k]. *)
Definition table_action (sts : list state) (k : nat) : option action :=
  st ← sts !! (k / 2)%nat;
  Some (if (k mod 2 =? 0)%nat then action0 st else action1 st).

(** The tables that [run] is meant for: every direction is -1, 0 or +1 and
    every [next_state] points to a state of the table. *)
Definition action_ok (states_len : nat) (a : action) : bool :=
  ((direction_to_move a =? -1) || (direction_to_move a =? 0)
   || (direction_to_move a =? 1))
  && match next_state a with
     | Some k => (k <? states_len)%nat
     | None => false
     end.

Definition table_ok (sts : list state) : bool :=
  forallb (fun st => action_ok (length sts) (action0 st)
                     && action_ok (length sts) (action1 st)) sts.

(** What the creation of one action comes to, from its body (the tokens
    between the previous terminator and [term]) alone. *)
Definition body_outcome (states_len state_number : nat) (body : list token)
    (term : token) : outcome action :=
  match reverse body with
  | [] => Done (Action 0 (direction_of term) (Some 0%nat))
  | [t] => Done (Action (token_val t) (direction_of term) (Some 0%nat))
  | t :: addr_rev =>
      if (32 <? length addr_rev)%nat then Undefined
      else
        let nsi := binary_msb (reverse addr_rev) in
        if size_pred states_len <? nsi
        then Exit (UndefinedStateReference state_number nsi)
        else Done (Action (token_val t) (direction_of term) (Some (Z.to_nat nsi)))
  end.

(** The invariant of the loop that creates the states, after the tokens
    [pre]: the actions of [pre] are in the table and the loop variables
    count them. *)
Definition build_inv (states_len : nat) (pre : list token) (b : builder) : Prop :=
  action_ix b = length (split_actions [] pre)
  ∧ state_ix b = (action_ix b / 2)%nat
  ∧ token_start b = (length pre - length (pending_after [] pre))%nat
  ∧ length (states b) = states_len
  ∧ ∀ k body term,
      split_actions [] pre !! k = Some (body, term) →
      ∃ st, states b !! (k / 2)%nat = Some st
            ∧ number st = (k / 2)%nat
            ∧ body_outcome states_len (k / 2) body term
              = Done (if (k mod 2 =? 0)%nat then action0 st else action1 st).

(** ** The machine, as the design document words it *)

Module Spec.

(** The symbols of the tape. *)
Inductive symbol := Blank | Zero | One.

(** The execution state: the current state, the tape, which cell [r]
    relative to the first cell of the initial tape holds which symbol, and
    the head. *)
Record config := Config {
  current_state : nat;
  tape : Z → symbol;
  head : Z
}.

(** A blank cell selects the action that reading 0 selects. *)
Definition action_for (st : state) (s : symbol) : action :=
  match s with
  | One => action1 st
  | Zero | Blank => action0 st
  end.

Definition symbol_of_bit (v : Z) : symbol := if v =? 0 then Zero else One.

Definition write (tp : Z → symbol) (h : Z) (s : symbol) : Z → symbol :=
  fun r => if r =? h then s else tp r.

Inductive result :=
| Halted (c : config)
| Running (c : config)
| Stuck.

(** One step: read the symbol at the head, select the action, write its
    value; stop when the direction is Stop, otherwise move the head and
    change the state. *)
Definition step (table : list state) (c : config) : result :=
  match table !! current_state c with
  | None => Stuck
  | Some st =>
      let a := action_for st (tape c (head c)) in
      let tp := write (tape c) (head c) (symbol_of_bit (value_to_write a)) in
      if direction_to_move a =? 0
      then Halted (Config (current_state c) tp (head c))
      else match next_state a with
           | Some q => Running (Config q tp (head c + direction_to_move a))
           | None => Stuck
           end
  end.

(** The tape of a string: its characters from cell 0 on, blank elsewhere. *)
Definition tape_of (s : list ascii) : Z → symbol :=
  fun r =>
    if r <? 0 then Blank
    else match s !! Z.to_nat r with
         | Some c => if Ascii.eqb c chr1 then One else Zero
         | None => Blank
         end.

(** The start of a run: state 0, the head on the first character. *)
Definition initial (s : list ascii) : config := Config 0 (tape_of s) 0.

(** Configurations with the same state, head and cells. *)
Definition config_eq (c c' : config) : Prop :=
  current_state c = current_state c'
  ∧ head c = head c'
  ∧ ∀ r, tape c r = tape c' r.

(** [halts_in table lo hi k c c']: from [c] the machine halts with its
    [k]-th step, in [c'], and its head is between [lo] and [hi] before each
    of these steps. *)
Inductive halts_in (table : list state) (lo hi : Z)
  : nat → config → config → Prop :=
| halts_now c c' :
    lo ≤ head c ≤ hi →
    step table c = Halted c' →
    halts_in table lo hi 1 c c'
| halts_later k c c1 c1' c' :
    lo ≤ head c ≤ hi →
    step table c = Running c1 →
    config_eq c1 c1' →
    halts_in table lo hi k c1' c' →
    halts_in table lo hi (S k) c c'.

End Spec.

(** ** The tape of the design document in the buffers of [run] *)

Definition symbol_of_char (c : ascii) : Spec.symbol :=
  if Ascii.eqb c chr0 then Spec.Zero
  else if Ascii.eqb c blank then Spec.Blank
  else Spec.One.

(** The tape that a buffer of [len] cells holds when the first cell of the
    initial tape is at index [origin]: blank outside the buffer. *)
Definition window (tp : list ascii) (len : nat) (origin : Z) : Z → Spec.symbol :=
  fun r =>
    let i := origin + r in
    if (0 <=? i) && (i <? Z.of_nat len)
    then match tp !! Z.to_nat i with
         | Some c => symbol_of_char c
         | None => Spec.Blank
         end
    else Spec.Blank.

(** The configuration in the variables of the first execution. *)
Definition abs1 (l : locals) : Spec.config :=
  Spec.Config (default 0%nat (curr_state l))
    (window (tape l) (tape_len l) (tape_ix l - rel_tape_ix l))
    (rel_tape_ix l).

(** The configuration in the variables of the second execution, whose buffer
    starts at the cell [min_rel_tape_ix]. *)
Definition abs2 (final_tape_len : nat) (l : locals) : Spec.config :=
  Spec.Config (default 0%nat (curr_state l))
    (window (tape l) final_tape_len (- min_rel_tape_ix l))
    (tape_ix l + min_rel_tape_ix l).

Definition is_cell (c : ascii) : Prop := c = chr0 ∨ c = chr1 ∨ c = blank.

(** A buffer of [len] cells and the terminator. *)
Definition tape_wf (tp : list ascii) (len : nat) : Prop :=
  ∃ cells, tp = cells ++ [NUL] ∧ length cells = len ∧ Forall is_cell cells.

Definition state_wf (sts : list state) (p : option nat) : Prop :=
  ∃ q, p = Some q ∧ (q < length sts)%nat.

(** The invariant of the loop of the first execution on a tape that is not
    empty: the head is in the buffer, and the buffer holds every cell from
    [min_rel_tape_ix] to [max_rel_tape_ix]. *)
Definition wf1 (sts : list state) (l : locals) : Prop :=
  tape_wf (tape l) (tape_len l)
  ∧ 0 ≤ tape_ix l < Z.of_nat (tape_len l)
  ∧ (0 < tape_expansion_amt l)%nat
  ∧ state_wf sts (curr_state l)
  ∧ min_rel_tape_ix l ≤ rel_tape_ix l ≤ max_rel_tape_ix l
  ∧ 0 ≤ tape_ix l - rel_tape_ix l + min_rel_tape_ix l
  ∧ tape_ix l - rel_tape_ix l + max_rel_tape_ix l < Z.of_nat (tape_len l).

(** The variables of the second execution before a step, with the head in
    the buffer. *)
Definition wf2 (sts : list state) (final_tape_len : nat) (l : locals) : Prop :=
  tape_wf (tape l) final_tape_len
  ∧ state_wf sts (curr_state l)
  ∧ 0 ≤ tape_ix l < Z.of_nat final_tape_len.

(** The longest run of cells without blank around the cell [pos]. *)
Fixpoint nonblank_prefix (cells : list ascii) : list ascii :=
  match cells with
  | [] => []
  | c :: rest => if Ascii.eqb c blank then [] else c :: nonblank_prefix rest
  end.

Definition nonblank_run (cells : list ascii) (pos : nat) : list ascii :=
  reverse (nonblank_prefix (reverse (take pos cells)))
  ++ nonblank_prefix (drop pos cells).

(** One step of the first execution does what one step of the machine of
    the design document does: it ends the loop when the machine halts and
    goes on when the machine goes on, and the variables that it leaves hold
    the configuration that the machine steps to. *)
Definition pass1_step_refines (sts : list state) (l : locals) : Prop :=
  ∃ r, pass1_body sts l = Done r
    ∧ match r with
      | Break l' =>
          ∃ c, Spec.step sts (abs1 l) = Spec.Halted c
               ∧ Spec.config_eq c (abs1 l')
      | Continue l' =>
          ∃ c, Spec.step sts (abs1 l) = Spec.Running c
               ∧ Spec.config_eq c (abs1 l')
      end.

(** The same for one step of the second execution. *)
Definition pass2_step_refines (sts : list state) (verbosity : Z)
    (final_tape_len : nat) (l : locals) (out : list output) : Prop :=
  ∃ r, pass2_body sts verbosity final_tape_len l out = Done r
    ∧ match r with
      | Break (l', _) =>
          ∃ c, Spec.step sts (abs2 final_tape_len l) = Spec.Halted c
               ∧ Spec.config_eq c (abs2 final_tape_len l')
      | Continue (l', _) =>
          ∃ c, Spec.step sts (abs2 final_tape_len l) = Spec.Running c
               ∧ Spec.config_eq c (abs2 final_tape_len l')
      end.

(** ** The trace of the second execution *)

(** What a frame shows: the step, the buffer and the index of the head. *)
Definition frame_step (o : output) : option nat :=
  match o with
  | Frame stp _ _ _ _ => Some stp
  | Line _ => None
  end.

Definition frame_tape (o : output) : option (list ascii) :=
  match o with
  | Frame _ _ tp _ _ => Some tp
  | Line _ => None
  end.

(** A frame of a buffer of [final_tape_len] cells with the head on one of
    them, in a state of the table. *)
Definition frame_wf (sts : list state) (final_tape_len : nat) (o : output) : Prop :=
  match o with
  | Frame _ (Some n) tp len ix =>
      len = final_tape_len
      ∧ tape_wf tp final_tape_len
      ∧ 0 ≤ ix < Z.of_nat final_tape_len
      ∧ ∃ q st, sts !! q = Some st ∧ n = number st
  | _ => False
  end.

(** Every frame differs from the tape before it, [prev] for the first one, in
    the cell of its head and in no other cell. *)
Fixpoint each_frame_changes (prev : list ascii) (outs : list output) : Prop :=
  match outs with
  | [] => True
  | Frame _ _ tp _ ix :: rest =>
      (∃ w, tp = <[Z.to_nat ix := w]> prev ∧ prev !! Z.to_nat ix ≠ Some w)
      ∧ each_frame_changes tp rest
  | Line _ :: _ => False
  end.

(** The frames whose tape is not the tape of the frame before them, [prev]
    for the first one. *)
Fixpoint changed_frames (prev : list ascii) (outs : list output) : list output :=
  match outs with
  | [] => []
  | Frame stp st tp len ix :: rest =>
      if List.list_eq_dec Ascii.ascii_dec tp prev then changed_frames tp rest
      else Frame stp st tp len ix :: changed_frames tp rest
  | Line s :: rest => Line s :: changed_frames prev rest
  end.

(** The tape of the last frame, [prev] without frame. *)
Fixpoint tape_after (prev : list ascii) (outs : list output) : list ascii :=
  match outs with
  | [] => prev
  | Frame _ _ tp _ _ :: rest => tape_after tp rest
  | Line _ :: rest => tape_after prev rest
  end.

(** ** The characters that [print_tape] and [print_tm] write *)

Definition newline : ascii := "010"%char.

(** A digit of the conversions [u], [d] and [X] of [printf]: 0 to 9, then
    A to F. *)
Definition digit_char (d : nat) : ascii :=
  ascii_of_nat (if (d <? 10)%nat then 48 + d else 55 + d).

(** The digits of [n] in base [base] before [acc], without leading zero. *)
Fixpoint digits_aux (base fuel n : nat) (acc : list ascii) : list ascii :=
  match fuel with
  | O => acc
  | S fuel' =>
      let acc := digit_char (n mod base) :: acc in
      if (n / base =? 0)%nat then acc else digits_aux base fuel' (n / base) acc
  end.

Definition digits (base n : nat) : list ascii := digits_aux base (S n) n [].

(** The field width 5 of [%5llu] and [%5zX]: blanks before a text of fewer
    than five characters. *)
Definition width5 (s : list ascii) : list ascii :=
  replicate (5 - length s) blank ++ s.

(** The conversion [d] of a [short] argument. *)
Definition print_int (z : Z) : list ascii :=
  if z <? 0 then "-"%char :: digits 10 (Z.to_nat (- z))
  else digits 10 (Z.to_nat z).

(** The conversion of a [size_t] or [ssize_t] argument to the [int]
    parameter. *)
Definition to_int (z : Z) : Z := (z + 2 ^ 31) mod 2 ^ 32 - 2 ^ 31.

(** [for (i = 0; i < tape_ix; ++i) { putchar(' '); putchar(tape[i]); }],
    with [n] the number of iterations left. *)
Fixpoint cells_before (tp : list ascii) (i : Z) (n : nat) : outcome (list ascii) :=
  match n with
  | O => Done []
  | S n' =>
      c ← load tp i;
      rest ← cells_before tp (i + 1) n';
      Done (blank :: c :: rest)
  end.

(** [for (i = tape_ix + 1; i < tape_len; ++i) { putchar(tape[i]);
    putchar(' '); }] *)
Fixpoint cells_after (tp : list ascii) (i : Z) (n : nat) : outcome (list ascii) :=
  match n with
  | O => Done []
  | S n' =>
      c ← load tp i;
      rest ← cells_after tp (i + 1) n';
      Done (c :: blank :: rest)
  end.

(** The line that [print_tape] writes; [st] is the number of the state,
    [None] for the null pointer.  [step >= 0] holds for every
    [unsigned long long]. *)
Definition print_tape_line (tp : list ascii) (tape_len tape_ix : Z)
    (stp : nat) (st : option nat) : outcome (list ascii) :=
  let tape_len := to_int tape_len in
  let tape_ix := to_int tape_ix in
  let bar := if (0 <? stp)%nat then "|"%char else blank in
  before ← cells_before tp 0 (Z.to_nat tape_ix);
  c ← load tp tape_ix;
  after ← (if tape_ix =? 2 ^ 31 - 1 then Undefined
           else cells_after tp (tape_ix + 1)
                  (Z.to_nat (tape_len - (tape_ix + 1))));
  Done (width5 (digits 10 stp) ++ [blank]
        ++ match st with
           | Some n => width5 (digits 16 n) ++ [":"%char]
           | None => [blank; blank; blank; ":"%char]
           end
        ++ before ++ [bar; c; bar] ++ after ++ [newline]).

(** The characters of one output of [run]. *)
Definition render (o : output) : outcome (list ascii) :=
  match o with
  | Line s => Done (s ++ [newline])
  | Frame stp st tp len ix => print_tape_line tp (Z.of_nat len) ix stp st
  end.

(** The line that [print_tm_action] writes. *)
Definition print_tm_action (sts : list state) (state_number : nat) (c : ascii)
    (a : action) : outcome (list ascii) :=
  let direction :=
    if direction_to_move a =? -1 then ["L"%char]
    else if direction_to_move a =? 1 then ["R"%char]
    else ["S"%char; "T"%char; "O"%char; "P"%char] in
  s ← deref sts (next_state a);
  Done (width5 (digits 16 state_number)
        ++ [blank; c; blank; "-"%char; ">"%char; blank]
        ++ width5 (digits 16 (number s))
        ++ [blank] ++ print_int (value_to_write a)
        ++ [blank] ++ direction ++ [newline]).

(** [for (i = 0; i < states_len; ++i)], with [n] the number of iterations
    left. *)
Fixpoint print_tm_loop (sts : list state) (i : nat) (n : nat)
    : outcome (list ascii) :=
  match n with
  | O => Done []
  | S n' =>
      s ← load sts (Z.of_nat i);
      line0 ← print_tm_action sts (number s) chr0 (action0 s);
      line1 ← print_tm_action sts (number s) chr1 (action1 s);
      rest ← print_tm_loop sts (S i) n';
      Done (line0 ++ line1 ++ rest)
  end.

Definition print_tm (sts : list state) (states_len : nat) : outcome (list ascii) :=
  print_tm_loop sts 0 states_len.

(** * Properties of the codec *)

Lemma bind_Done {A B} (m : outcome A) (f : A → outcome B) (b : B) :
  m ≫= f = Done b → ∃ a, m = Done a ∧ f a = Done b.
Proof. destruct m; simpl; intros H; try discriminate. eauto. Qed.

Lemma load_Done {A} (buf : list A) (i : Z) (x : A) :
  load buf i = Done x ↔ 0 ≤ i ∧ buf !! Z.to_nat i = Some x.
Proof.
  unfold load. destruct (Z.ltb_spec i 0).
  - split; [discriminate | lia].
  - destruct (buf !! Z.to_nat i) eqn:E; split; intros; try discriminate;
      try (destruct H0; discriminate); intuition congruence.
Qed.

Lemma load_lookup {A} (buf : list A) (i : nat) (x : A) :
  buf !! i = Some x → load buf (Z.of_nat i) = Done x.
Proof. intros H. apply load_Done. rewrite Nat2Z.id. split; [lia | done]. Qed.

Lemma store_Done {A} (buf : list A) (i : Z) (x : A) :
  0 ≤ i < Z.of_nat (length buf) →
  store buf i x = Done (<[Z.to_nat i := x]> buf).
Proof.
  intros H. unfold store.
  destruct (Z.ltb_spec i 0); [lia |].
  destruct (Z.leb_spec (Z.of_nat (length buf)) i); [lia | done].
Qed.

Lemma store_inv {A} (buf buf' : list A) (i : Z) (x : A) :
  store buf i x = Done buf' →
  0 ≤ i < Z.of_nat (length buf) ∧ buf' = <[Z.to_nat i := x]> buf.
Proof.
  unfold store. destruct (Z.ltb_spec i 0); [discriminate |].
  destruct (Z.leb_spec (Z.of_nat (length buf)) i); [discriminate |].
  intros [= <-]. split; [lia | done].
Qed.

(** ** The tokenizer *)

Definition is_bit_char (c : ascii) : Prop := c = chr0 ∨ c = chr1.

Lemma bits_are_bits (bs : list bool) : Forall is_bit_char (bits bs).
Proof.
  induction bs as [|[] bs IH]; constructor; auto; [right | left]; done.
Qed.

Lemma encode_token_bits (t : token) : Forall is_bit_char (encode_token t).
Proof. destruct t; repeat constructor; (by left) || (by right). Qed.

Lemma encode_tokens_bits (ts : list token) : Forall is_bit_char (encode_tokens ts).
Proof.
  induction ts as [|t ts IH]; [constructor |].
  simpl. apply Forall_app. split; [apply encode_token_bits | exact IH].
Qed.

Lemma check_tm_bits (s : list ascii) (n : nat) :
  Forall is_bit_char s → check_tm s n = Done (n + length s)%nat.
Proof.
  intros H. revert n. induction H as [|c s [-> | ->] _ IH]; intros n; simpl.
  - f_equal. lia.
  - rewrite IH. f_equal. lia.
  - rewrite IH. f_equal. lia.
Qed.

Lemma check_tm_Done (s : list ascii) (n k : nat) :
  check_tm s n = Done k → Forall is_bit_char s.
Proof.
  revert n. induction s as [|c s IH]; intros n; simpl; [constructor |].
  destruct (Ascii.eqb_spec c chr0) as [-> | H0]; simpl.
  - intros H. constructor; [by left | eauto].
  - destruct (Ascii.eqb_spec c chr1) as [-> | H1]; simpl; [| discriminate].
    intros H. constructor; [by right | eauto].
Qed.

Lemma tokenize_encode_token (t : token) (rest : list ascii) (i : nat)
    (acc : list token) :
  tokenize (encode_token t ++ rest) i 0 acc
  = tokenize rest (i + length (encode_token t)) 0 (acc ++ [t]).
Proof.
  destruct t; simpl; repeat (f_equal; try lia).
Qed.

Lemma tokenize_encode_tokens (ts : list token) (rest : list ascii) (i : nat)
    (acc : list token) :
  tokenize (encode_tokens ts ++ rest) i 0 acc
  = tokenize rest (i + length (encode_tokens ts)) 0 (acc ++ ts).
Proof.
  revert i acc. induction ts as [|t ts IH]; intros i acc.
  - simpl. rewrite app_nil_r. f_equal. lia.
  - simpl encode_tokens. rewrite <- app_assoc.
    rewrite tokenize_encode_token, IH.
    rewrite length_app, <- app_assoc. simpl. f_equal; lia.
Qed.

Lemma tokenize_five_ones (c : ascii) (rest : list ascii) (i : nat)
    (acc : list token) :
  tokenize (replicate 5 chr1 ++ c :: rest) i 0 acc
  = Exit (InvalidRunLength (i + 5)).
Proof. simpl. repeat f_equal. lia. Qed.

(** The tokenizer over a prefix of its input: it stops there with an error,
    or goes on with the rest. *)
Lemma tokenize_prefix (a : list ascii) (i : nat) (tl : Z) (acc : list token) :
  0 ≤ tl →
  (∃ idx, ∀ b, tokenize (a ++ b) i tl acc = Exit (InvalidRunLength idx))
  ∨ (∃ tl' acc', 0 ≤ tl'
       ∧ ∀ b, tokenize (a ++ b) i tl acc
              = tokenize b (i + length a) tl' (acc ++ acc')).
Proof.
  revert i tl acc. induction a as [|c a IH]; intros i tl acc Htl.
  - right. exists tl, []. split; [done |]. intros b. simpl.
    rewrite app_nil_r. f_equal. lia.
  - simpl. destruct (Z.ltb_spec 5 (tl + 1)).
    + left. eauto.
    + destruct (Ascii.eqb c chr0).
      * destruct (IH (S i) 0 (acc ++ [token_of_val (tl + 1 - 1)])) as
          [[idx H1] | (tl' & acc' & H1 & H2)]; [lia | left; eauto |].
        right. exists tl', ([token_of_val (tl + 1 - 1)] ++ acc').
        split; [done |]. intros b. rewrite H2. rewrite <- app_assoc.
        f_equal. lia.
      * destruct (IH (S i) (tl + 1) acc) as
          [[idx H1] | (tl' & acc' & H1 & H2)]; [lia | left; eauto |].
        right. exists tl', acc'. split; [done |]. intros b. rewrite H2.
        f_equal. lia.
Qed.

Lemma tokenize_wrap_prefix (s : list ascii) :
  tokenize (wrap_tm s) 0 0 [] = tokenize (s ++ [chr1; chr1; chr0]) 3 0 [RIGHT].
Proof. reflexivity. Qed.

(** The tokens of a specification start with the [RIGHT] of the implicit
    prefix and end with the token that the zero of the implicit suffix
    ends, which is [RIGHT], [LEFT] or [STOP]. *)
Lemma tokenize_wrap (tm : list ascii) (tokens : list token) :
  tokenize (wrap_tm tm) 0 0 [] = Done tokens →
  ∃ mid last, tokens = RIGHT :: mid ++ [last] ∧ is_terminator last = true.
Proof.
  unfold wrap_tm. intros H. simpl in H.
  destruct (tokenize_prefix tm 3 0 [RIGHT]) as
    [[idx H1] | (tl' & acc' & H1 & H2)]; [lia | |].
  - rewrite H1 in H. discriminate.
  - rewrite H2 in H. simpl in H.
    destruct (Z.ltb_spec 5 (tl' + 1)); [discriminate |].
    destruct (Z.ltb_spec 5 (tl' + 1 + 1)); [discriminate |].
    destruct (Z.ltb_spec 5 (tl' + 1 + 1 + 1)); [discriminate |].
    injection H as <-. exists acc', (token_of_val (tl' + 1 + 1 + 1 - 1)).
    split; [done |].
    assert (tl' = 0 ∨ tl' = 1 ∨ tl' = 2) as [-> | [-> | ->]] by lia; done.
Qed.

Lemma tm_tokens_Done (tm : string) (tokens : list token) :
  tm_tokens tm = Done tokens →
  Forall is_bit_char (list_ascii_of_string tm)
  ∧ tokenize (wrap_tm (list_ascii_of_string tm)) 0 0 [] = Done tokens.
Proof.
  unfold tm_tokens. intros H. apply bind_Done in H as (n & H1 & H2).
  split; [by eapply check_tm_Done | done].
Qed.

Lemma tm_tokens_bits (s : list ascii) :
  Forall is_bit_char s →
  tm_tokens (string_of_list_ascii s) = tokenize (wrap_tm s) 0 0 [].
Proof.
  intros H. unfold tm_tokens. rewrite list_ascii_of_string_of_list_ascii.
  by rewrite check_tm_bits.
Qed.

(** Runs of zero to four ones that a zero ends are the five tokens. *)
Lemma tm_tokens_encode (ts : list token) :
  tm_tokens (string_of_list_ascii (encode_tokens ts))
  = Done (RIGHT :: ts ++ [RIGHT]).
Proof.
  rewrite tm_tokens_bits by apply encode_tokens_bits.
  unfold wrap_tm. simpl. by rewrite tokenize_encode_tokens.
Qed.

(** ** The loop that creates the states *)

Definition nonterm (t : token) : Prop := is_terminator t = false.

Lemma nonterm_val (t : token) : nonterm t → token_val t = 0 ∨ token_val t = 1.
Proof. destruct t; unfold nonterm; simpl; intros; auto; discriminate. Qed.

Lemma split_actions_app (p a b : list token) :
  split_actions p (a ++ b)
  = split_actions p a ++ split_actions (pending_after p a) b.
Proof.
  revert p. induction a as [|t a IH]; intros p; simpl; [done |].
  destruct (is_terminator t); simpl; by rewrite IH.
Qed.

Lemma pending_after_app (p a b : list token) :
  pending_after p (a ++ b) = pending_after (pending_after p a) b.
Proof.
  revert p. induction a as [|t a IH]; intros p; simpl; [done |].
  destruct (is_terminator t); by rewrite IH.
Qed.

Lemma count_actions_split (p ts : list token) (n : nat) :
  count_actions ts n = (n + length (split_actions p ts))%nat.
Proof.
  revert p n. induction ts as [|t ts IH]; intros p n; simpl; [lia |].
  destruct (is_terminator t); simpl.
  - rewrite (IH []). lia.
  - apply IH.
Qed.

(** The pending tokens are a suffix of what was read, without terminator. *)
Lemma pending_after_suffix (p ts : list token) :
  Forall nonterm p →
  Forall nonterm (pending_after p ts)
  ∧ ∃ front, p ++ ts = front ++ pending_after p ts.
Proof.
  revert p. induction ts as [|t ts IH]; intros p Hp; simpl.
  - split; [done |]. exists []. by rewrite app_nil_r.
  - destruct (is_terminator t) eqn:E.
    + destruct (IH []) as [H1 [front H2]]; [constructor |].
      split; [done |]. exists (p ++ t :: front). simpl in H2.
      rewrite <- app_assoc. simpl. by rewrite <- H2.
    + destruct (IH (p ++ [t])) as [H1 [front H2]].
      { apply Forall_app. split; [done |]. by constructor. }
      split; [done |]. exists front. rewrite <- H2, <- app_assoc. done.
Qed.

Lemma binary_msb_snoc (addr : list token) (t : token) :
  binary_msb (addr ++ [t]) = 2 * binary_msb addr + token_val t.
Proof. unfold binary_msb. by rewrite fold_left_app. Qed.

Lemma binary_msb_nonneg (addr : list token) : 0 ≤ binary_msb addr.
Proof.
  induction addr as [|t addr IH] using rev_ind; [done |].
  rewrite binary_msb_snoc. destruct t; simpl; lia.
Qed.

Lemma shl_u32_nonterm (t : token) (j : Z) :
  nonterm t → 0 ≤ j < 32 → shl_u32 t j = Done (token_val t * 2 ^ j).
Proof.
  intros Ht Hj. unfold shl_u32.
  destruct (Z.ltb_spec j 0); [lia |].
  destruct (Z.leb_spec 32 j); [lia |]. simpl. f_equal.
  assert (0 < 2 ^ j < 2 ^ 32).
  { split; [apply Z.pow_pos_nonneg; lia | apply Z.pow_lt_mono_r; lia]. }
  rewrite Z.shiftl_mul_pow2 by lia.
  destruct (nonterm_val t Ht) as [-> | ->].
  - done.
  - change ((1 * 1) mod 2 ^ 32) with 1. rewrite Z.mod_small; lia.
Qed.

Lemma shl_u32_wide (t : token) (j : Z) : 32 ≤ j → shl_u32 t j = Undefined.
Proof.
  intros Hj. unfold shl_u32.
  destruct (Z.leb_spec 32 j); [| lia]. by rewrite orb_true_r.
Qed.

(** The inner loop reads the tokens of the address from its last one to its
    first one; it is defined for up to 32 tokens. *)
Lemma read_next_state_ix_spec (addr : list token) :
  ∀ (front back : list token) (j acc : Z),
    Forall nonterm addr → 0 ≤ j →
    read_next_state_ix (front ++ addr ++ back) (length addr)
      (length front + length addr - 1) j acc
    = match addr with
      | [] => Done acc
      | _ => if j + Z.of_nat (length addr) <=? 32
             then Done (acc + 2 ^ j * binary_msb addr)
             else Undefined
      end.
Proof.
  induction addr as [|x addr IH] using rev_ind; intros front back j acc Hall Hj.
  - done.
  - apply Forall_app in Hall as [Hall Hx].
    rewrite Forall_singleton in Hx.
    rewrite length_app. simpl length.
    replace (length addr + 1)%nat with (S (length addr)) by lia.
    simpl read_next_state_ix.
    replace (length front + S (length addr) - 1)%nat
      with (length front + length addr)%nat by lia.
    assert (Hlk : (front ++ (addr ++ [x]) ++ back) !! (length front + length addr)%nat
                  = Some x).
    { rewrite <- !app_assoc. rewrite app_assoc.
      apply list_lookup_middle. by rewrite length_app. }
    rewrite (load_lookup _ _ _ Hlk). simpl.
    destruct (Z.leb_spec 32 j) as [Hw | Hw].
    + rewrite shl_u32_wide by done. simpl.
      destruct (addr ++ [x]) eqn:E; [by destruct addr |].
      destruct (Z.leb_spec (j + Z.of_nat (S (length addr))) 32); [lia | done].
    + rewrite shl_u32_nonterm by (done || lia). simpl.
      replace (length front + length addr - 1)%nat
        with (length front + length addr - 1)%nat by lia.
      rewrite <- app_assoc.
      rewrite (IH front ([x] ++ back) (j + 1) (acc + token_val x * 2 ^ j))
        by (done || lia).
      destruct (addr ++ [x]) eqn:E; [by destruct addr |]. rewrite <- E.
      rewrite binary_msb_snoc.
      destruct addr as [|y addr'].
      * simpl. destruct (Z.leb_spec (j + Z.of_nat 1) 32); [| lia].
        f_equal. unfold binary_msb. simpl. lia.
      * destruct (Z.leb_spec (j + 1 + Z.of_nat (length (y :: addr'))) 32);
          destruct (Z.leb_spec (j + Z.of_nat (S (length (y :: addr')))) 32);
          try lia; [| done].
        f_equal. rewrite Z.pow_add_r by lia. lia.
Qed.

Lemma direction_of_decide (t : token) :
  (if decide (t = RIGHT) then 1 else if decide (t = LEFT) then -1 else 0)
  = direction_of t.
Proof. by destruct t. Qed.

(** The action created at a terminator depends on its body alone. *)
Lemma decode_action_body (states_len : nat) (front body rest : list token)
    (term : token) (b : builder) :
  Forall nonterm body →
  token_start b = length front →
  decode_action (front ++ body ++ term :: rest) states_len
    (length front + length body) term b
  = body_outcome states_len (state_ix b) body term.
Proof.
  intros Hbody Hts. unfold decode_action, body_outcome.
  rewrite direction_of_decide, Hts.
  destruct body as [|x addr _] using rev_ind.
  - simpl. rewrite Nat.add_0_r, Nat.eqb_refl. done.
  - rewrite reverse_snoc. rewrite length_app. simpl length.
    destruct (Nat.eqb_spec (length front) (length front + (length addr + 1)));
      [lia |].
    assert (Hlk : (front ++ (addr ++ [x]) ++ term :: rest)
                    !! (length front + length addr)%nat = Some x).
    { rewrite <- !app_assoc. rewrite app_assoc.
      apply list_lookup_middle. by rewrite length_app. }
    replace (Z.of_nat (length front + (length addr + 1)) - 1)
      with (Z.of_nat (length front + length addr)) by lia.
    rewrite (load_lookup _ _ _ Hlk). simpl.
    apply Forall_app in Hbody as [Haddr _].
    destruct addr as [|y addr'] using rev_ind.
    + simpl. destruct (Nat.eqb_spec (length front) (length front + 1 - 1));
        [done | lia].
    + clear IHaddr'. rewrite reverse_snoc. rewrite length_app. simpl length.
      destruct (Nat.eqb_spec (length front)
                  (length front + (length addr' + 1 + 1) - 1)); [lia |].
      replace (length front + (length addr' + 1 + 1) - 1 - length front)%nat
        with (length (addr' ++ [y])) by (rewrite length_app; simpl; lia).
      replace (length front + (length addr' + 1 + 1) - 2)%nat
        with (length front + length (addr' ++ [y]) - 1)%nat
        by (rewrite length_app; simpl; lia).
      rewrite <- (app_assoc (addr' ++ [y]) [x]).
      rewrite read_next_state_ix_spec by (done || lia).
      destruct (addr' ++ [y]) as [|z w] eqn:E; [by destruct addr' |].
      rewrite <- E. rewrite length_reverse.
      assert (reverse (y :: reverse addr') = addr' ++ [y]) as ->.
      { rewrite reverse_cons, reverse_involutive. done. }
      rewrite length_app. simpl length.
      destruct (Z.leb_spec (0 + Z.of_nat (length addr' + 1)) 32);
        destruct (Nat.ltb_spec 32 (S (length addr'))); try lia; simpl; [| done].
      rewrite Z.add_0_l, Z.pow_0_r, Z.mul_1_l. done.
Qed.

#[local] Arguments Nat.div : simpl never.
#[local] Arguments Nat.modulo : simpl never.

Ltac div2 k :=
  pose proof (Nat.div_mod_eq k 2);
  pose proof (Nat.mod_upper_bound k 2 ltac:(lia)).

Lemma split_actions_snoc_term (pre : list token) (t : token) :
  is_terminator t = true →
  split_actions [] (pre ++ [t])
  = split_actions [] pre ++ [(pending_after [] pre, t)].
Proof. intros Ht. rewrite split_actions_app. simpl. by rewrite Ht. Qed.

Lemma split_actions_snoc_nonterm (pre : list token) (t : token) :
  is_terminator t = false →
  split_actions [] (pre ++ [t]) = split_actions [] pre.
Proof. intros Ht. rewrite split_actions_app. simpl. by rewrite Ht, app_nil_r. Qed.

Lemma build_inv_init (states_len : nat) :
  build_inv states_len [] (Builder (replicate states_len zero_state) 0 0 0).
Proof.
  unfold build_inv. simpl. rewrite length_replicate.
  repeat split; try done.
Qed.

(** A token that ends no action leaves the variables of the loop alone. *)
Lemma build_inv_skip (states_len : nat) (pre : list token) (t : token)
    (b : builder) :
  is_terminator t = false →
  build_inv states_len pre b → build_inv states_len (pre ++ [t]) b.
Proof.
  intros Ht (H1 & H2 & H3 & H4 & H5). unfold build_inv.
  rewrite split_actions_snoc_nonterm by done.
  repeat split; try done.
  rewrite pending_after_app. simpl. rewrite Ht, H3, !length_app. simpl.
  destruct (pending_after_suffix [] pre) as [_ [front Hf]]; [constructor |].
  simpl in Hf. apply (f_equal length) in Hf. rewrite length_app in Hf. lia.
Qed.

(** One action created: the invariant holds with it, or its body is what
    makes the creation fail. *)
Lemma define_action_inv (states_len : nat) (pre rest : list token) (t : token)
    (b : builder) :
  build_inv states_len pre b →
  is_terminator t = true →
  (length (split_actions [] pre) < 2 * states_len)%nat →
  match define_action (pre ++ t :: rest) states_len (length pre) t b with
  | Done b' => build_inv states_len (pre ++ [t]) b'
  | r => ∃ r', r = (fun _ => b) <$> r' ∧
         body_outcome states_len (length (split_actions [] pre) / 2)
           (pending_after [] pre) t = r'
  end.
Proof.
  intros (H1 & H2 & H3 & H4 & H5) Ht Hroom.
  destruct (pending_after_suffix [] pre) as [Hnt [front Hf]]; [constructor |].
  simpl in Hf.
  set (m := length (split_actions [] pre)) in *.
  assert (Hstart : token_start b = length front).
  { rewrite H3. rewrite Hf at 1. rewrite length_app. lia. }
  unfold define_action.
  assert (Hdec : decode_action (pre ++ t :: rest) states_len (length pre) t b
                 = body_outcome states_len (m / 2) (pending_after [] pre) t).
  { rewrite <- H1, <- H2. rewrite Hf at 1 2. rewrite length_app, <- app_assoc.
    by apply decode_action_body. }
  rewrite Hdec.
  destruct (body_outcome states_len (m / 2) (pending_after [] pre) t) as [a| | |] eqn:Ebody;
    simpl; [| eexists (Exit _) | eexists Undefined | eexists OutOfFuel]; try done.
  assert (Hlt : (state_ix b < length (states b))%nat).
  { rewrite H2, H1, H4. fold m. div2 m. lia. }
  destruct (lookup_lt_is_Some_2 _ _ Hlt) as [st Hst].
  rewrite (load_lookup _ _ _ Hst). simpl.
  rewrite store_Done by lia. simpl. rewrite Nat2Z.id.
  unfold build_inv. simpl.
  rewrite split_actions_snoc_term by done. rewrite length_app. simpl.
  rewrite pending_after_app. simpl. rewrite Ht. simpl.
  rewrite length_insert, length_app. simpl.
  rewrite H1. fold m.
  repeat split; try lia.
  - div2 m. div2 (S m). div2 (m + 1)%nat.
    replace (m + 1)%nat with (S m) by lia.
    destruct (Nat.eqb_spec (S m mod 2) 0); rewrite H2, H1; fold m; lia.
  - intros k body term Hk.
    rewrite H2, H1. fold m.
    apply lookup_app_Some in Hk as [Hk | [Hge Hk]].
    + assert (Hkm : (k < m)%nat) by (by apply lookup_lt_Some in Hk).
      destruct (H5 _ _ _ Hk) as (st0 & Hst0 & Hnum & Hout).
      destruct (decide (k / 2 = m / 2)%nat) as [Heq | Hne].
      * rewrite Heq in *. rewrite H2, H1 in Hst. fold m in Hst.
        assert (st0 = st) as -> by congruence.
        div2 k. div2 m.
        eexists. split; [apply list_lookup_insert_eq; rewrite H4; lia |].
        destruct (Nat.eqb_spec (m mod 2) 0) as [Hm | Hm]; [lia |].
        destruct (Nat.eqb_spec (k mod 2) 0) as [Hk2 | Hk2]; [| lia].
        simpl. done.
      * exists st0. rewrite list_lookup_insert_ne by done. done.
    + fold m in Hge, Hk.
      destruct (k - m)%nat as [|d] eqn:Ed; [| by destruct d].
      simpl in Hk. injection Hk as <- <-.
      assert (k = m) as -> by lia.
      eexists. split; [apply list_lookup_insert_eq; rewrite H4; div2 m; lia |].
      destruct (Nat.eqb_spec (m mod 2) 0); simpl; done.
Qed.

(** The loop that creates the states keeps the invariant; when it fails, the
    body of one of the actions is the reason. *)
Lemma build_loop_inv (states_len : nat) (rest : list token) :
  ∀ (pre : list token) (b : builder),
    build_inv states_len pre b →
    (length (split_actions [] (pre ++ rest)) ≤ 2 * states_len)%nat →
    match build_loop (pre ++ rest) states_len rest (length pre) b with
    | Done b' => build_inv states_len (pre ++ rest) b'
    | r => ∃ k body term r',
             split_actions [] (pre ++ rest) !! k = Some (body, term)
             ∧ r = (fun _ => b) <$> r'
             ∧ body_outcome states_len (k / 2) body term = r'
    end.
Proof.
  induction rest as [|t rest IH]; intros pre b Hinv Hroom.
  - simpl. by rewrite app_nil_r.
  - simpl build_loop.
    assert (Hcons : pre ++ t :: rest = (pre ++ [t]) ++ rest)
      by (by rewrite <- app_assoc).
    assert (Hlen : S (length pre) = length (pre ++ [t]))
      by (rewrite length_app; simpl; lia).
    destruct (Z.ltb_spec (token_val t) 2) as [Hlt | Hge].
    + assert (Ht : is_terminator t = false).
      { unfold is_terminator. simpl. by apply Z.leb_gt. }
      rewrite Hcons in *. rewrite Hlen.
      specialize (IH (pre ++ [t]) b (build_inv_skip _ _ _ _ Ht Hinv) Hroom).
      destruct (build_loop _ _ _ _ b); try done.
    + assert (Ht : is_terminator t = true).
      { unfold is_terminator. simpl. by apply Z.leb_le. }
      assert (Hroom' : (length (split_actions [] pre) < 2 * states_len)%nat).
      { rewrite Hcons, split_actions_app in Hroom.
        rewrite split_actions_snoc_term in Hroom by done.
        rewrite !length_app in Hroom. simpl in Hroom. lia. }
      pose proof (define_action_inv states_len pre rest t b Hinv Ht Hroom') as Hstep.
      destruct (define_action (pre ++ t :: rest) states_len (length pre) t b)
        as [b'| | |] eqn:Edef; simpl.
      * rewrite Hcons in *. rewrite Hlen.
        specialize (IH (pre ++ [t]) b' Hstep Hroom).
        destruct (build_loop _ _ _ _ b') eqn:Eloop; try done;
          destruct IH as (k & body & term & r' & Hk & Hr & Hout);
          exists k, body, term, r'; (split; [done |]); (split; [| done]);
          destruct r'; simpl in *; congruence.
      * destruct Hstep as (r' & Hr & Hout).
        exists (length (split_actions [] pre)), (pending_after [] pre), t, r'.
        split; [| done].
        rewrite Hcons, split_actions_app, split_actions_snoc_term by done.
        apply lookup_app_l_Some. by apply list_lookup_middle.
      * destruct Hstep as (r' & Hr & Hout).
        exists (length (split_actions [] pre)), (pending_after [] pre), t, r'.
        split; [| done].
        rewrite Hcons, split_actions_app, split_actions_snoc_term by done.
        apply lookup_app_l_Some. by apply list_lookup_middle.
      * destruct Hstep as (r' & Hr & Hout).
        exists (length (split_actions [] pre)), (pending_after [] pre), t, r'.
        split; [| done].
        rewrite Hcons, split_actions_app, split_actions_snoc_term by done.
        apply lookup_app_l_Some. by apply list_lookup_middle.
Qed.

(** What [parse_tm] returns, from the tokens of the specification. *)
Lemma parse_tm_tokens (tm : string) (tokens : list token) :
  tm_tokens tm = Done tokens →
  let n := count_actions tokens 0 in
  ((n mod 2)%nat ≠ 0%nat → parse_tm tm = Exit IncompleteStateDefinition)
  ∧ ((n mod 2)%nat = 0%nat →
     match parse_tm tm with
     | Done sts =>
         length sts = (n / 2)%nat
         ∧ ∀ k body term,
             split_actions [] tokens !! k = Some (body, term) →
             ∃ st, sts !! (k / 2)%nat = Some st
                   ∧ number st = (k / 2)%nat
                   ∧ body_outcome (n / 2) (k / 2) body term
                     = Done (if (k mod 2 =? 0)%nat then action0 st else action1 st)
     | r => ∃ k body term r',
              split_actions [] tokens !! k = Some (body, term)
              ∧ r = (fun _ => []) <$> r'
              ∧ body_outcome (n / 2) (k / 2) body term = r'
     end).
Proof.
  intros Htok n. unfold parse_tm. rewrite Htok. simpl. fold n.
  split; intros Hn.
  - destruct (Nat.eqb_spec (n mod 2) 0); [done | done].
  - destruct (Nat.eqb_spec (n mod 2) 0); [simpl | done].
    pose proof (build_loop_inv (n / 2) tokens [] _ (build_inv_init (n / 2))) as H.
    simpl in H.
    assert (Hn' : n = length (split_actions [] tokens)).
    { unfold n. by rewrite (count_actions_split []). }
    specialize (H ltac:(div2 n; lia)).
    destruct (build_loop tokens (n / 2) tokens 0 _) as [b| | |] eqn:E; simpl.
    + destruct H as (_ & _ & _ & H4 & H5). exact (conj H4 H5).
    + destruct H as (k & body & term & r' & Hk & Hr & Hout).
      exists k, body, term, r'. repeat split; try done.
      destruct r'; simpl in *; congruence.
    + destruct H as (k & body & term & r' & Hk & Hr & Hout).
      exists k, body, term, r'. repeat split; try done.
      destruct r'; simpl in *; congruence.
    + destruct H as (k & body & term & r' & Hk & Hr & Hout).
      exists k, body, term, r'. repeat split; try done.
      destruct r'; simpl in *; congruence.
Qed.

Lemma parse_tm_Done_tokens (tm : string) (sts : list state) :
  parse_tm tm = Done sts → ∃ tokens, tm_tokens tm = Done tokens.
Proof. unfold parse_tm. intros H. apply bind_Done in H as (t & H & _). eauto. Qed.

(** A table that [parse_tm] returns holds the actions of the bodies of the
    specification, two for each state. *)
Lemma parse_tm_Done (tm : string) (sts : list state) :
  parse_tm tm = Done sts →
  ∃ tokens,
    tm_tokens tm = Done tokens
    ∧ count_actions tokens 0 = (2 * length sts)%nat
    ∧ length (split_actions [] tokens) = (2 * length sts)%nat
    ∧ ∀ k body term,
        split_actions [] tokens !! k = Some (body, term) →
        ∃ st, sts !! (k / 2)%nat = Some st
              ∧ number st = (k / 2)%nat
              ∧ body_outcome (length sts) (k / 2) body term
                = Done (if (k mod 2 =? 0)%nat then action0 st else action1 st).
Proof.
  intros H. destruct (parse_tm_Done_tokens _ _ H) as [tokens Htok].
  exists tokens. split; [done |].
  destruct (parse_tm_tokens tm tokens Htok) as [Hodd Heven].
  destruct (decide ((count_actions tokens 0 mod 2)%nat = 0%nat)) as [He | Ho].
  - specialize (Heven He). rewrite H in Heven. destruct Heven as [Hlen Hacts].
    assert (Hc : count_actions tokens 0 = (2 * length sts)%nat).
    { div2 (count_actions tokens 0). lia. }
    split; [done |]. split.
    + by rewrite <- Hc, (count_actions_split []).
    + by rewrite Hlen.
  - rewrite (Hodd Ho) in H. discriminate.
Qed.

(** The cases of [body_outcome] with a result. *)
Lemma body_outcome_Done (states_len state_number : nat) (body : list token)
    (term : token) (a : action) :
  body_outcome states_len state_number body term = Done a →
  direction_to_move a = direction_of term
  ∧ (body = [] → value_to_write a = 0 ∧ next_state a = Some 0%nat)
  ∧ (∀ t, body = [t] → value_to_write a = token_val t ∧ next_state a = Some 0%nat)
  ∧ (∀ addr t, addr ≠ [] → body = addr ++ [t] →
       value_to_write a = token_val t
       ∧ next_state a = Some (Z.to_nat (binary_msb addr))
       ∧ (length addr ≤ 32)%nat
       ∧ binary_msb addr ≤ size_pred states_len).
Proof.
  unfold body_outcome. intros H.
  destruct body as [|x addr _] using rev_ind.
  - simpl in H. injection H as <-. simpl.
    split; [done |]. split; [done |]. split.
    + intros t [=].
    + intros addr t _ E. by destruct addr.
  - rewrite reverse_snoc in H.
    destruct addr as [|y addr' _] using rev_ind.
    + simpl in H. injection H as <-. simpl.
      split; [done |]. split; [intros [=] |]. split.
      * by intros t [= ->].
      * intros addr t Hne E. change [x] with ([] ++ [x]) in E.
        apply app_inj_tail in E as [E _]. by subst.
    + rewrite reverse_snoc in H.
      destruct (Nat.ltb_spec 32 (length (y :: reverse addr'))) as [Hw | Hw];
        [discriminate |].
      cbv zeta in H.
      assert (Hrev : reverse (y :: reverse addr') = addr' ++ [y])
        by (by rewrite reverse_cons, reverse_involutive).
      rewrite Hrev in H.
      destruct (Z.ltb_spec (size_pred states_len) (binary_msb (addr' ++ [y])));
        [discriminate |].
      injection H as <-. simpl.
      split; [done |]. split; [intros E; by destruct addr' |]. split.
      * intros t E. apply (f_equal length) in E. rewrite !length_app in E.
        simpl in E. lia.
      * intros addr t _ E. apply app_inj_tail in E as [<- <-].
        repeat split; try done.
        simpl in Hw. rewrite length_reverse in Hw. rewrite length_app. simpl. lia.
Qed.

Lemma token_cases (t : token) :
  is_terminator t = true → direction_of t = 1 ∨ direction_of t = -1 ∨ direction_of t = 0.
Proof. destruct t; simpl; auto. Qed.

(** Every action of a table that [parse_tm] returns moves by one cell or
    stops and points to a state of the table. *)
Lemma parse_tm_table_ok (tm : string) (sts : list state) :
  parse_tm tm = Done sts → table_ok sts = true.
Proof.
  intros H. destruct (parse_tm_Done _ _ H) as (tokens & Htok & Hc & Hlen & Hacts).
  unfold table_ok. apply forallb_forall. intros st Hin.
  apply list_elem_of_In, list_elem_of_lookup in Hin as [i Hi].
  assert (Hi' : (i < length sts)%nat) by (by apply lookup_lt_Some in Hi).
  assert (Hone : ∀ k, (k / 2)%nat = i →
            action_ok (length sts)
              (if (k mod 2 =? 0)%nat then action0 st else action1 st) = true).
  { intros k Hk.
    destruct (lookup_lt_is_Some_2 (split_actions [] tokens) k) as [[body term] Hbt].
    { div2 k. lia. }
    destruct (Hacts _ _ _ Hbt) as (st' & Hst' & _ & Hout).
    rewrite Hk in Hst'. assert (st' = st) as -> by congruence.
    apply body_outcome_Done in Hout as (Hdir & H0 & H1 & H2).
    unfold action_ok. apply andb_true_intro. split.
    - rewrite Hdir. by destruct term.
    - destruct body as [|x addr _] using rev_ind.
      + destruct (H0 eq_refl) as [_ ->]. apply Nat.ltb_lt. lia.
      + destruct addr as [|y addr' _] using rev_ind.
        * destruct (H1 x eq_refl) as [_ ->]. apply Nat.ltb_lt. lia.
        * destruct (H2 (addr' ++ [y]) x) as (_ & -> & _ & Hle);
            [by destruct addr' | done |].
          apply Nat.ltb_lt. pose proof (binary_msb_nonneg (addr' ++ [y])).
          unfold size_pred in Hle.
          destruct (Nat.eqb_spec (length sts) 0); lia. }
  apply andb_true_intro. split.
  - specialize (Hone (2 * i)%nat). div2 (2 * i)%nat.
    replace ((2 * i) mod 2)%nat with 0%nat in Hone by lia.
    apply Hone. lia.
  - specialize (Hone (2 * i + 1)%nat). div2 (2 * i + 1)%nat.
    replace ((2 * i + 1) mod 2)%nat with 1%nat in Hone by lia.
    apply Hone. lia.
Qed.

Lemma check_tm_cases (s : list ascii) (n : nat) :
  (∃ k, check_tm s n = Done k) ∨ (∃ i, check_tm s n = Exit (InvalidCharacter i)).
Proof.
  revert n. induction s as [|c s IH]; intros n; simpl; [eauto |].
  destruct (negb (Ascii.eqb c chr0) && negb (Ascii.eqb c chr1)); eauto.
Qed.

Lemma tokenize_cases (s : list ascii) (i : nat) (tl : Z) (acc : list token) :
  (∃ tokens, tokenize s i tl acc = Done tokens)
  ∨ (∃ idx, tokenize s i tl acc = Exit (InvalidRunLength idx)).
Proof.
  revert i tl acc. induction s as [|c s IH]; intros i tl acc; simpl; [eauto |].
  destruct (5 <? tl + 1); [eauto |]. destruct (Ascii.eqb c chr0); eauto.
Qed.

(** The first half of [parse_tm] returns the tokens or fails with one of the
    two errors of the characters. *)
Lemma tm_tokens_cases (tm : string) :
  (∃ tokens, tm_tokens tm = Done tokens)
  ∨ (∃ i, tm_tokens tm = Exit (InvalidCharacter i))
  ∨ (∃ i, tm_tokens tm = Exit (InvalidRunLength i)).
Proof.
  unfold tm_tokens.
  destruct (tokenize_cases (wrap_tm (list_ascii_of_string tm)) 0 0 [])
    as [[tokens Htk] | [i Htk]];
    destruct (check_tm_cases (list_ascii_of_string tm) 0) as [[k ->] | [j ->]];
    unfold mbind, outcome_bind; rewrite ?Htk; eauto.
Qed.

Lemma tm_tokens_two_actions (tm : string) (tokens : list token) :
  tm_tokens tm = Done tokens →
  ∃ mid last, tokens = RIGHT :: mid ++ [last] ∧ is_terminator last = true
              ∧ (2 ≤ count_actions tokens 0)%nat.
Proof.
  intros H. apply tm_tokens_Done in H as [_ H].
  apply tokenize_wrap in H as (mid & last & -> & Hlast).
  exists mid, last. repeat split; try done.
  rewrite (count_actions_split []). simpl.
  rewrite split_actions_app, length_app. simpl. rewrite Hlast. simpl. lia.
Qed.

(** The one error of [body_outcome]: an address that is no state. *)
Lemma body_outcome_Exit (states_len state_number : nat) (body : list token)
    (term : token) (e : error) :
  body_outcome states_len state_number body term = Exit e →
  ∃ addr bit, body = addr ++ [bit] ∧ addr ≠ []
    ∧ e = UndefinedStateReference state_number (binary_msb addr)
    ∧ size_pred states_len < binary_msb addr.
Proof.
  unfold body_outcome. intros H.
  destruct body as [|x addr _] using rev_ind; [discriminate |].
  rewrite reverse_snoc in H.
  destruct addr as [|y addr' _] using rev_ind; [discriminate |].
  rewrite reverse_snoc in H.
  destruct (Nat.ltb_spec 32 (length (y :: reverse addr'))); [discriminate |].
  cbv zeta in H.
  assert (Hrev : reverse (y :: reverse addr') = addr' ++ [y])
    by (by rewrite reverse_cons, reverse_involutive).
  rewrite Hrev in H.
  destruct (Z.ltb_spec (size_pred states_len) (binary_msb (addr' ++ [y])));
    [| discriminate].
  injection H as <-. exists (addr' ++ [y]), x.
  repeat split; try done. by destruct addr'.
Qed.

(** The array of tokens is written up to its end: there are as many tokens
    as the zeros that were counted for its allocation. *)
Lemma tokenize_length (s : list ascii) :
  ∀ (i : nat) (tl : Z) (acc tokens : list token),
    tokenize s i tl acc = Done tokens →
    length tokens = count_zeros s (length acc).
Proof.
  induction s as [|c s IH]; intros i tl acc tokens H; simpl in *.
  - by injection H as <-.
  - destruct (5 <? tl + 1); [discriminate |].
    destruct (Ascii.eqb c chr0).
    + rewrite (IH _ _ _ _ H), length_app. simpl. f_equal. lia.
    + by rewrite (IH _ _ _ _ H).
Qed.

Lemma body_outcome_not_OutOfFuel (states_len state_number : nat)
    (body : list token) (term : token) :
  body_outcome states_len state_number body term ≠ OutOfFuel.
Proof.
  unfold body_outcome. destruct (reverse body) as [|t [|y addr]]; try done.
  destruct (32 <? length (y :: addr))%nat; [done |]. cbv zeta.
  by destruct (size_pred states_len <? _).
Qed.

(** The creation of an action is undefined only for an address of more than
    32 tokens. *)
Lemma body_outcome_Undefined (states_len state_number : nat)
    (body : list token) (term : token) :
  body_outcome states_len state_number body term = Undefined →
  (33 < length body)%nat.
Proof.
  unfold body_outcome. rewrite <- (length_reverse body).
  destruct (reverse body) as [|t [|y addr]]; try done.
  destruct (Nat.ltb_spec 32 (length (y :: addr))) as [Hw | Hw].
  - intros _. simpl in *. lia.
  - cbv zeta. by destruct (size_pred states_len <? _).
Qed.

(** ** Strings with a run of five ones *)

Lemma run_of_five_from_ge (n : nat) (bs : list bool) :
  (5 ≤ n)%nat → run_of_five_from n bs = true.
Proof.
  intros H. destruct n as [|[|[|[|[|n]]]]]; try lia. by destruct bs.
Qed.

Lemma run_of_five_from_app (pre post : list bool) (n : nat) :
  run_of_five_from n (pre ++ replicate 5 true ++ post) = true.
Proof.
  revert n. induction pre as [|b pre IH]; intros n.
  - simpl. rewrite !(run_of_five_from_ge (S (S (S (S (S n)))))) by lia.
    by rewrite !orb_true_r.
  - simpl. destruct b; rewrite IH; apply orb_true_r.
Qed.

Lemma encode_token_of_val (n : nat) :
  (n ≤ 4)%nat →
  encode_token (token_of_val (Z.of_nat n)) = replicate n chr1 ++ [chr0].
Proof.
  intros H.
  assert (n = 0 ∨ n = 1 ∨ n = 2 ∨ n = 3 ∨ n = 4)%nat
    as [-> | [-> | [-> | [-> | ->]]]] by lia; done.
Qed.

(** A string of bits with a run of five ones is a sequence of tokens, the
    first run of five ones and the rest. *)
Lemma run_of_five_decompose (bs : list bool) :
  ∀ n, (n ≤ 4)%nat → run_of_five_from n bs = true →
    ∃ ts rest,
      replicate n chr1 ++ bits bs
      = encode_tokens ts ++ replicate 5 chr1 ++ bits rest.
Proof.
  induction bs as [|b bs IH]; intros n Hn H.
  - assert (n = 0 ∨ n = 1 ∨ n = 2 ∨ n = 3 ∨ n = 4)%nat
      as [-> | [-> | [-> | [-> | ->]]]] by lia; discriminate.
  - assert (Hstep : (if b then run_of_five_from (S n) bs
                     else run_of_five_from 0 bs) = true).
    { assert (n = 0 ∨ n = 1 ∨ n = 2 ∨ n = 3 ∨ n = 4)%nat
        as [-> | [-> | [-> | [-> | ->]]]] by lia; exact H. }
    clear H. destruct b.
    + destruct (decide (n = 4%nat)) as [-> | Hne].
      * exists [], bs. done.
      * destruct (IH (S n) ltac:(lia) Hstep) as (ts & rest & E).
        exists ts, rest. rewrite <- E.
        change (bits (true :: bs)) with (chr1 :: bits bs).
        clear. induction n as [|n IHn]; [done |]. simpl. by rewrite IHn.
    + destruct (IH 0%nat ltac:(lia) Hstep) as (ts & rest & E). simpl in E.
      exists (token_of_val (Z.of_nat n) :: ts), rest. simpl.
      rewrite encode_token_of_val by done. rewrite <- !app_assoc. simpl.
      by rewrite E.
Qed.

(** ** The claims about the codec *)

(** C2: in a table that [parse_tm] returns, the action stored for the [k]-th
    body of the token stream (the tokens since the previous terminator) has,
    for an empty body, write bit 0 and target state 0; for a body of one
    token, that token as write bit and target state 0; for a longer body,
    its last token as write bit and, as target state, the number that the
    tokens before it spell, most significant bit first. *)
Theorem parse_tm_action_of_body (tm : string) (sts : list state) :
  parse_tm tm = Done sts →
  ∃ tokens,
    tm_tokens tm = Done tokens
    ∧ ∀ k body term,
        split_actions [] tokens !! k = Some (body, term) →
        ∃ a, table_action sts k = Some a
          ∧ (body = [] → value_to_write a = 0 ∧ next_state a = Some 0%nat)
          ∧ (∀ t, body = [t] →
               value_to_write a = token_val t ∧ next_state a = Some 0%nat)
          ∧ (∀ addr t, addr ≠ [] → body = addr ++ [t] →
               value_to_write a = token_val t
               ∧ next_state a = Some (Z.to_nat (binary_msb addr))).
Proof.
  intros H. destruct (parse_tm_Done _ _ H) as (tokens & Htok & _ & _ & Hacts).
  exists tokens. split; [done |]. intros k body term Hk.
  destruct (Hacts _ _ _ Hk) as (st & Hst & _ & Hout).
  apply body_outcome_Done in Hout as (_ & H0 & H1 & H2).
  eexists. split.
  { unfold table_action. rewrite Hst. simpl. reflexivity. }
  split; [done |]. split; [done |].
  intros addr t Hne E. destruct (H2 addr t Hne E) as (? & ? & _). done.
Qed.

Lemma parse_tm_action_of_body_witness :
  ∃ tokens,
    tm_tokens "100110110" = Done tokens
    ∧ ∀ k body term,
        split_actions [] tokens !! k = Some (body, term) →
        ∃ a, table_action
               [State 0 (Action 0 1 (Some 0%nat)) (Action 0 1 (Some 1%nat));
                State 1 (Action 0 1 (Some 0%nat)) (Action 0 1 (Some 0%nat))] k
             = Some a
          ∧ (body = [] → value_to_write a = 0 ∧ next_state a = Some 0%nat)
          ∧ (∀ t, body = [t] →
               value_to_write a = token_val t ∧ next_state a = Some 0%nat)
          ∧ (∀ addr t, addr ≠ [] → body = addr ++ [t] →
               value_to_write a = token_val t
               ∧ next_state a = Some (Z.to_nat (binary_msb addr))).
Proof. apply (parse_tm_action_of_body "100110110"). reflexivity. Defined.

(** X21: the targets that [parse_tm] checks: every [next_state] of a table that
    [parse_tm] returns points to a state of the table, and the address of
    every body of the specification spells the number of a state of the
    table: no target that is out of range survives.  When [parse_tm] fails with
    [UndefinedStateReference s t], some action has a body with an address
    that spells [t], which is no state of the table, and [s] is the state
    that this action belongs to.  A specification with a target that is out
    of range is rejected with this error, when no body has more than 33
    tokens (the address is read with a shift of an [unsigned int]). *)
Theorem parse_tm_next_state_valid (tm : string) :
  (∀ sts, parse_tm tm = Done sts →
     (∀ st, st ∈ sts →
        ∃ k0 k1, next_state (action0 st) = Some k0
                 ∧ next_state (action1 st) = Some k1
                 ∧ (k0 < length sts)%nat ∧ (k1 < length sts)%nat)
     ∧ (∀ tokens k addr bit term,
          tm_tokens tm = Done tokens →
          split_actions [] tokens !! k = Some (addr ++ [bit], term) →
          addr ≠ [] →
          binary_msb addr < Z.of_nat (length sts)))
  ∧ (∀ s t, parse_tm tm = Exit (UndefinedStateReference s t) →
       ∃ tokens k addr bit term,
         tm_tokens tm = Done tokens
         ∧ split_actions [] tokens !! k = Some (addr ++ [bit], term)
         ∧ addr ≠ []
         ∧ s = (k / 2)%nat
         ∧ t = binary_msb addr
         ∧ Z.of_nat (count_actions tokens 0 / 2) ≤ t)
  ∧ (∀ tokens k addr bit term,
       tm_tokens tm = Done tokens →
       (count_actions tokens 0 mod 2)%nat = 0%nat →
       (∀ k' body term', split_actions [] tokens !! k' = Some (body, term') →
                         (length body ≤ 33)%nat) →
       split_actions [] tokens !! k = Some (addr ++ [bit], term) →
       addr ≠ [] →
       Z.of_nat (count_actions tokens 0 / 2) ≤ binary_msb addr →
       ∃ s t, parse_tm tm = Exit (UndefinedStateReference s t)).
Proof.
  split_and!.
  - intros sts H. split.
    + intros st Hin.
      pose proof (parse_tm_table_ok _ _ H) as Hok.
      unfold table_ok in Hok. rewrite forallb_forall in Hok.
      apply list_elem_of_In in Hin. specialize (Hok st Hin).
      apply andb_prop in Hok as [H0 H1].
      unfold action_ok in H0, H1.
      apply andb_prop in H0 as [_ H0]. apply andb_prop in H1 as [_ H1].
      destruct (next_state (action0 st)) as [k0|]; [| discriminate].
      destruct (next_state (action1 st)) as [k1|]; [| discriminate].
      apply Nat.ltb_lt in H0, H1. exists k0, k1. done.
    + intros tokens k addr bit term Htok Hk Hne.
      destruct (parse_tm_Done _ _ H) as (tokens' & Htok' & Hc & Hlen & Hacts).
      assert (tokens' = tokens) as -> by congruence.
      destruct (Hacts _ _ _ Hk) as (st & _ & _ & Hout).
      apply body_outcome_Done in Hout as (_ & _ & _ & H2).
      destruct (H2 addr bit Hne eq_refl) as (_ & _ & _ & Hle).
      destruct (tm_tokens_two_actions _ _ Htok) as (_ & _ & _ & _ & Htwo).
      unfold size_pred in Hle.
      destruct (Nat.eqb_spec (length sts) 0); lia.
  - intros s t H.
    destruct (tm_tokens_cases tm) as [[tokens Htok] | [[i Hi] | [i Hi]]].
    + destruct (parse_tm_tokens tm tokens Htok) as [Hodd Heven].
      destruct (decide ((count_actions tokens 0 mod 2)%nat = 0%nat)) as [He | Ho].
      * specialize (Heven He). rewrite H in Heven.
        destruct Heven as (k & body & term & r' & Hk & Hr & Hout).
        destruct r' as [| e | |]; try discriminate. injection Hr as <-.
        apply body_outcome_Exit in Hout as (addr & bit & -> & Hne & [= -> ->] & Hlt).
        exists tokens, k, addr, bit, term. split_and!; try done.
        destruct (tm_tokens_two_actions _ _ Htok) as (_ & _ & _ & _ & H2).
        unfold size_pred in Hlt.
        div2 (count_actions tokens 0).
        destruct (Nat.eqb_spec (count_actions tokens 0 / 2) 0); lia.
      * rewrite (Hodd Ho) in H. discriminate.
    + unfold parse_tm in H. rewrite Hi in H. discriminate.
    + unfold parse_tm in H. rewrite Hi in H. discriminate.
  - intros tokens k addr bit term Htok He Hshort Hk Hne Hrange.
    destruct (parse_tm_tokens tm tokens Htok) as [_ Heven].
    specialize (Heven He).
    destruct (parse_tm tm) as [sts | e | |] eqn:E.
    + destruct Heven as [Hlen Hacts].
      destruct (Hacts _ _ _ Hk) as (st & _ & _ & Hout).
      apply body_outcome_Done in Hout as (_ & _ & _ & H2).
      destruct (H2 addr bit Hne eq_refl) as (_ & _ & _ & Hle).
      destruct (tm_tokens_two_actions _ _ Htok) as (_ & _ & _ & _ & Htwo).
      unfold size_pred in Hle. div2 (count_actions tokens 0).
      destruct (Nat.eqb_spec (count_actions tokens 0 / 2) 0); lia.
    + destruct Heven as (k' & body & term' & r' & Hk' & Hr & Hout).
      destruct r' as [| e' | |]; try discriminate. injection Hr as <-.
      apply body_outcome_Exit in Hout as (addr' & bit' & _ & _ & -> & _).
      eauto.
    + destruct Heven as (k' & body & term' & r' & Hk' & Hr & Hout).
      destruct r'; try discriminate.
      apply body_outcome_Undefined in Hout.
      specialize (Hshort _ _ _ Hk'). lia.
    + destruct Heven as (k' & body & term' & r' & Hk' & Hr & Hout).
      destruct r'; try discriminate.
      by apply body_outcome_not_OutOfFuel in Hout.
Qed.

Lemma parse_tm_next_state_valid_witness :
  (∀ st, st ∈ [State 0 (Action 0 1 (Some 0%nat)) (Action 0 1 (Some 1%nat));
               State 1 (Action 0 1 (Some 0%nat)) (Action 0 1 (Some 0%nat))] →
     ∃ k0 k1, next_state (action0 st) = Some k0
              ∧ next_state (action1 st) = Some k1
              ∧ (k0 < 2)%nat ∧ (k1 < 2)%nat)
  ∧ binary_msb [ONE] < 2
  ∧ (∃ tokens k addr bit term,
       tm_tokens "1000110110" = Done tokens
       ∧ split_actions [] tokens !! k = Some (addr ++ [bit], term)
       ∧ addr ≠ []
       ∧ 0%nat = (k / 2)%nat
       ∧ 2 = binary_msb addr
       ∧ Z.of_nat (count_actions tokens 0 / 2) ≤ 2)
  ∧ (∃ s t, parse_tm "1000110110" = Exit (UndefinedStateReference s t)).
Proof.
  split_and!.
  - apply (proj1 (proj1 (parse_tm_next_state_valid "100110110")
                      [State 0 (Action 0 1 (Some 0%nat)) (Action 0 1 (Some 1%nat));
                       State 1 (Action 0 1 (Some 0%nat)) (Action 0 1 (Some 0%nat))]
                      eq_refl)).
  - apply (proj2 (proj1 (parse_tm_next_state_valid "100110110")
                      [State 0 (Action 0 1 (Some 0%nat)) (Action 0 1 (Some 1%nat));
                       State 1 (Action 0 1 (Some 0%nat)) (Action 0 1 (Some 0%nat))]
                      eq_refl)
             [RIGHT; ONE; ZERO; RIGHT; RIGHT; RIGHT] 1%nat [ONE] ZERO RIGHT
             eq_refl eq_refl).
    discriminate.
  - apply (proj1 (proj2 (parse_tm_next_state_valid "1000110110")) 0%nat 2 eq_refl).
  - apply (proj2 (proj2 (parse_tm_next_state_valid "1000110110"))
             [RIGHT; ONE; ZERO; ZERO; RIGHT; RIGHT; RIGHT] 1%nat
             [ONE; ZERO] ZERO RIGHT eq_refl eq_refl).
    + intros k' body term' Hk'.
      destruct k' as [|[|[|[|k']]]]; simpl in Hk'; try discriminate;
        injection Hk' as <- <-; simpl; lia.
    + reflexivity.
    + discriminate.
    + vm_compute. discriminate.
Defined.

Lemma split_actions_body (b : list token) :
  Forall nonterm b →
  ∀ p rest, split_actions p (b ++ rest) = split_actions (p ++ b) rest.
Proof.
  induction 1 as [|t b Ht _ IH]; intros p rest; simpl.
  - by rewrite app_nil_r.
  - unfold nonterm in Ht. rewrite Ht, IH, <- app_assoc. done.
Qed.

Lemma body_outcome_wide (states_len state_number : nat) (addr : list token)
    (bit term : token) :
  (32 < length addr)%nat →
  body_outcome states_len state_number (addr ++ [bit]) term = Undefined.
Proof.
  intros Hlen. unfold body_outcome. rewrite reverse_snoc.
  destruct (reverse addr) as [|t rest] eqn:E.
  - apply (f_equal length) in E. rewrite length_reverse in E. simpl in E. lia.
  - replace (length (t :: rest)) with (length addr)
      by (by rewrite <- E, length_reverse).
    by destruct (Nat.ltb_spec 32 (length addr)); [| lia].
Qed.

(** C4 fails for a target that is out of range when its address has more
    than 32 tokens: the specification of a first action and a second action
    with such an address has one state, so that every target but 0 is out
    of range, and [parse_tm] does not reject it with
    [UndefinedStateReference]: the address is read with shifts of an
    [unsigned int] by up to the length of the address less one, and a
    shift by 32 or more is undefined in C. *)
Theorem parse_tm_wide_address_not_rejected (addr : list token) (bit : token) :
  Forall nonterm addr → nonterm bit →
  (32 < length addr)%nat → 0 < binary_msb addr →
  tm_tokens (string_of_list_ascii (encode_tokens (addr ++ [bit])))
  = Done (RIGHT :: (addr ++ [bit]) ++ [RIGHT])
  ∧ split_actions [] (RIGHT :: (addr ++ [bit]) ++ [RIGHT])
    = [([], RIGHT); (addr ++ [bit], RIGHT)]
  ∧ Z.of_nat (count_actions (RIGHT :: (addr ++ [bit]) ++ [RIGHT]) 0 / 2)
    ≤ binary_msb addr
  ∧ parse_tm (string_of_list_ascii (encode_tokens (addr ++ [bit])))
    = Undefined.
Proof.
  intros Haddr Hbit Hlen Hpos.
  set (tm := string_of_list_ascii (encode_tokens (addr ++ [bit]))).
  set (tokens := RIGHT :: (addr ++ [bit]) ++ [RIGHT]).
  assert (Htok : tm_tokens tm = Done tokens) by apply tm_tokens_encode.
  assert (Hsplit : split_actions [] tokens
                   = [([], RIGHT); (addr ++ [bit], RIGHT)]).
  { unfold tokens. simpl. f_equal.
    rewrite split_actions_body.
    - done.
    - apply Forall_app. split; [done | by constructor]. }
  assert (Hcount : count_actions tokens 0 = 2%nat).
  { rewrite (count_actions_split [] tokens 0), Hsplit. done. }
  split_and!; try done.
  - rewrite Hcount. change (2 / 2)%nat with 1%nat. lia.
  - destruct (parse_tm_tokens tm tokens Htok) as [_ Heven].
    cbv zeta in Heven. rewrite Hcount in Heven.
    specialize (Heven eq_refl).
    assert (Hbad : ∀ r : outcome (list state),
              (∃ k body term r',
                 split_actions [] tokens !! k = Some (body, term)
                 ∧ r = (fun _ : action => []) <$> r'
                 ∧ body_outcome (2 / 2) (k / 2) body term = r') →
              (∃ sts, r = Done sts) ∨ r = Undefined).
    { intros r (k & body & term & r' & Hk & -> & <-).
      rewrite Hsplit in Hk.
      destruct k as [|[|k]]; simpl in Hk; [| | done].
      - injection Hk as <- <-. left. by eexists.
      - injection Hk as <- <-. right.
        by rewrite body_outcome_wide. }
    destruct (parse_tm tm) as [sts | e | |]; try done.
    + destruct Heven as [_ Hact].
      destruct (Hact 1%nat (addr ++ [bit]) RIGHT) as (st & _ & _ & Hb).
      { by rewrite Hsplit. }
      rewrite body_outcome_wide in Hb by done. discriminate.
    + destruct (Hbad _ Heven) as [[sts ?] | ?]; discriminate.
    + destruct (Hbad _ Heven) as [[sts ?] | ?]; discriminate.
Qed.

Lemma parse_tm_wide_address_not_rejected_witness :
  tm_tokens (string_of_list_ascii
               (encode_tokens ((ONE :: replicate 32 ZERO) ++ [ZERO])))
  = Done (RIGHT :: ((ONE :: replicate 32 ZERO) ++ [ZERO]) ++ [RIGHT])
  ∧ split_actions [] (RIGHT :: ((ONE :: replicate 32 ZERO) ++ [ZERO]) ++ [RIGHT])
    = [([], RIGHT); ((ONE :: replicate 32 ZERO) ++ [ZERO], RIGHT)]
  ∧ Z.of_nat (count_actions
                (RIGHT :: ((ONE :: replicate 32 ZERO) ++ [ZERO]) ++ [RIGHT]) 0
              / 2)
    ≤ binary_msb (ONE :: replicate 32 ZERO)
  ∧ parse_tm (string_of_list_ascii
                (encode_tokens ((ONE :: replicate 32 ZERO) ++ [ZERO])))
    = Undefined.
Proof.
  apply (parse_tm_wide_address_not_rejected (ONE :: replicate 32 ZERO) ZERO).
  - repeat constructor.
  - reflexivity.
  - simpl. lia.
  - reflexivity.
Defined.

(** The same address with one token less is rejected, with the target
    that it spells. *)
Example parse_tm_address_of_32_tokens :
  parse_tm (string_of_list_ascii
              (encode_tokens ((ONE :: replicate 31 ZERO) ++ [ZERO])))
  = Exit (UndefinedStateReference 0 2147483648).
Proof. vm_compute. reflexivity. Qed.

(** C7: a specification of zeros and ones with a run of five ones is a
    sequence [ts] of tokens, the first run of five ones and a rest, and is
    rejected with [InvalidRunLength]; the index that is reported is the one
    of the sixth character of that run in the specification between the
    implicit "110" and "110", which is 8 more than the index where the run
    starts in the given string.  Runs of zero to four ones that a zero ends
    are the tokens [ZERO], [ONE], [RIGHT], [LEFT] and [STOP]. *)
Theorem parse_tm_run_of_five (ts : list token) (pre post : list bool) :
  tm_tokens (string_of_list_ascii (encode_tokens ts)) = Done (RIGHT :: ts ++ [RIGHT])
  ∧ encode_tokens [ZERO; ONE; RIGHT; LEFT; STOP]
    = list_ascii_of_string "010110111011110"
  ∧ ∃ ts' rest,
      bits (pre ++ replicate 5 true ++ post)
      = encode_tokens ts' ++ replicate 5 chr1 ++ bits rest
      ∧ parse_tm (string_of_list_ascii (bits (pre ++ replicate 5 true ++ post)))
        = Exit (InvalidRunLength (length (encode_tokens ts') + 8)).
Proof.
  split; [apply tm_tokens_encode |]. split; [done |].
  destruct (run_of_five_decompose (pre ++ replicate 5 true ++ post) 0
              ltac:(lia) (run_of_five_from_app pre post 0))
    as (ts' & rest & E).
  change (bits (pre ++ replicate 5 true ++ post)
          = encode_tokens ts' ++ replicate 5 chr1 ++ bits rest) in E.
  exists ts', rest. split; [done |]. rewrite E.
  unfold parse_tm. rewrite tm_tokens_bits.
  - rewrite tokenize_wrap_prefix, <- !app_assoc.
    rewrite (tokenize_encode_tokens ts' _ 3 [RIGHT]).
    destruct rest as [|b rest]; simpl; repeat f_equal; lia.
  - apply Forall_app. split; [apply encode_tokens_bits |].
    apply Forall_app. split; [| apply bits_are_bits].
    repeat constructor; by right.
Qed.

(** C7 at the specification "11111": the run starts at index 0 of a string
    of 5 characters and the index reported is 8. *)
Example parse_tm_five_ones : parse_tm "11111" = Exit (InvalidRunLength 8).
Proof. reflexivity. Qed.

(** Three ones are enough: they meet the two ones of the implicit suffix. *)
Example parse_tm_three_ones : parse_tm "111" = Exit (InvalidRunLength 8).
Proof. reflexivity. Qed.

(** C9: a specification with an odd number of actions is rejected with
    [IncompleteStateDefinition]; a table that [parse_tm] returns for [2n]
    actions has [n] states, and state [i] has number [i], the action of the
    body [2i] of the token stream as [action0] and the action of the body
    [2i + 1] as [action1]. *)
Theorem parse_tm_pairs_actions (tm : string) (tokens : list token) :
  tm_tokens tm = Done tokens →
  ((count_actions tokens 0 mod 2)%nat ≠ 0%nat →
     parse_tm tm = Exit IncompleteStateDefinition)
  ∧ (∀ sts, parse_tm tm = Done sts →
       count_actions tokens 0 = (2 * length sts)%nat
       ∧ ∀ i, (i < length sts)%nat →
           ∃ st body0 term0 body1 term1,
             sts !! i = Some st
             ∧ number st = i
             ∧ split_actions [] tokens !! (2 * i)%nat = Some (body0, term0)
             ∧ split_actions [] tokens !! (2 * i + 1)%nat = Some (body1, term1)
             ∧ body_outcome (length sts) i body0 term0 = Done (action0 st)
             ∧ body_outcome (length sts) i body1 term1 = Done (action1 st)).
Proof.
  intros Htok. split.
  - apply (parse_tm_tokens tm tokens Htok).
  - intros sts H.
    destruct (parse_tm_Done _ _ H) as (tokens' & Htok' & Hc & Hlen & Hacts).
    assert (tokens' = tokens) as -> by congruence.
    split; [done |]. intros i Hi.
    destruct (lookup_lt_is_Some_2 (split_actions [] tokens) (2 * i)%nat)
      as [[body0 term0] H0]; [lia |].
    destruct (lookup_lt_is_Some_2 (split_actions [] tokens) (2 * i + 1)%nat)
      as [[body1 term1] H1]; [lia |].
    destruct (Hacts _ _ _ H0) as (st & Hst & Hnum & Hout0).
    destruct (Hacts _ _ _ H1) as (st' & Hst' & _ & Hout1).
    div2 (2 * i)%nat. div2 (2 * i + 1)%nat.
    replace ((2 * i) / 2)%nat with i in * by lia.
    replace ((2 * i + 1) / 2)%nat with i in * by lia.
    replace ((2 * i) mod 2)%nat with 0%nat in * by lia.
    replace ((2 * i + 1) mod 2)%nat with 1%nat in * by lia.
    assert (st' = st) as -> by congruence.
    exists st, body0, term0, body1, term1. done.
Qed.

Lemma parse_tm_pairs_actions_witness :
  ((count_actions [RIGHT; RIGHT; RIGHT] 0 mod 2)%nat ≠ 0%nat →
     parse_tm "110" = Exit IncompleteStateDefinition)
  ∧ (count_actions [RIGHT; ONE; ZERO; RIGHT; RIGHT; RIGHT] 0 = 4%nat).
Proof.
  split.
  - apply (proj1 (parse_tm_pairs_actions "110" [RIGHT; RIGHT; RIGHT] eq_refl)).
  - apply (proj2 (parse_tm_pairs_actions "100110110"
                    [RIGHT; ONE; ZERO; RIGHT; RIGHT; RIGHT] eq_refl)
             [State 0 (Action 0 1 (Some 0%nat)) (Action 0 1 (Some 1%nat));
              State 1 (Action 0 1 (Some 0%nat)) (Action 0 1 (Some 0%nat))]
             eq_refl).
Defined.

(** C10, as the code has it: a table that [parse_tm] returns has at least
    one state.  The token stream starts with the [RIGHT] of the implicit
    prefix and ends with the token that the zero of the implicit suffix
    ends, which is [RIGHT], [LEFT] or [STOP]; these are two actions, and
    state 0, the target of every body of at most one token, exists with
    the first of them, a move to the right, as its [action0]. *)
Theorem parse_tm_has_state_0 (tm : string) (sts : list state) :
  parse_tm tm = Done sts →
  (1 ≤ length sts)%nat
  ∧ (∃ tokens mid last,
       tm_tokens tm = Done tokens
       ∧ tokens = RIGHT :: mid ++ [last]
       ∧ is_terminator last = true
       ∧ (2 ≤ count_actions tokens 0)%nat)
  ∧ (∃ st, sts !! 0%nat = Some st ∧ direction_to_move (action0 st) = 1).
Proof.
  intros H. destruct (parse_tm_Done _ _ H) as (tokens & Htok & Hc & Hlen & Hacts).
  destruct (tm_tokens_two_actions _ _ Htok) as (mid & last & -> & Hlast & H2).
  split; [lia |]. split; [by exists (RIGHT :: mid ++ [last]), mid, last |].
  destruct (Hacts 0%nat [] RIGHT eq_refl) as (st & Hst & _ & Hout).
  exists st. split; [done |].
  apply body_outcome_Done in Hout as [Hdir _]. done.
Qed.

Lemma parse_tm_has_state_0_witness :
  (1 ≤ length [State 0 (Action 0 1 (Some 0%nat)) (Action 0 (-1) (Some 0%nat))])%nat
  ∧ (∃ tokens mid last,
       tm_tokens "1" = Done tokens
       ∧ tokens = RIGHT :: mid ++ [last]
       ∧ is_terminator last = true
       ∧ (2 ≤ count_actions tokens 0)%nat)
  ∧ (∃ st, [State 0 (Action 0 1 (Some 0%nat)) (Action 0 (-1) (Some 0%nat))]
             !! 0%nat = Some st
           ∧ direction_to_move (action0 st) = 1).
Proof. apply (parse_tm_has_state_0 "1"). reflexivity. Defined.

(** C10 as it is worded fails: the action that the implicit suffix ends is
    not always a move to the right.  The specification "1" is accepted and
    its second action, which the zero of the suffix ends, is a move to the
    left. *)
Lemma suffix_action_not_right :
  ¬ (∀ tm sts tokens,
       parse_tm tm = Done sts → tm_tokens tm = Done tokens →
       (1 ≤ length sts)%nat
       ∧ head tokens = Some RIGHT ∧ last tokens = Some RIGHT).
Proof.
  intros H.
  destruct (H "1"%string _ [RIGHT; LEFT] eq_refl eq_refl) as (_ & _ & Hlast).
  discriminate Hlast.
Qed.

(** * Properties of the execution engine *)

(** ** Buffers *)

Lemma is_cell_not_NUL (c : ascii) : is_cell c → Ascii.eqb c NUL = false.
Proof. by intros [-> | [-> | ->]]. Qed.

Lemma c_str_cells (cells rest : list ascii) :
  Forall is_cell cells → c_str (cells ++ NUL :: rest) = Some cells.
Proof.
  induction 1 as [|c cells Hc _ IH]; simpl; [done |].
  by rewrite (is_cell_not_NUL c Hc), IH.
Qed.

Lemma blit_middle (a b c src : list ascii) :
  length b = length src →
  blit (a ++ b ++ c) (Z.of_nat (length a)) src = Done (a ++ src ++ c).
Proof.
  intros Hlen. unfold blit.
  destruct (Z.ltb_spec (Z.of_nat (length a)) 0); [lia |].
  destruct (Z.ltb_spec (Z.of_nat (length (a ++ b ++ c)))
              (Z.of_nat (length a) + Z.of_nat (length src))) as [Hlt | _].
  { rewrite !length_app in Hlt. lia. }
  simpl. rewrite Nat2Z.id. f_equal.
  rewrite take_app_length. f_equal. f_equal.
  rewrite drop_app_add'; [| done]. rewrite <- Hlen. by rewrite drop_app_length.
Qed.

Lemma tape_wf_length (tp : list ascii) (len : nat) :
  tape_wf tp len → length tp = S len.
Proof. intros (cells & -> & <- & _). rewrite length_app. simpl. lia. Qed.

(** The expansion to the left: [tape_expansion_amt] blanks before the cells. *)
Lemma expand_left (cells : list ascii) (amt : nat) (cs : option nat)
    (ix rel mn mx : Z) (stp : nat) :
  Forall is_cell cells → ix < 0 →
  expand (Locals (cells ++ [NUL]) (length cells) amt cs ix rel mn mx stp)
  = Done (Locals (replicate amt blank ++ cells ++ [NUL])
            (length cells + amt) (amt * 2) cs (ix + Z.of_nat amt) rel mn mx stp).
Proof.
  intros Hcells Hix. unfold expand. simpl.
  destruct (Z.ltb_spec ix 0); [| lia].
  unfold fill, strcpy. rewrite c_str_cells by done.
  replace (replicate (length cells + amt + 1) NUL)
    with ([] ++ replicate amt NUL ++ replicate (length cells + 1) NUL).
  2:{ simpl. rewrite <- replicate_add. f_equal. lia. }
  rewrite (blit_middle [] _ _ (replicate amt blank))
    by (by rewrite !length_replicate).
  simpl.
  replace (replicate amt blank ++ replicate (length cells + 1) NUL)
    with (replicate amt blank ++ replicate (length cells + 1) NUL ++ [])
    by (by rewrite app_nil_r).
  replace (Z.of_nat amt) with (Z.of_nat (length (replicate amt blank))) at 1
    by (by rewrite length_replicate).
  rewrite blit_middle.
  2:{ rewrite length_replicate, length_app. simpl. lia. }
  simpl. rewrite app_nil_r. done.
Qed.

(** The expansion to the right: [tape_expansion_amt] blanks after the cells. *)
Lemma expand_right (cells : list ascii) (amt : nat) (cs : option nat)
    (ix rel mn mx : Z) (stp : nat) :
  Forall is_cell cells → 0 ≤ ix →
  expand (Locals (cells ++ [NUL]) (length cells) amt cs ix rel mn mx stp)
  = Done (Locals (cells ++ replicate amt blank ++ [NUL])
            (length cells + amt) (amt * 2) cs ix rel mn mx stp).
Proof.
  intros Hcells Hix. unfold expand. simpl.
  destruct (Z.ltb_spec ix 0); [lia |].
  unfold fill, strcpy. rewrite c_str_cells by done.
  replace (replicate (length cells + amt + 1) NUL)
    with ([] ++ replicate (length cells + 1) NUL ++ replicate amt NUL).
  2:{ simpl. rewrite <- replicate_add. f_equal. lia. }
  rewrite (blit_middle [] _ _ (cells ++ [NUL])).
  2:{ rewrite length_replicate, length_app. simpl. lia. }
  simpl.
  replace ((cells ++ [NUL]) ++ replicate amt NUL)
    with (cells ++ replicate amt NUL ++ [NUL]).
  2:{ rewrite <- app_assoc. f_equal.
      change [NUL] with (replicate 1 NUL). rewrite <- !replicate_add.
      f_equal. lia. }
  rewrite (blit_middle cells _ _ (replicate amt blank))
    by (by rewrite !length_replicate).
  simpl.
  rewrite store_Done.
  2:{ rewrite !length_app, length_replicate. simpl. lia. }
  simpl. do 2 f_equal.
  replace (Z.to_nat (Z.of_nat (length cells) + Z.of_nat amt))
    with (length cells + (length (replicate amt blank) + 0))%nat
    by (rewrite length_replicate; lia).
  rewrite insert_app_r, insert_app_r. done.
Qed.

#[local] Arguments expand : simpl never.

(** ** The tape in a buffer *)

Lemma window_app (cells rest : list ascii) (o r : Z) :
  window (cells ++ rest) (length cells) o r = window cells (length cells) o r.
Proof.
  unfold window.
  destruct (Z.leb_spec 0 (o + r)); simpl; [| done].
  destruct (Z.ltb_spec (o + r) (Z.of_nat (length cells))); [| done].
  rewrite lookup_app_l by lia. done.
Qed.

Lemma window_inside (cells : list ascii) (o r : Z) (c : ascii) :
  0 ≤ o + r → cells !! Z.to_nat (o + r) = Some c →
  window cells (length cells) o r = symbol_of_char c.
Proof.
  intros H0 Hc. unfold window.
  pose proof (lookup_lt_Some _ _ _ Hc).
  destruct (Z.leb_spec 0 (o + r)); [| lia].
  destruct (Z.ltb_spec (o + r) (Z.of_nat (length cells))); [| lia].
  simpl. by rewrite Hc.
Qed.

(** A write to the cell under the head is a write to the tape. *)
Lemma window_insert (cells : list ascii) (o h r : Z) (w : ascii) :
  0 ≤ o + h < Z.of_nat (length cells) →
  window (<[Z.to_nat (o + h) := w]> cells) (length cells) o r
  = Spec.write (window cells (length cells) o) h (symbol_of_char w) r.
Proof.
  intros Hh. unfold window, Spec.write.
  destruct (Z.eqb_spec r h) as [-> | Hne].
  - destruct (Z.leb_spec 0 (o + h)); [| lia].
    destruct (Z.ltb_spec (o + h) (Z.of_nat (length cells))); [| lia].
    simpl. rewrite list_lookup_insert_eq by lia. done.
  - destruct (Z.leb_spec 0 (o + r)); simpl; [| done].
    destruct (Z.ltb_spec (o + r) (Z.of_nat (length cells))); [| done].
    rewrite list_lookup_insert_ne by lia. done.
Qed.

(** Blanks before the cells do not change the tape. *)
Lemma window_grow_left (cells : list ascii) (amt : nat) (o r : Z) :
  window (replicate amt blank ++ cells) (length cells + amt) (o + Z.of_nat amt) r
  = window cells (length cells) o r.
Proof.
  unfold window.
  destruct (Z.leb_spec 0 (o + Z.of_nat amt + r)) as [H1 | H1];
    destruct (Z.leb_spec 0 (o + r)) as [H2 | H2]; simpl; try lia.
  - destruct (Z.ltb_spec (o + Z.of_nat amt + r) (Z.of_nat (length cells + amt)));
      destruct (Z.ltb_spec (o + r) (Z.of_nat (length cells))); try lia; [| done].
    rewrite lookup_app_r by (rewrite length_replicate; lia).
    rewrite length_replicate.
    replace (Z.to_nat (o + Z.of_nat amt + r) - amt)%nat
      with (Z.to_nat (o + r)) by lia.
    done.
  - destruct (Z.ltb_spec (o + Z.of_nat amt + r) (Z.of_nat (length cells + amt)));
      [| done].
    rewrite lookup_app_l by (rewrite length_replicate; lia).
    rewrite lookup_replicate_2 by lia. done.
  - done.
Qed.

(** Blanks after the cells do not change the tape. *)
Lemma window_grow_right (cells : list ascii) (amt : nat) (o r : Z) :
  window (cells ++ replicate amt blank) (length cells + amt) o r
  = window cells (length cells) o r.
Proof.
  unfold window.
  destruct (Z.leb_spec 0 (o + r)); simpl; [| done].
  destruct (Z.ltb_spec (o + r) (Z.of_nat (length cells + amt)));
    destruct (Z.ltb_spec (o + r) (Z.of_nat (length cells))); try lia; try done.
  - rewrite lookup_app_l by lia. done.
  - rewrite lookup_app_r by lia.
    rewrite lookup_replicate_2 by lia. done.
Qed.

Lemma select_action_spec (c : ascii) (st : state) :
  is_cell c → select_action c st = Spec.action_for st (symbol_of_char c).
Proof. by intros [-> | [-> | ->]]. Qed.

Lemma symbol_of_write_char (a : action) :
  symbol_of_char (write_char a) = Spec.symbol_of_bit (value_to_write a).
Proof.
  unfold write_char, Spec.symbol_of_bit. by destruct (value_to_write a =? 0).
Qed.

Lemma write_char_cell (a : action) : is_cell (write_char a).
Proof.
  unfold write_char. destruct (value_to_write a =? 0); [by left | by right; left].
Qed.

Lemma symbol_of_char_inj (c c' : ascii) :
  is_cell c → is_cell c' → symbol_of_char c = symbol_of_char c' → c = c'.
Proof. intros [-> | [-> | ->]] [-> | [-> | ->]]; done. Qed.

#[local] Arguments pass1_loop : simpl never.
#[local] Arguments pass2_loop : simpl never.

Section Simulation.

Variable sts : list state.
Hypothesis Hok : table_ok sts = true.

#[local] Set Default Proof Using "Type".

(** The actions of a table that is [table_ok]. *)
Lemma table_ok_action (q : nat) (st : state) (c : ascii) :
  sts !! q = Some st →
  let a := select_action c st in
  (direction_to_move a = -1 ∨ direction_to_move a = 0 ∨ direction_to_move a = 1)
  ∧ ∃ q', next_state a = Some q' ∧ (q' < length sts)%nat.
Proof using Hok.
  intros Hst. pose proof Hok as Hok'. unfold table_ok in Hok'. rewrite forallb_forall in Hok'.
  assert (Hin : In st sts).
  { apply list_elem_of_In, list_elem_of_lookup. eauto. }
  specialize (Hok' st Hin). apply andb_prop in Hok' as [H0 H1].
  assert (Ha : action_ok (length sts) (select_action c st) = true).
  { unfold select_action. by destruct (Ascii.eqb c chr0 || Ascii.eqb c blank). }
  simpl. unfold action_ok in Ha. apply andb_prop in Ha as [Hd Hn].
  split.
  - destruct (Z.eqb_spec (direction_to_move (select_action c st)) (-1)); [auto |].
    destruct (Z.eqb_spec (direction_to_move (select_action c st)) 0); [auto |].
    destruct (Z.eqb_spec (direction_to_move (select_action c st)) 1); [auto |].
    discriminate.
  - destruct (next_state (select_action c st)) as [q'|]; [| discriminate].
    exists q'. split; [done |]. by apply Nat.ltb_lt.
Qed.

Lemma expand_left_len (cells : list ascii) (len amt : nat) (cs : option nat)
    (ix rel mn mx : Z) (stp : nat) :
  Forall is_cell cells → length cells = len → ix < 0 →
  expand (Locals (cells ++ [NUL]) len amt cs ix rel mn mx stp)
  = Done (Locals (replicate amt blank ++ cells ++ [NUL])
            (len + amt) (amt * 2) cs (ix + Z.of_nat amt) rel mn mx stp).
Proof. intros H <- Hix. by apply expand_left. Qed.

Lemma expand_right_len (cells : list ascii) (len amt : nat) (cs : option nat)
    (ix rel mn mx : Z) (stp : nat) :
  Forall is_cell cells → length cells = len → 0 ≤ ix →
  expand (Locals (cells ++ [NUL]) len amt cs ix rel mn mx stp)
  = Done (Locals (cells ++ replicate amt blank ++ [NUL])
            (len + amt) (amt * 2) cs ix rel mn mx stp).
Proof. intros H <- Hix. by apply expand_right. Qed.

Lemma window_cells (cells rest : list ascii) (len : nat) (o r : Z) :
  length cells = len →
  window (cells ++ rest) len o r = window cells (length cells) o r.
Proof. intros <-. apply window_app. Qed.

(** The cell under the head written: the tape of the design document
    written at the head. *)
Lemma window_write (cells rest rest' : list ascii) (len : nat) (o o' h i r : Z)
    (a : action) :
  length cells = len → i = o + h → o' = o → 0 ≤ i < Z.of_nat len →
  window (<[Z.to_nat i := write_char a]> cells ++ rest') len o' r
  = Spec.write (window (cells ++ rest) len o) h
      (Spec.symbol_of_bit (value_to_write a)) r.
Proof.
  intros <- -> -> Hi. rewrite <- symbol_of_write_char.
  rewrite window_cells by apply length_insert.
  rewrite length_insert, window_insert by done.
  unfold Spec.write. destruct (r =? h); [done |]. by rewrite window_app.
Qed.

Lemma window_write_left (cells rest rest' : list ascii) (len len' amt : nat)
    (o o' h i r : Z) (a : action) :
  length cells = len → i = o + h → o' = o + Z.of_nat amt →
  len' = (len + amt)%nat → 0 ≤ i < Z.of_nat len →
  window (replicate amt blank ++ <[Z.to_nat i := write_char a]> cells ++ rest')
    len' o' r
  = Spec.write (window (cells ++ rest) len o) h
      (Spec.symbol_of_bit (value_to_write a)) r.
Proof.
  intros Hlen Hi -> -> Hr. rewrite app_assoc.
  rewrite window_cells by (rewrite length_app, length_replicate, length_insert; lia).
  rewrite length_app, length_replicate, Nat.add_comm.
  rewrite window_grow_left.
  rewrite <- (app_nil_r (<[_ := _]> cells)), length_app. simpl length.
  rewrite Nat.add_0_r, length_insert, Hlen.
  by apply window_write.
Qed.

Lemma window_write_right (cells rest rest' : list ascii) (len len' amt : nat)
    (o o' h i r : Z) (a : action) :
  length cells = len → i = o + h → o' = o →
  len' = (len + amt)%nat → 0 ≤ i < Z.of_nat len →
  window (<[Z.to_nat i := write_char a]> cells ++ replicate amt blank ++ rest')
    len' o' r
  = Spec.write (window (cells ++ rest) len o) h
      (Spec.symbol_of_bit (value_to_write a)) r.
Proof.
  intros Hlen Hi -> -> Hr. rewrite app_assoc.
  rewrite window_cells by (rewrite length_app, length_replicate, length_insert; lia).
  rewrite length_app, length_replicate.
  rewrite window_grow_right.
  rewrite <- (app_nil_r (<[_ := _]> cells)), length_app. simpl length.
  rewrite Nat.add_0_r, length_insert, Hlen.
  by apply window_write.
Qed.

(** ** One step of the first execution *)

Ltac wf1_tac cells :=
  unfold wf1, tape_wf, state_wf; simpl;
  repeat match goal with |- _ ∧ _ => split end;
  try lia;
  try (eexists; split; [reflexivity | lia]).

Lemma pass1_body_sim (l : locals) :
  wf1 sts l →
  ∃ r, pass1_body sts l = Done r
    ∧ match r with
      | Break l' =>
          ∃ c, Spec.step sts (abs1 l) = Spec.Halted c
               ∧ Spec.config_eq c (abs1 l')
               ∧ wf1 sts l'
               ∧ min_rel_tape_ix l' = min_rel_tape_ix l
               ∧ max_rel_tape_ix l' = max_rel_tape_ix l
               ∧ step l' = step l
               ∧ ∃ w, tape l' !! Z.to_nat (tape_ix l') = Some w ∧ w ≠ blank
      | Continue l' =>
          ∃ c, Spec.step sts (abs1 l) = Spec.Running c
               ∧ Spec.config_eq c (abs1 l')
               ∧ wf1 sts l'
               ∧ min_rel_tape_ix l' ≤ min_rel_tape_ix l
               ∧ max_rel_tape_ix l ≤ max_rel_tape_ix l'
               ∧ step l' = step l
      end.
Proof using Hok.
  intros Hwf. destruct l as [tp len amt cs ix rel mn mx stp].
  destruct Hwf as ((cells & Htp & Hlen & Hcells) & Hix & Hamt & (q & Hcs & Hq)
                   & Hrel & Hlo & Hhi).
  simpl in *. subst tp cs.
  destruct (lookup_lt_is_Some_2 cells (Z.to_nat ix)) as [c Hc]; [lia |].
  destruct (lookup_lt_is_Some_2 sts q Hq) as [st Hst].
  assert (Hcell : is_cell c) by (by eapply Forall_lookup_1).
  pose proof (table_ok_action q st c Hst) as [Hdir (q' & Hnext & Hq')].
  unfold pass1_body, set_tape, set_tape_ix, set_rel_tape_ix,
    set_min_rel_tape_ix, set_max_rel_tape_ix, set_curr_state. simpl.
  assert (Hload : load (cells ++ [NUL]) ix = Done c).
  { apply load_Done. split; [lia |]. by apply lookup_app_l_Some. }
  rewrite Hload. simpl. rewrite Hst. simpl.
  rewrite store_Done by (rewrite length_app; simpl; lia). simpl.
  rewrite insert_app_l by lia.
  assert (Hcells' : Forall is_cell (<[Z.to_nat ix := write_char (select_action c st)]> cells)).
  { apply Forall_insert; [done | apply write_char_cell]. }
  assert (Hlen' : length (<[Z.to_nat ix := write_char (select_action c st)]> cells) = len).
  { by rewrite length_insert. }
  assert (Hread : window (cells ++ [NUL]) len (ix - rel) rel = symbol_of_char c).
  { rewrite window_cells by done. apply window_inside.
    - lia.
    - by replace (ix - rel + rel) with ix by lia. }
  unfold Spec.step, abs1. simpl. rewrite Hst, Hread, <- select_action_spec by done.
  set (a := select_action c st) in *.
  set (cells' := <[Z.to_nat ix := write_char a]> cells) in *.
  destruct (Z.eqb_spec (direction_to_move a) 0) as [Hd0 | Hd0].
  - eexists. split; [reflexivity |]. eexists. split; [reflexivity |].
    split.
    { unfold Spec.config_eq. simpl. split; [done |]. split; [done |].
      intros r. symmetry. apply window_write; (done || lia). }
    split; [wf1_tac cells'; by exists cells' |].
    split; [done |]. split; [done |]. split; [done |].
    exists (write_char a). simpl. split.
    + apply lookup_app_l_Some. unfold cells'.
      apply list_lookup_insert_eq. lia.
    + unfold write_char. by destruct (value_to_write a =? 0).
  - rewrite Hnext.
    assert (Hd : direction_to_move a = -1 ∨ direction_to_move a = 1) by lia.
    clear Hdir Hd0.
    destruct (Z.ltb_spec (rel + direction_to_move a) mn) as [Hmn | Hmn];
      simpl;
      destruct (Z.ltb_spec mx (rel + direction_to_move a)) as [Hmx | Hmx];
      simpl; try (exfalso; lia).
    all: destruct (Z.ltb_spec (ix + direction_to_move a) 0) as [Hneg | Hneg];
      [| destruct (Z.eqb_spec (ix + direction_to_move a) (Z.of_nat len))
           as [Hend | Hend]];
      simpl; try (exfalso; lia).
    all: try rewrite (expand_left_len cells') by (done || lia).
    all: try rewrite (expand_right_len cells') by (done || lia).
    all: simpl; eexists; (split; [reflexivity |]); eexists;
      (split; [reflexivity |]); split.
    all: try (unfold Spec.config_eq; simpl; (split; [done |]); (split; [done |]);
              intros r; symmetry;
              first [ apply window_write; (done || lia)
                    | apply window_write_left; (done || lia)
                    | apply window_write_right; (done || lia) ]).
    all: split; [| simpl; lia].
    all: wf1_tac cells'.
    all: first
      [ by exists cells'
      | exists (replicate amt blank ++ cells');
        rewrite length_app, length_replicate, <- app_assoc;
        (split; [done |]); (split; [lia |]);
        apply Forall_app; (split; [| done]);
        apply Forall_replicate; by right; right
      | exists (cells' ++ replicate amt blank);
        rewrite length_app, length_replicate, <- app_assoc;
        (split; [done |]); (split; [lia |]);
        apply Forall_app; (split; [done |]);
        apply Forall_replicate; by right; right ].
Qed.

(** ** One step of the second execution *)

Lemma pass2_body_sim (verbosity : Z) (final_tape_len : nat)
    (l : locals) (out : list output) :
  wf2 sts final_tape_len l →
  ∃ r, pass2_body sts verbosity final_tape_len l out = Done r
    ∧ match r with
      | Break (l', _) =>
          ∃ c, Spec.step sts (abs2 final_tape_len l) = Spec.Halted c
               ∧ Spec.config_eq c (abs2 final_tape_len l')
               ∧ tape_wf (tape l') final_tape_len
               ∧ state_wf sts (curr_state l')
               ∧ tape_ix l' = tape_ix l
               ∧ curr_state l' = curr_state l
               ∧ min_rel_tape_ix l' = min_rel_tape_ix l
               ∧ step l' = S (step l)
      | Continue (l', _) =>
          ∃ c, Spec.step sts (abs2 final_tape_len l) = Spec.Running c
               ∧ Spec.config_eq c (abs2 final_tape_len l')
               ∧ tape_wf (tape l') final_tape_len
               ∧ state_wf sts (curr_state l')
               ∧ min_rel_tape_ix l' = min_rel_tape_ix l
               ∧ step l' = S (step l)
      end.
Proof using Hok.
  intros Hwf. destruct l as [tp len amt cs ix rel mn mx stp].
  destruct Hwf as ((cells & Htp & Hlen & Hcells) & (q & Hcs & Hq) & Hix).
  simpl in *. subst tp cs.
  destruct (lookup_lt_is_Some_2 cells (Z.to_nat ix)) as [c Hc]; [lia |].
  destruct (lookup_lt_is_Some_2 sts q Hq) as [st Hst].
  assert (Hcell : is_cell c) by (by eapply Forall_lookup_1).
  pose proof (table_ok_action q st c Hst) as [Hdir (q' & Hnext & Hq')].
  unfold pass2_body, print_tape, set_tape, set_tape_ix, set_step,
    set_curr_state. simpl.
  assert (Hload : load (cells ++ [NUL]) ix = Done c).
  { apply load_Done. split; [lia |]. by apply lookup_app_l_Some. }
  rewrite Hload. simpl. rewrite Hst. simpl.
  rewrite store_Done by (rewrite length_app; simpl; lia). simpl.
  rewrite insert_app_l by lia.
  assert (Hread : window (cells ++ [NUL]) final_tape_len (- mn) (ix + mn)
                  = symbol_of_char c).
  { rewrite window_cells by done. apply window_inside.
    - lia.
    - by replace (- mn + (ix + mn)) with ix by lia. }
  unfold Spec.step, abs2. simpl. rewrite Hst, Hread, <- select_action_spec by done.
  set (a := select_action c st) in *.
  set (cells' := <[Z.to_nat ix := write_char a]> cells) in *.
  assert (Hcells' : Forall is_cell cells').
  { apply Forall_insert; [done | apply write_char_cell]. }
  assert (Hlen' : length cells' = final_tape_len).
  { unfold cells'. by rewrite length_insert. }
  assert (Hout : ∃ out',
            (if (verbosity =? 2) || negb (Ascii.eqb (write_char a) c)
             then Done (out ++ [Frame (S stp) (Some (number st)) (cells' ++ [NUL])
                                  final_tape_len ix])
             else Done out) = Done out').
  { destruct ((verbosity =? 2) || negb (Ascii.eqb (write_char a) c)); eauto. }
  destruct Hout as [out' Hout]. rewrite Hout. simpl.
  destruct (Z.eqb_spec (direction_to_move a) 0) as [Hd0 | Hd0].
  - eexists. split; [reflexivity |]. simpl. eexists. split; [reflexivity |].
    split.
    { unfold Spec.config_eq. simpl. split; [done |]. split; [done |].
      intros r. symmetry. apply window_write; (done || lia). }
    split; [by exists cells' |]. split; [by exists q |]. done.
  - rewrite Hnext.
    eexists. split; [reflexivity |]. simpl. eexists. split; [reflexivity |].
    split.
    { unfold Spec.config_eq. simpl. split; [done |]. split; [lia |].
      intros r. symmetry. apply window_write; (done || lia). }
    split; [by exists cells' |]. split; [by exists q' |]. done.
Qed.

(** ** Runs of the machine of the design document *)

Lemma config_eq_refl (c : Spec.config) : Spec.config_eq c c.
Proof. by repeat split. Qed.

Lemma config_eq_sym (c c' : Spec.config) :
  Spec.config_eq c c' → Spec.config_eq c' c.
Proof. intros (H1 & H2 & H3). by repeat split. Qed.

Lemma config_eq_trans (c1 c2 c3 : Spec.config) :
  Spec.config_eq c1 c2 → Spec.config_eq c2 c3 → Spec.config_eq c1 c3.
Proof.
  intros (H1 & H2 & H3) (H4 & H5 & H6).
  split; [congruence |]. split; [congruence |]. intros r. by rewrite H3.
Qed.

(** Equal configurations step to equal configurations. *)
Lemma step_config_eq (c1 c2 : Spec.config) :
  Spec.config_eq c1 c2 →
  match Spec.step sts c1, Spec.step sts c2 with
  | Spec.Halted a, Spec.Halted b => Spec.config_eq a b
  | Spec.Running a, Spec.Running b => Spec.config_eq a b
  | Spec.Stuck, Spec.Stuck => True
  | _, _ => False
  end.
Proof.
  intros (H1 & H2 & H3). unfold Spec.step. rewrite <- H1, <- H2, <- H3.
  destruct (sts !! Spec.current_state c1) as [st|]; [| done].
  destruct (direction_to_move _ =? 0).
  - split; [done |]. split; [done |]. intros r. simpl.
    unfold Spec.write. by destruct (r =? Spec.head c1).
  - destruct (next_state _); [| done].
    split; [done |]. split; [done |]. intros r. simpl.
    unfold Spec.write. by destruct (r =? Spec.head c1).
Qed.

(** ** The two loops *)

Lemma pass1_loop_S (max_tape_len max_steps fuel : nat)
    (l : locals) :
  pass1_loop sts max_tape_len max_steps (S fuel) l
  = if (step l =? max_steps)%nat then Exit (StepLimitExceeded max_steps)
    else if (max_tape_len <? tape_len (set_step l (S (step l))))%nat
         then Exit (TapeLimitExceeded max_tape_len)
         else
           r ← pass1_body sts (set_step l (S (step l)));
           match r with
           | Break l' => Done l'
           | Continue l' => pass1_loop sts max_tape_len max_steps fuel l'
           end.
Proof. reflexivity. Qed.

Lemma pass2_loop_S (verbosity : Z) (final_tape_len fuel : nat)
    (l : locals) (out : list output) :
  pass2_loop sts verbosity final_tape_len (S fuel) l out
  = r ← pass2_body sts verbosity final_tape_len l out;
    match r with
    | Break r' => Done r'
    | Continue r' =>
        pass2_loop sts verbosity final_tape_len fuel (fst r') (snd r')
    end.
Proof. reflexivity. Qed.

Lemma wf1_set_step (l : locals) (n : nat) :
  wf1 sts l → wf1 sts (set_step l n).
Proof. by destruct l. Qed.

(** The first execution that halts is a run of the machine of the design
    document that halts, between the cells [min_rel_tape_ix] and
    [max_rel_tape_ix] that the loop leaves. *)
Lemma pass1_loop_sim (max_tape_len max_steps : nat) :
  ∀ (fuel : nat) (l l' : locals),
    wf1 sts l →
    pass1_loop sts max_tape_len max_steps fuel l = Done l' →
    ∃ k c,
      Spec.halts_in sts (min_rel_tape_ix l') (max_rel_tape_ix l') k (abs1 l) c
      ∧ Spec.config_eq c (abs1 l')
      ∧ wf1 sts l'
      ∧ min_rel_tape_ix l' ≤ min_rel_tape_ix l
      ∧ max_rel_tape_ix l ≤ max_rel_tape_ix l'
      ∧ step l' = (step l + k)%nat
      ∧ ∃ w, tape l' !! Z.to_nat (tape_ix l') = Some w ∧ w ≠ blank.
Proof using Hok.
  induction fuel as [|fuel IH]; intros l l' Hwf H; [discriminate |].
  rewrite pass1_loop_S in H.
  destruct (Nat.eqb_spec (step l) max_steps); [discriminate |].
  destruct (max_tape_len <? tape_len (set_step l (S (step l))))%nat;
    [discriminate |].
  destruct (pass1_body_sim (set_step l (S (step l)))
              (wf1_set_step _ _ Hwf)) as (r & Hr & Hsim).
  rewrite Hr in H. simpl in H.
  assert (Habs : abs1 (set_step l (S (step l))) = abs1 l) by (by destruct l).
  assert (Hmin : min_rel_tape_ix (set_step l (S (step l))) = min_rel_tape_ix l)
    by (by destruct l).
  assert (Hmax : max_rel_tape_ix (set_step l (S (step l))) = max_rel_tape_ix l)
    by (by destruct l).
  assert (Hstep : step (set_step l (S (step l))) = S (step l)) by (by destruct l).
  rewrite Habs, Hmin, Hmax, Hstep in Hsim.
  destruct Hwf as (_ & _ & _ & _ & Hrel & _).
  destruct r as [l1 | l1].
  - injection H as <-.
    destruct Hsim as (c & Hc & Heq & Hwf1 & Hmn & Hmx & Hst & Hw).
    exists 1%nat, c. split_and!; try done; try lia.
    apply Spec.halts_now; [| done]. simpl. lia.
  - destruct Hsim as (c & Hc & Heq & Hwf1 & Hmn & Hmx & Hst).
    destruct (IH l1 l' Hwf1 H)
      as (k & c' & Hrun & Heq' & Hwf' & Hmn' & Hmx' & Hst' & Hw).
    exists (S k), c'. split_and!; try done; try lia.
    eapply Spec.halts_later; [| exact Hc | exact Heq | exact Hrun].
    simpl. lia.
Qed.

(** A run of the machine of the design document that halts between the
    cells of the buffer of the second execution is what the second
    execution does. *)
Lemma pass2_loop_sim (verbosity : Z) (final_tape_len : nat)
    (lo hi : Z) :
  hi - lo < Z.of_nat final_tape_len →
  ∀ (k : nat) (c c' : Spec.config),
    Spec.halts_in sts lo hi k c c' →
    ∀ (l : locals) (out : list output) (fuel : nat),
      tape_wf (tape l) final_tape_len →
      state_wf sts (curr_state l) →
      min_rel_tape_ix l = lo →
      Spec.config_eq c (abs2 final_tape_len l) →
      (k ≤ fuel)%nat →
      ∃ l' out',
        pass2_loop sts verbosity final_tape_len fuel l out = Done (l', out')
        ∧ Spec.config_eq c' (abs2 final_tape_len l')
        ∧ tape_wf (tape l') final_tape_len
        ∧ state_wf sts (curr_state l')
        ∧ min_rel_tape_ix l' = lo
        ∧ step l' = (step l + k)%nat.
Proof using Hok.
  intros Hfl k c c' Hrun.
  induction Hrun as [c c' Hhead Hstep | k c c1 c1' c' Hhead Hstep Heq1 Hrun IH];
    intros l out fuel Htape Hstate Hmin Heq Hfuel.
  - destruct fuel as [|fuel]; [lia |]. rewrite pass2_loop_S.
    assert (Hwf : wf2 sts final_tape_len l).
    { split; [done |]. split; [done |].
      destruct Heq as (_ & Hh & _). simpl in Hh. lia. }
    destruct (pass2_body_sim verbosity final_tape_len l out Hwf)
      as (r & Hr & Hsim).
    rewrite Hr. simpl.
    pose proof (step_config_eq _ _ Heq) as Hproper. rewrite Hstep in Hproper.
    destruct r as [[l1 out1] | [l1 out1]];
      destruct Hsim as (c2 & Hc2 & Hsim); rewrite Hc2 in Hproper; [| done].
    destruct Hsim as (Heq2 & Htape1 & Hstate1 & _ & _ & Hmin1 & Hstep1).
    exists l1, out1. split_and!; try done; try lia.
    by eapply config_eq_trans.
  - destruct fuel as [|fuel]; [lia |]. rewrite pass2_loop_S.
    assert (Hwf : wf2 sts final_tape_len l).
    { split; [done |]. split; [done |].
      destruct Heq as (_ & Hh & _). simpl in Hh. lia. }
    destruct (pass2_body_sim verbosity final_tape_len l out Hwf)
      as (r & Hr & Hsim).
    rewrite Hr. simpl.
    pose proof (step_config_eq _ _ Heq) as Hproper. rewrite Hstep in Hproper.
    destruct r as [[l1 out1] | [l1 out1]];
      destruct Hsim as (c2 & Hc2 & Hsim); rewrite Hc2 in Hproper; [done |].
    destruct Hsim as (Heq2 & Htape1 & Hstate1 & Hmin1 & Hstep1).
    simpl.
    destruct (IH l1 out1 fuel Htape1 Hstate1 ltac:(congruence)) as
      (l' & out' & Hloop & Heq' & Htape' & Hstate' & Hmin' & Hstep'); [| lia |].
    { eapply config_eq_trans; [apply config_eq_sym, Heq1 |].
      by eapply config_eq_trans. }
    exists l', out'. split_and!; try done. lia.
Qed.

(** ** The start of the two executions *)

Lemma bit_is_cell (c : ascii) : is_bit_char c → is_cell c.
Proof. intros [-> | ->]; [by left | by right; left]. Qed.

Lemma bits_are_cells (s : list ascii) : Forall is_bit_char s → Forall is_cell s.
Proof. intros H. eapply Forall_impl; [exact H | apply bit_is_cell]. Qed.

Lemma check_tape_bits (s : list ascii) (n : nat) :
  Forall is_bit_char s → check_tape s n = Done (n + length s)%nat.
Proof.
  intros H. revert n. induction H as [|c s [-> | ->] _ IH]; intros n; simpl.
  - f_equal. lia.
  - rewrite IH. f_equal. lia.
  - rewrite IH. f_equal. lia.
Qed.

Lemma check_tape_Done (s : list ascii) (n k : nat) :
  check_tape s n = Done k → Forall is_bit_char s.
Proof.
  revert n. induction s as [|c s IH]; intros n; simpl; [constructor |].
  destruct (Ascii.eqb_spec c chr0) as [-> | H0]; simpl.
  - intros H. constructor; [by left | eauto].
  - destruct (Ascii.eqb_spec c chr1) as [-> | H1]; simpl; [| discriminate].
    intros H. constructor; [by right | eauto].
Qed.

(** The variables at the start of the first execution, for a tape that is
    not empty and a table that is not empty. *)
Lemma run_init_wf1 (s : list ascii) :
  Forall is_bit_char s → s ≠ [] → sts ≠ [] →
  wf1 sts (run_init s (length s)).
Proof.
  clear Hok. intros Hs Hne Hsts. unfold wf1, run_init. simpl.
  assert (0 < length s)%nat by (destruct s; [done | simpl; lia]).
  assert (0 < length sts)%nat by (destruct sts; [done | simpl; lia]).
  split_and!; try lia.
  - exists s. split_and!; try done. by apply bits_are_cells.
  - by exists 0%nat.
Qed.

Lemma window_tape_of (s : list ascii) (r : Z) :
  Forall is_bit_char s →
  window (s ++ [NUL]) (length s) 0 r = Spec.tape_of s r.
Proof.
  intros Hs. rewrite window_app. unfold window, Spec.tape_of.
  rewrite Z.add_0_l.
  destruct (Z.leb_spec 0 r); destruct (Z.ltb_spec r 0); try lia; simpl; [| done].
  destruct (Z.ltb_spec r (Z.of_nat (length s))).
  - destruct (lookup_lt_is_Some_2 s (Z.to_nat r)) as [c Hc]; [lia |].
    rewrite Hc. by destruct (Forall_lookup_1 _ _ _ _ Hs Hc) as [-> | ->].
  - rewrite lookup_ge_None_2 by lia. done.
Qed.

(** The first execution starts in the initial configuration. *)
Lemma abs1_run_init (s : list ascii) :
  Forall is_bit_char s →
  Spec.config_eq (abs1 (run_init s (length s))) (Spec.initial s).
Proof.
  intros Hs. split; [done |]. split; [done |]. intros r. simpl.
  by apply window_tape_of.
Qed.

(** The buffer of the second execution holds the initial tape, with its
    first cell at index [- min_rel_tape_ix]. *)
Lemma pass2_init_spec (s : list ascii) (l : locals) :
  Forall is_bit_char s →
  min_rel_tape_ix l ≤ 0 →
  Z.of_nat (length s) - 1 ≤ max_rel_tape_ix l →
  ∃ l2,
    pass2_init s (length s) l
    = Done (l2, Z.to_nat (max_rel_tape_ix l - min_rel_tape_ix l + 1))
    ∧ tape_wf (tape l2) (Z.to_nat (max_rel_tape_ix l - min_rel_tape_ix l + 1))
    ∧ curr_state l2 = Some 0%nat
    ∧ tape_ix l2 = - min_rel_tape_ix l
    ∧ min_rel_tape_ix l2 = min_rel_tape_ix l
    ∧ step l2 = 0%nat
    ∧ ∀ r, window (tape l2)
             (Z.to_nat (max_rel_tape_ix l - min_rel_tape_ix l + 1))
             (- min_rel_tape_ix l) r
           = window (s ++ [NUL]) (length s) 0 r.
Proof.
  intros Hs Hmin Hmax. unfold pass2_init.
  set (fl := max_rel_tape_ix l - min_rel_tape_ix l + 1).
  destruct (Z.ltb_spec fl 0); [lia |].
  set (a := Z.to_nat (- min_rel_tape_ix l)).
  set (b := (Z.to_nat fl - a - length s)%nat).
  assert (Hfl : Z.to_nat fl = (a + (length s + b))%nat) by lia.
  unfold fill.
  replace (replicate (Z.to_nat fl + 1) NUL)
    with ([] ++ replicate (Z.to_nat fl) NUL ++ [NUL]).
  2:{ simpl. change [NUL] with (replicate 1 NUL). by rewrite <- replicate_add. }
  rewrite (blit_middle [] _ _ (replicate (Z.to_nat fl) blank))
    by (by rewrite !length_replicate).
  simpl. rewrite take_ge by lia.
  assert (Hb : blit (replicate (Z.to_nat fl) blank ++ [NUL])
                 (- min_rel_tape_ix l) s
               = Done (replicate a blank ++ s ++ replicate b blank ++ [NUL])).
  { rewrite Hfl, !replicate_add, <- !app_assoc.
    replace (- min_rel_tape_ix l)
      with (Z.of_nat (length (replicate a blank)))
      by (rewrite length_replicate; lia).
    apply blit_middle. by rewrite length_replicate. }
  rewrite Hb.
  simpl. rewrite store_Done.
  2:{ rewrite !length_app, !length_replicate. simpl. lia. }
  simpl.
  assert (Hins : <[Z.to_nat (Z.of_nat (Z.to_nat fl)) := NUL]>
                   (replicate a blank ++ s ++ replicate b blank ++ [NUL])
                 = replicate a blank ++ s ++ replicate b blank ++ [NUL]).
  { apply list_insert_id. rewrite Nat2Z.id, Hfl.
    rewrite !app_assoc. apply list_lookup_middle.
    rewrite !length_app, !length_replicate. lia. }
  rewrite Hins.
  eexists. split; [reflexivity |]. simpl.
  split_and!; try done.
  - exists (replicate a blank ++ s ++ replicate b blank).
    split_and!.
    + by rewrite <- !app_assoc.
    + rewrite !length_app, !length_replicate. lia.
    + apply Forall_app. split; [apply Forall_replicate; by right; right |].
      apply Forall_app. split; [by apply bits_are_cells |].
      apply Forall_replicate; by right; right.
  - intros r.
    replace (replicate a blank ++ s ++ replicate b blank ++ [NUL])
      with ((replicate a blank ++ s ++ replicate b blank) ++ [NUL])
      by (by rewrite <- !app_assoc).
    rewrite window_cells by (rewrite !length_app, !length_replicate; lia).
    replace (length (replicate a blank ++ s ++ replicate b blank))
      with (length (s ++ replicate b blank) + a)%nat
      by (rewrite !length_app, !length_replicate; lia).
    replace (- min_rel_tape_ix l) with (0 + Z.of_nat a) by lia.
    rewrite window_grow_left.
    replace (length (s ++ replicate b blank)) with (length s + b)%nat
      by (rewrite !length_app, !length_replicate; lia).
    rewrite window_grow_right. by rewrite window_app.
Qed.

(** The first execution follows the state pointer before anything else that
    has a result. *)
Lemma pass1_loop_Done_deref (max_tape_len max_steps fuel : nat)
    (l l' : locals) :
  pass1_loop sts max_tape_len max_steps fuel l = Done l' →
  ∃ st, deref sts (curr_state l) = Done st.
Proof.
  destruct fuel as [|fuel]; [discriminate |]. rewrite pass1_loop_S.
  destruct (step l =? max_steps)%nat; [discriminate |].
  destruct (max_tape_len <? _)%nat; [discriminate |].
  unfold pass1_body.
  destruct (load _ _); simpl; try discriminate.
  replace (curr_state (set_step l (S (step l)))) with (curr_state l)
    by (by destruct l).
  destruct (deref sts (curr_state l)); simpl; try discriminate. eauto.
Qed.

(** ** The second execution after the first one *)

Lemma state_wf_default (p p' : option nat) :
  state_wf sts p → state_wf sts p' →
  default 0%nat p = default 0%nat p' → p = p'.
Proof. intros (q & -> & _) (q' & -> & _). simpl. by intros ->. Qed.

(** On a tape that is not empty, the second execution halts after as many
    steps as the first one, in the same state, with its head on the same
    cell and with the same cells from [min_rel_tape_ix] to
    [max_rel_tape_ix]. *)
Lemma pass2_after_pass1_nonempty (s : list ascii)
    (max_tape_len max_steps : nat) (verbosity : Z) (l1 : locals) (fuel : nat) :
  Forall is_bit_char s → s ≠ [] →
  pass1 sts s max_tape_len max_steps = Done l1 →
  (step l1 ≤ fuel)%nat →
  ∃ l2 out,
    pass2 sts s verbosity fuel l1 = Done (l2, out)
    ∧ step l2 = step l1
    ∧ curr_state l2 = curr_state l1
    ∧ tape_ix l2 = rel_tape_ix l1 - min_rel_tape_ix l1
    ∧ min_rel_tape_ix l1 ≤ rel_tape_ix l1 ≤ max_rel_tape_ix l1
    ∧ ∀ r, min_rel_tape_ix l1 ≤ r ≤ max_rel_tape_ix l1 →
        ∃ c, is_cell c
          ∧ tape l1 !! Z.to_nat (tape_ix l1 - rel_tape_ix l1 + r) = Some c
          ∧ tape l2 !! Z.to_nat (r - min_rel_tape_ix l1) = Some c.
Proof using Hok.
  intros Hs Hne H1 Hfuel. unfold pass1 in H1.
  destruct (pass1_loop_Done_deref _ _ _ _ _ H1) as [st0 Hst0].
  simpl in Hst0.
  assert (Hsts : sts ≠ []) by (by destruct sts).
  pose proof (run_init_wf1 s Hs Hne Hsts) as Hwf0.
  destruct (pass1_loop_sim max_tape_len max_steps _ _ _ Hwf0 H1)
    as (k & c & Hrun & Heq1 & Hwf1 & Hmn & Hmx & Hstep1 & _).
  simpl in Hmn, Hmx, Hstep1.
  destruct (pass2_init_spec s l1 Hs Hmn Hmx)
    as (l20 & Hinit & Htape0 & Hcs0 & Hix0 & Hmin0 & Hstep0 & Hwin).
  set (fl := Z.to_nat (max_rel_tape_ix l1 - min_rel_tape_ix l1 + 1)) in *.
  destruct Hwf1 as ((cells1 & Htp1 & Hlen1 & Hcells1) & Hix1 & _ & Hstate1
                    & Hrel1 & Hlo1 & Hhi1).
  assert (Heq0 : Spec.config_eq (abs1 (run_init s (length s))) (abs2 fl l20)).
  { unfold Spec.config_eq. simpl. rewrite Hcs0, Hmin0, Hix0.
    split; [done |]. split; [lia |]. intros r. symmetry. apply Hwin. }
  assert (Hstate0 : state_wf sts (curr_state l20)).
  { rewrite Hcs0. exists 0%nat. split; [done |].
    destruct sts; [done | simpl; lia]. }
  destruct (pass2_loop_sim verbosity fl (min_rel_tape_ix l1)
              (max_rel_tape_ix l1) ltac:(lia) k _ _ Hrun l20
              [Frame (step l20) (Some (number st0)) (tape l20) fl (tape_ix l20)] fuel
              Htape0 Hstate0 Hmin0 Heq0 ltac:(lia))
    as (l2 & out & Hloop & Heq2 & Htape2 & Hstate2 & Hmin2 & Hstep2).
  exists l2, out.
  assert (Heq : Spec.config_eq (abs1 l1) (abs2 fl l2)).
  { eapply config_eq_trans; [apply config_eq_sym, Heq1 | exact Heq2]. }
  destruct Heq as (Hcs & Hhead & Hcellseq). simpl in Hcs, Hhead, Hcellseq.
  split_and!.
  - unfold pass2. rewrite Hinit. simpl. unfold print_tape.
    rewrite Hcs0. simpl in Hst0 |- *.
    destruct (sts !! 0%nat); [| discriminate]. injection Hst0 as ->.
    simpl. exact Hloop.
  - lia.
  - symmetry. by eapply state_wf_default.
  - lia.
  - lia.
  - lia.
  - intros r Hr. specialize (Hcellseq r).
    destruct Htape2 as (cells2 & Htp2 & Hlen2 & Hcells2).
    rewrite Htp1, Htp2, Hmin2 in *.
    rewrite (window_cells cells1), (window_cells cells2) in Hcellseq by done.
    destruct (lookup_lt_is_Some_2 cells1
                (Z.to_nat (tape_ix l1 - rel_tape_ix l1 + r))) as [c1 Hc1];
      [lia |].
    destruct (lookup_lt_is_Some_2 cells2 (Z.to_nat (r - min_rel_tape_ix l1)))
      as [c2 Hc2]; [lia |].
    rewrite (window_inside cells1 _ _ c1) in Hcellseq by (lia || done).
    rewrite (window_inside cells2 _ _ c2) in Hcellseq.
    2: lia.
    2:{ by replace (- min_rel_tape_ix l1 + r) with (r - min_rel_tape_ix l1) by lia. }
    assert (c1 = c2) as <-.
    { apply symbol_of_char_inj; [| | done].
      - by apply (Forall_lookup_1 _ _ _ _ Hcells1 Hc1).
      - by apply (Forall_lookup_1 _ _ _ _ Hcells2 Hc2). }
    exists c1. split_and!.
    + by apply (Forall_lookup_1 _ _ _ _ Hcells1 Hc1).
    + by apply lookup_app_l_Some.
    + by apply lookup_app_l_Some.
Qed.

End Simulation.

(** What a step of the first execution with a result has done. *)
Lemma pass1_body_inv (sts : list state) (l : locals) (r : flow locals) :
  pass1_body sts l = Done r →
  ∃ c s tp,
    load (tape l) (tape_ix l) = Done c
    ∧ deref sts (curr_state l) = Done s
    ∧ store (tape l) (tape_ix l) (write_char (select_action c s)) = Done tp
    ∧ ((direction_to_move (select_action c s) = 0 ∧ r = Break (set_tape l tp))
       ∨ (direction_to_move (select_action c s) ≠ 0
          ∧ ∃ l3,
              (let d := direction_to_move (select_action c s) in
               let l2 :=
                 Locals tp (tape_len l) (tape_expansion_amt l) (curr_state l)
                   (tape_ix l + d) (rel_tape_ix l + d)
                   (Z.min (min_rel_tape_ix l) (rel_tape_ix l + d))
                   (Z.max (max_rel_tape_ix l) (rel_tape_ix l + d)) (step l) in
               if (tape_ix l + d <? 0) || (tape_ix l + d =? Z.of_nat (tape_len l))
               then expand l2 else Done l2) = Done l3
              ∧ r = Continue (set_curr_state l3
                                (next_state (select_action c s))))).
Proof.
  destruct l as [tp0 len amt cs ix rel mn mx stp].
  unfold pass1_body. cbn [tape tape_ix curr_state]. intros H.
  apply bind_Done in H as (c & Hc & H).
  apply bind_Done in H as (s & Hs & H).
  apply bind_Done in H as (tp & Htp & H).
  exists c, s, tp. split_and!; try done.
  set (a := select_action c s) in *.
  destruct (Z.eqb_spec (direction_to_move a) 0) as [Hd | Hd].
  - left. split; [done |]. by injection H as <-.
  - right. split; [done |].
    unfold set_tape, set_tape_ix, set_rel_tape_ix, set_min_rel_tape_ix,
      set_max_rel_tape_ix in H.
    cbn [tape tape_len tape_expansion_amt curr_state tape_ix rel_tape_ix
         min_rel_tape_ix max_rel_tape_ix step] in H.
    destruct (Z.ltb_spec (rel + direction_to_move a) mn) as [Hmn | Hmn];
      cbn [tape tape_len tape_expansion_amt curr_state tape_ix rel_tape_ix
           min_rel_tape_ix max_rel_tape_ix step] in H;
      destruct (Z.ltb_spec mx (rel + direction_to_move a)) as [Hmx | Hmx];
      cbn [tape tape_len tape_expansion_amt curr_state tape_ix rel_tape_ix
           min_rel_tape_ix max_rel_tape_ix step] in H;
      apply bind_Done in H as (l3 & Hl3 & H); injection H as <-;
      exists l3; (split; [| done]); cbv zeta;
      cbn [tape tape_len tape_expansion_amt curr_state tape_ix rel_tape_ix
           min_rel_tape_ix max_rel_tape_ix step].
    + by rewrite Z.min_r, Z.max_r by lia.
    + by rewrite Z.min_r, Z.max_l by lia.
    + by rewrite Z.min_l, Z.max_r by lia.
    + by rewrite Z.min_l, Z.max_l by lia.
Qed.

#[local] Arguments pass1_body : simpl never.

(** The expansion to the left needs the terminator of the buffer. *)
Lemma expand_left_unterminated (l : locals) :
  tape_ix l < 0 → c_str (tape l) = None → expand l = Undefined.
Proof.
  intros Hix Hstr. unfold expand, strcpy. cbv zeta.
  destruct (Z.ltb_spec (tape_ix l) 0); [| lia]. rewrite Hstr.
  unfold fill, blit. by case_match.
Qed.

(** The first execution from a buffer without cell, whose one byte is the
    terminator: it has a result only when it stops with its first step,
    which [action1] of state 0 decides. *)
Lemma pass1_loop_no_cell (sts : list state) (max_tape_len ms amt : nat)
    (l1 : locals) :
  pass1_loop sts max_tape_len (S ms) (S (S ms))
    (Locals [NUL] 0 amt (Some 0%nat) 0 0 0 (-1) 0) = Done l1 →
  ∃ st, sts !! 0%nat = Some st
    ∧ direction_to_move (action1 st) = 0
    ∧ l1 = Locals [write_char (action1 st)] 0 amt (Some 0%nat) 0 0 0 (-1) 1.
Proof.
  rewrite pass1_loop_S. simpl. unfold set_step.
  cbn [tape tape_len tape_expansion_amt curr_state tape_ix rel_tape_ix
       min_rel_tape_ix max_rel_tape_ix step].
  intros H.
  apply bind_Done in H as (r & Hbody & H).
  apply pass1_body_inv in Hbody as (c & s & tp & Hc & Hs & Htp & Hcases).
  simpl in Hc, Hs, Htp. injection Hc as <-.
  destruct (sts !! 0%nat) as [st|] eqn:Hst; [| discriminate].
  injection Hs as <-. change (select_action NUL st) with (action1 st) in *.
  unfold store in Htp. simpl in Htp. injection Htp as <-.
  exists st. split; [done |].
  destruct Hcases as [[Hd ->] | (Hd & l3 & Hl3 & ->)].
  - split; [done |]. by injection H as <-.
  - exfalso. cbv zeta in Hl3.
    cbn [tape tape_len tape_expansion_amt curr_state tape_ix rel_tape_ix
         min_rel_tape_ix max_rel_tape_ix step] in Hl3.
    set (d := direction_to_move (action1 st)) in *.
    assert (Hw : c_str [write_char (action1 st)] = None).
    { unfold write_char. by destruct (value_to_write (action1 st) =? 0). }
    rewrite Z.add_0_l in Hl3. change (Z.of_nat 0) with 0 in Hl3.
    destruct (Z.ltb_spec d 0) as [Hneg | Hpos].
    + rewrite expand_left_unterminated in Hl3 by done. discriminate.
    + destruct (Z.eqb_spec d 0); [lia |]. simpl in Hl3. injection Hl3 as <-.
      rewrite pass1_loop_S in H. simpl in H.
      destruct ms; [discriminate |].
      apply bind_Done in H as (r & Hbody & _).
      apply pass1_body_inv in Hbody as (c & _ & _ & Hc & _).
      apply load_Done in Hc as [_ Hc]. simpl in Hc.
      rewrite lookup_ge_None_2 in Hc by (simpl; lia). discriminate.
Qed.

(** On the empty tape the first execution has a result only when it stops
    with its first step, which [action1] of state 0 decides: the byte under
    the head is the terminator of the empty string. *)
Lemma pass1_empty_tape (sts : list state) (max_tape_len max_steps : nat)
    (l1 : locals) :
  pass1 sts [] max_tape_len max_steps = Done l1 →
  ∃ st, sts !! 0%nat = Some st
    ∧ direction_to_move (action1 st) = 0
    ∧ l1 = Locals [write_char (action1 st)] 0 1024 (Some 0%nat) 0 0 0 (-1) 1.
Proof.
  unfold pass1. destruct max_steps as [|ms].
  - rewrite pass1_loop_S. discriminate.
  - apply pass1_loop_no_cell.
Qed.

(** The second execution on a buffer without cell: it reads the same
    terminator and stops with its first step. *)
Lemma pass2_no_cell (sts : list state) (st : state) (verbosity : Z)
    (fuel amt : nat) :
  sts !! 0%nat = Some st →
  direction_to_move (action1 st) = 0 →
  ∃ out,
    pass2 sts [] verbosity (S fuel)
      (Locals [write_char (action1 st)] 0 amt (Some 0%nat) 0 0 0 (-1) 1)
    = Done (Locals [write_char (action1 st)] 0 amt (Some 0%nat) 0 0 0 (-1) 1,
            out).
Proof.
  intros Hst Hd. unfold pass2, pass2_init, print_tape. simpl.
  rewrite Hst. simpl. rewrite pass2_loop_S.
  unfold pass2_body, print_tape, set_step, set_tape, set_tape_ix,
    set_curr_state. simpl.
  rewrite Hst. simpl.
  change (select_action NUL st) with (action1 st).
  destruct ((verbosity =? 2) || _); simpl; rewrite Hd; simpl; eauto.
Qed.

(** The second execution on the empty tape after a first execution with a
    result: it reads the same terminator and stops with the same step. *)
Lemma pass2_empty_tape (sts : list state) (st : state) (verbosity : Z)
    (fuel : nat) :
  sts !! 0%nat = Some st →
  direction_to_move (action1 st) = 0 →
  ∃ out,
    pass2 sts [] verbosity (S fuel)
      (Locals [write_char (action1 st)] 0 1024 (Some 0%nat) 0 0 0 (-1) 1)
    = Done (Locals [write_char (action1 st)] 0 1024 (Some 0%nat) 0 0 0 (-1) 1,
            out).
Proof. apply pass2_no_cell. Qed.

(** ** The line that is printed without trace *)

Lemma scan_back_cases (tp : list ascii) :
  ∀ (n : nat) (s : Z),
    -1 ≤ s → s < Z.of_nat (length tp) → (Z.to_nat (s + 2) ≤ n)%nat →
    (∃ s', scan_back tp n s = Done s'
       ∧ 0 ≤ s' ≤ s
       ∧ (∀ i, s' < i ≤ s → ∃ c, tp !! Z.to_nat i = Some c ∧ c ≠ blank)
       ∧ tp !! Z.to_nat s' = Some blank)
    ∨ (scan_back tp n s = Undefined
       ∧ ∀ i, 0 ≤ i ≤ s → ∃ c, tp !! Z.to_nat i = Some c ∧ c ≠ blank).
Proof.
  induction n as [|n IH]; intros s Hlo Hhi Hn; [lia |].
  simpl. destruct (Z.ltb_spec s 0) as [Hneg | Hpos].
  - right. unfold load. destruct (Z.ltb_spec s 0); [| lia].
    split; [done |]. intros i Hi. lia.
  - destruct (lookup_lt_is_Some_2 tp (Z.to_nat s)) as [c Hc]; [lia |].
    assert (Hload : load tp s = Done c) by (by apply load_Done).
    rewrite Hload. simpl.
    destruct (Ascii.eqb_spec c blank) as [-> | Hnb]; simpl.
    + left. exists s. split_and!; try done; try lia.
    + destruct (Z.leb_spec 0 s); [| lia].
      destruct (IH (s - 1)) as [(s' & Hs' & Hrange & Hrun & Hend) | [Hu Hall]];
        try lia.
      * left. exists s'. split_and!; try done; try lia.
        intros i Hi. destruct (decide (i = s)) as [-> | Hne].
        -- by exists c.
        -- apply Hrun. lia.
      * right. split; [done |].
        intros i Hi. destruct (decide (i = s)) as [-> | Hne].
        -- by exists c.
        -- apply Hall. lia.
Qed.

#[local] Arguments scan_back : simpl never.

(** Without trace, the cells from the one after the last blank before the
    head up to the head are printed; without blank before the head, the
    byte before the buffer is read. *)
Lemma trimmed_output_cases (cells : list ascii) (amt : nat) (cs : option nat)
    (ix rel mn mx : Z) (stp : nat) :
  Forall is_cell cells → 0 ≤ ix < Z.of_nat (length cells) →
  (∃ w, cells !! Z.to_nat ix = Some w ∧ w ≠ blank) →
  (∃ out first,
     trimmed_output (Locals (cells ++ [NUL]) (length cells) amt cs ix rel mn mx
                       stp)
     = Done out
     ∧ 0 < first ≤ ix
     ∧ out = take (Z.to_nat (ix - first + 1)) (drop (Z.to_nat first) cells)
     ∧ Forall (fun c => c ≠ blank) out
     ∧ cells !! Z.to_nat (first - 1) = Some blank)
  ∨ (trimmed_output (Locals (cells ++ [NUL]) (length cells) amt cs ix rel mn mx
                       stp)
     = Undefined
     ∧ ∀ i, 0 ≤ i ≤ ix → cells !! Z.to_nat i ≠ Some blank).
Proof.
  intros Hcells Hix (w & Hw & Hwnb). unfold trimmed_output. simpl.
  rewrite store_Done by (rewrite length_app; simpl; lia). simpl.
  set (tp := <[Z.to_nat (ix + 1) := NUL]> (cells ++ [NUL])).
  assert (Hlow : ∀ i, (i ≤ Z.to_nat ix)%nat → tp !! i = cells !! i).
  { intros i Hi. unfold tp. rewrite list_lookup_insert_ne by lia.
    apply lookup_app_l. lia. }
  destruct (scan_back_cases tp (S (Z.to_nat (ix + 1))) ix)
    as [(s' & Hscan & Hs' & Hrun & Hend) | [Hscan Hall]]; try lia.
  { unfold tp. rewrite length_insert, length_app. simpl. lia. }
  2:{ right. rewrite Hscan. split; [done |].
      intros i Hi. destruct (Hall i Hi) as (c & Hc & Hnb).
      rewrite Hlow in Hc by lia. congruence. }
  left. rewrite Hscan. simpl.
  assert (Hlt : s' < ix).
  { destruct (decide (s' = ix)) as [-> | Hne]; [| lia].
    rewrite Hlow in Hend by lia. congruence. }
  set (first := Z.to_nat (s' + 1)).
  set (out := take (Z.to_nat (ix - (s' + 1) + 1)) (drop first cells)).
  assert (Htp : tp = take first cells ++ out
                       ++ NUL :: drop (S (Z.to_nat (ix + 1))) (cells ++ [NUL])).
  { unfold tp. rewrite insert_take_drop by (rewrite length_app; simpl; lia).
    rewrite app_assoc. f_equal.
    rewrite take_app_le by lia.
    rewrite <- (take_drop first (take (Z.to_nat (ix + 1)) cells)).
    f_equal.
    - rewrite take_take. f_equal. lia.
    - unfold out. rewrite take_drop_commute. do 2 f_equal. lia. }
  assert (Hout : Forall (fun c => is_cell c ∧ c ≠ blank) out).
  { apply Forall_lookup_2. intros j c Hj.
    unfold out in Hj. apply lookup_take_Some in Hj as [Hj Hjlt].
    rewrite lookup_drop in Hj. split.
    - by eapply Forall_lookup_1.
    - destruct (Hrun (Z.of_nat (first + j))) as (c' & Hc' & Hnb); [lia |].
      rewrite Nat2Z.id, Hlow in Hc' by lia. congruence. }
  rewrite Htp, drop_app_length'.
  2:{ rewrite length_take. lia. }
  rewrite c_str_cells.
  2:{ eapply Forall_impl; [exact Hout |]. by intros c [Hc _]. }
  exists out, (s' + 1). split_and!; try done; try lia.
  - eapply Forall_impl; [exact Hout |]. by intros c [_ Hc].
  - replace (s' + 1 - 1) with s' by lia. rewrite <- Hlow by lia. done.
Qed.

(** ** The bound of the loop of the first execution *)









Lemma expand_step (l l' : locals) : expand l = Done l' → step l' = step l.
Proof.
  unfold expand. intros H. apply bind_Done in H as (r & _ & H).
  by injection H as <-.
Qed.

(** The body of the loop leaves the step counter alone. *)
Lemma pass1_body_step (sts : list state) (l : locals) (r : flow locals) :
  pass1_body sts l = Done r →
  step (match r with Break l' | Continue l' => l' end) = step l.
Proof.
  unfold pass1_body, mbind, outcome_bind. intros H.
  destruct (load _ _); try discriminate.
  destruct (deref _ _); try discriminate.
  destruct (store _ _ _); try discriminate.
  destruct (direction_to_move _ =? 0); [by injection H as <- |].
  match type of H with
  | match (if ?c then expand ?x else Done ?y) with _ => _ end = _ =>
      destruct c; [destruct (expand x) as [l1| | |] eqn:E; try discriminate |];
      injection H as <-; simpl
  end.
  - rewrite (expand_step _ _ E).
    unfold set_tape, set_tape_ix, set_rel_tape_ix, set_min_rel_tape_ix,
      set_max_rel_tape_ix. simpl. by repeat case_match.
  - unfold set_tape, set_tape_ix, set_rel_tape_ix, set_min_rel_tape_ix,
      set_max_rel_tape_ix. simpl. by repeat case_match.
Qed.



(** ** The claims about the execution engine *)

(** X20: away from the empty tape, in both executions, one step reads the cell
    under the head, where a blank selects the action that 0 selects, writes
    the value of the selected action to that cell, ends the run exactly when
    the direction of the action is Stop, and otherwise moves the head by one
    cell in that direction and makes [next_state] the current state: the
    body of each loop does what [Spec.step] does, for variables that hold a
    tape of '0', '1' and ' ' with the head in the buffer. *)
Theorem step_refines_design (sts : list state) (verbosity : Z)
    (final_tape_len : nat) (l : locals) (out : list output) :
  table_ok sts = true →
  (wf1 sts l → pass1_step_refines sts l)
  ∧ (wf2 sts final_tape_len l →
     pass2_step_refines sts verbosity final_tape_len l out).
Proof.
  intros Hok. split; intros Hwf.
  - destruct (pass1_body_sim sts Hok l Hwf) as (r & Hr & Hsim).
    exists r. split; [done |].
    destruct r as [l' | l']; destruct Hsim as (c & Hc & Heq & _); eauto.
  - destruct (pass2_body_sim sts Hok verbosity final_tape_len l out Hwf)
      as (r & Hr & Hsim).
    exists r. split; [done |].
    destruct r as [[l' out'] | [l' out']]; destruct Hsim as (c & Hc & Heq & _);
      eauto.
Qed.

Lemma step_refines_design_witness :
  pass1_step_refines
    [State 0 (Action 0 1 (Some 0%nat)) (Action 0 0 (Some 0%nat))]
    (run_init [chr0; chr1] 2)
  ∧ pass2_step_refines
      [State 0 (Action 0 1 (Some 0%nat)) (Action 0 0 (Some 0%nat))] 2 2
      (Locals [chr0; chr1; NUL] 2 1024 (Some 0%nat) 1 0 0 1 1) [].
Proof.
  split.
  - apply (step_refines_design _ 2 2 _ []); [reflexivity |].
    apply (run_init_wf1 _ [chr0; chr1]); [| done | done].
    repeat constructor; (by left) || (by right).
  - apply (step_refines_design _ 2 2 _ []); [reflexivity |].
    split_and!; simpl; try lia.
    + exists [chr0; chr1]. split_and!; try done.
      repeat constructor; (by left) || (by right; left).
    + exists 0%nat. simpl. split; [done | lia].
Defined.

(** C1 fails for the first step on the empty tape: the buffer holds the
    terminator only, which is neither '0' nor ' ' and selects [action1],
    where the cell under the head is blank and the step of the design
    document selects [action0].  For a state 0 that moves on 0 and stops on
    1 the loop ends with this step and the machine of the design document
    goes on. *)
Theorem empty_tape_step_diverges (sts : list state) (st : state) (q : nat) :
  sts !! 0%nat = Some st →
  direction_to_move (action0 st) ≠ 0 → next_state (action0 st) = Some q →
  direction_to_move (action1 st) = 0 →
  (∃ l', pass1_body sts (set_step (run_init [] 0) 1) = Done (Break l'))
  ∧ (∃ c, Spec.step sts (abs1 (set_step (run_init [] 0) 1)) = Spec.Running c)
  ∧ ¬ pass1_step_refines sts (set_step (run_init [] 0) 1).
Proof.
  intros Hst Hd0 Hq Hd1.
  assert (Hbody : ∃ l', pass1_body sts (set_step (run_init [] 0) 1)
                        = Done (Break l')).
  { unfold pass1_body, set_step, run_init.
    cbn [tape tape_len tape_expansion_amt curr_state tape_ix rel_tape_ix
         min_rel_tape_ix max_rel_tape_ix step app].
    change (load [NUL] 0) with (Done NUL).
    unfold deref. rewrite Hst.
    change (select_action NUL st) with (action1 st).
    cbn [mbind outcome_bind].
    change (select_action NUL st) with (action1 st).
    unfold store. simpl. rewrite Hd1. simpl. by eexists. }
  assert (Hstep : ∃ c, Spec.step sts (abs1 (set_step (run_init [] 0) 1))
                       = Spec.Running c).
  { unfold Spec.step. simpl. rewrite Hst. simpl.
    destruct (Z.eqb_spec (direction_to_move (action0 st)) 0); [done |].
    rewrite Hq. by eexists. }
  split_and!; try done.
  intros (r & Hr & Href). destruct Hbody as [l' Hl']. destruct Hstep as [c Hc].
  rewrite Hl' in Hr. injection Hr as <-.
  destruct Href as (c' & Hc' & _). congruence.
Qed.

Lemma empty_tape_step_diverges_witness :
  (∃ l',
     pass1_body [State 0 (Action 0 1 (Some 0%nat)) (Action 0 0 (Some 0%nat))]
       (set_step (run_init [] 0) 1) = Done (Break l'))
  ∧ (∃ c,
       Spec.step [State 0 (Action 0 1 (Some 0%nat)) (Action 0 0 (Some 0%nat))]
         (abs1 (set_step (run_init [] 0) 1)) = Spec.Running c)
  ∧ ¬ pass1_step_refines
        [State 0 (Action 0 1 (Some 0%nat)) (Action 0 0 (Some 0%nat))]
        (set_step (run_init [] 0) 1).
Proof.
  apply (empty_tape_step_diverges
           [State 0 (Action 0 1 (Some 0%nat)) (Action 0 0 (Some 0%nat))]
           (State 0 (Action 0 1 (Some 0%nat)) (Action 0 0 (Some 0%nat)))
           0%nat).
  - reflexivity.
  - discriminate.
  - reflexivity.
  - reflexivity.
Defined.

(** C3, as the code has it: without trace, when a run on a tape that is
    not empty prints a line, the line is the cells from [first] up to the
    head, where none of these cells is blank and the cell before [first] is
    blank: the longest run of cells without blank that ends at the head.
    The cells after the head are not printed. *)
Theorem run_prints_up_to_head (sts : list state) (initial_tape : string)
    (max_tape_len max_steps fuel : nat) (l : locals) (outs : list output) :
  table_ok sts = true →
  initial_tape ≠ ""%string →
  pass1 sts (list_ascii_of_string initial_tape) max_tape_len max_steps = Done l →
  run sts initial_tape max_tape_len max_steps 0 fuel = Done outs →
  ∃ out first,
    outs = [Line out]
    ∧ 0 < first ≤ tape_ix l
    ∧ out = take (Z.to_nat (tape_ix l - first + 1))
              (drop (Z.to_nat first) (tape l))
    ∧ Forall (fun c => c ≠ blank ∧ c ≠ NUL) out
    ∧ tape l !! Z.to_nat (first - 1) = Some blank.
Proof.
  intros Hok Hne H1 Hrun.
  unfold run in Hrun. cbv zeta in Hrun.
  apply bind_Done in Hrun as (n & Hcheck & Hrun).
  pose proof (check_tape_Done _ _ _ Hcheck) as Hs.
  rewrite H1 in Hrun. simpl in Hrun.
  apply bind_Done in Hrun as (line & Hline & Hrun). injection Hrun as <-.
  assert (Hne' : list_ascii_of_string initial_tape ≠ []).
  { intros E. apply Hne. by destruct initial_tape. }
  pose proof H1 as H1'. unfold pass1 in H1'.
  destruct (pass1_loop_Done_deref _ _ _ _ _ _ H1') as [st0 Hst0].
  simpl in Hst0.
  assert (Hsts : sts ≠ []) by (by destruct sts).
  destruct (pass1_loop_sim sts Hok max_tape_len max_steps _ _ _
              (run_init_wf1 sts _ Hs Hne' Hsts) H1')
    as (k & c & _ & _ & Hwf & _ & _ & _ & Hw).
  destruct l as [tp len amt cs ix rel mn mx stp].
  destruct Hwf as ((cells & Htp & Hlen & Hcells) & Hix & _). simpl in *.
  subst tp len.
  destruct (trimmed_output_cases cells amt cs ix rel mn mx stp Hcells Hix)
    as [(out & first & Hout & Hfirst & Eout & Hnb & Hend) | [Hu _]].
  { destruct Hw as (w & Hw & Hwnb). exists w. split; [| done].
    rewrite lookup_app_l in Hw by lia. done. }
  2:{ rewrite Hu in Hline. discriminate. }
  rewrite Hout in Hline. injection Hline as <-.
  exists out, first. split_and!; try done; try lia.
  - rewrite Eout. rewrite drop_app_le by lia.
    rewrite take_app_le; [done |]. rewrite length_drop. lia.
  - apply Forall_lookup_2. intros j x Hj. split.
    + by apply (Forall_lookup_1 _ _ _ _ Hnb Hj).
    + rewrite Eout in Hj. apply lookup_take_Some in Hj as [Hj _].
      rewrite lookup_drop in Hj.
      pose proof (Forall_lookup_1 _ _ _ _ Hcells Hj) as Hx.
      intros ->. by destruct Hx as [Hx | [Hx | Hx]].
  - by apply lookup_app_l_Some.
Qed.

Lemma run_prints_up_to_head_witness :
  ∃ out first,
    [Line [chr1]] = [Line out]
    ∧ 0 < first
      ≤ tape_ix (Locals (replicate 1023 blank ++ [chr1; chr1; NUL]) 1025 2048
                   (Some 1%nat) 1023 (-1) (-1) 0 2)
    ∧ out = take (Z.to_nat
                    (tape_ix (Locals (replicate 1023 blank
                                      ++ [chr1; chr1; NUL]) 1025 2048
                                (Some 1%nat) 1023 (-1) (-1) 0 2)
                     - first + 1))
              (drop (Z.to_nat first)
                 (tape (Locals (replicate 1023 blank ++ [chr1; chr1; NUL])
                          1025 2048 (Some 1%nat) 1023 (-1) (-1) 0 2)))
    ∧ Forall (fun c => c ≠ blank ∧ c ≠ NUL) out
    ∧ tape (Locals (replicate 1023 blank ++ [chr1; chr1; NUL]) 1025 2048
              (Some 1%nat) 1023 (-1) (-1) 0 2) !! Z.to_nat (first - 1)
      = Some blank.
Proof.
  apply (run_prints_up_to_head
           [State 0 (Action 1 (-1) (Some 1%nat)) (Action 0 0 (Some 0%nat));
            State 1 (Action 1 0 (Some 0%nat)) (Action 0 0 (Some 0%nat))]
           "0" 2000 10 0
           (Locals (replicate 1023 blank ++ [chr1; chr1; NUL]) 1025 2048
              (Some 1%nat) 1023 (-1) (-1) 0 2)
           [Line [chr1]]).
  - reflexivity.
  - discriminate.
  - vm_compute. reflexivity.
  - vm_compute. reflexivity.
Defined.

(** C3 as it is worded fails: on the tape "0" the machine that writes 1 and
    moves left, and then writes 1 on the blank and stops, leaves the tape
    "11" with the head on its first cell; the longest run of cells without
    blank around the head is "11" and the line that is printed is "1".
    The cell before the head is blank here, and no byte outside the buffer
    is read. *)
Lemma output_cut_after_head :
  ¬ (∀ sts initial_tape max_tape_len max_steps l out,
       table_ok sts = true →
       pass1 sts (list_ascii_of_string initial_tape) max_tape_len max_steps
       = Done l →
       run sts initial_tape max_tape_len max_steps 0 0 = Done [Line out] →
       out = nonblank_run (take (tape_len l) (tape l))
               (Z.to_nat (tape_ix l))).
Proof.
  intros H.
  assert (H1 : pass1
                 [State 0 (Action 1 (-1) (Some 1%nat)) (Action 0 0 (Some 0%nat));
                  State 1 (Action 1 0 (Some 0%nat)) (Action 0 0 (Some 0%nat))]
                 (list_ascii_of_string "0") 2000 10
               = Done (Locals (replicate 1023 blank ++ [chr1; chr1; NUL]) 1025
                         2048 (Some 1%nat) 1023 (-1) (-1) 0 2))
    by (vm_compute; reflexivity).
  assert (H2 : run
                 [State 0 (Action 1 (-1) (Some 1%nat)) (Action 0 0 (Some 0%nat));
                  State 1 (Action 1 0 (Some 0%nat)) (Action 0 0 (Some 0%nat))]
                 "0" 2000 10 0 0
               = Done [Line [chr1]])
    by (vm_compute; reflexivity).
  specialize (H [State 0 (Action 1 (-1) (Some 1%nat)) (Action 0 0 (Some 0%nat));
                 State 1 (Action 1 0 (Some 0%nat)) (Action 0 0 (Some 0%nat))]
                "0"%string 2000%nat 10%nat _ [chr1] eq_refl H1 H2).
  vm_compute in H. discriminate H.
Qed.

(** C5: when the first execution halts, the second execution, given at
    least as many iterations as the first one made steps, halts after the
    same number of steps in the same state, with its head on the same cell
    of the tape, with the same character under the head and with the same
    characters in all the cells from [min_rel_tape_ix] to [max_rel_tape_ix],
    which are all the cells of its buffer.  Both executions are functions
    of the table and the initial tape. *)
Theorem pass2_reproduces_pass1 (sts : list state) (initial_tape : list ascii)
    (max_tape_len max_steps : nat) (verbosity : Z) (l1 : locals) (fuel : nat) :
  table_ok sts = true →
  Forall is_bit_char initial_tape →
  pass1 sts initial_tape max_tape_len max_steps = Done l1 →
  (step l1 ≤ fuel)%nat →
  ∃ l2 out,
    pass2 sts initial_tape verbosity fuel l1 = Done (l2, out)
    ∧ step l2 = step l1
    ∧ curr_state l2 = curr_state l1
    ∧ tape_ix l2 = rel_tape_ix l1 - min_rel_tape_ix l1
    ∧ tape l2 !! Z.to_nat (tape_ix l2) = tape l1 !! Z.to_nat (tape_ix l1)
    ∧ ∀ r, min_rel_tape_ix l1 ≤ r ≤ max_rel_tape_ix l1 →
        ∃ c, is_cell c
          ∧ tape l1 !! Z.to_nat (tape_ix l1 - rel_tape_ix l1 + r) = Some c
          ∧ tape l2 !! Z.to_nat (r - min_rel_tape_ix l1) = Some c.
Proof.
  intros Hok Hs H1 Hfuel.
  destruct initial_tape as [|c0 s].
  - destruct (pass1_empty_tape _ _ _ _ H1) as (st & Hst & Hd & ->).
    simpl in Hfuel. destruct fuel as [|fuel]; [lia |].
    destruct (pass2_empty_tape sts st verbosity fuel Hst Hd) as [out Hout].
    eexists _, out. split; [exact Hout |]. simpl.
    split_and!; try done. intros r Hr. lia.
  - destruct (pass2_after_pass1_nonempty sts Hok (c0 :: s) max_tape_len
                max_steps verbosity l1 fuel Hs ltac:(done) H1 Hfuel)
      as (l2 & out & Hrun & Hstep & Hcs & Hix & Hrel & Hcells).
    exists l2, out. split_and!; try done.
    destruct (Hcells (rel_tape_ix l1) Hrel) as (c & _ & Hc1 & Hc2).
    rewrite Hix, Hc2.
    by replace (tape_ix l1 - rel_tape_ix l1 + rel_tape_ix l1)
      with (tape_ix l1) in Hc1 by lia.
Qed.

Lemma pass2_reproduces_pass1_witness :
  ∃ l2 out,
    pass2 [State 0 (Action 0 1 (Some 0%nat)) (Action 0 0 (Some 0%nat))]
      [chr0; chr0; chr1; chr1] 2 3
      (Locals [chr0; chr0; chr0; chr1; NUL] 4 1024 (Some 0%nat) 2 2 0 3 3)
    = Done (l2, out)
    ∧ step l2 = 3%nat
    ∧ curr_state l2 = Some 0%nat
    ∧ tape_ix l2 = 2 - 0
    ∧ tape l2 !! Z.to_nat (tape_ix l2)
      = [chr0; chr0; chr0; chr1; NUL] !! Z.to_nat 2
    ∧ ∀ r, 0 ≤ r ≤ 3 →
        ∃ c, is_cell c
          ∧ [chr0; chr0; chr0; chr1; NUL] !! Z.to_nat (2 - 2 + r) = Some c
          ∧ tape l2 !! Z.to_nat (r - 0) = Some c.
Proof.
  apply (pass2_reproduces_pass1
           [State 0 (Action 0 1 (Some 0%nat)) (Action 0 0 (Some 0%nat))]
           [chr0; chr0; chr1; chr1] 100 100 2
           (Locals [chr0; chr0; chr0; chr1; NUL] 4 1024 (Some 0%nat) 2 2 0 3 3)
           3).
  - reflexivity.
  - repeat constructor; (by left) || (by right).
  - reflexivity.
  - simpl. lia.
Defined.

(** C6, as the code has it: at the start of each iteration of its loop the
    first execution fails with [StepLimitExceeded] when the step counter is
    [max_steps] and otherwise with [TapeLimitExceeded] when the buffer has
    more than [max_tape_len] cells.  With [max_steps = 1], on a tape that is
    not empty and has at most [max_tape_len] cells, a machine that does not
    halt with its first step makes that step and fails with
    [StepLimitExceeded] when the step counter is 1. *)
Theorem limits_checked_before_step (sts : list state) (max_tape_len : nat) :
  (∀ max_steps fuel l,
     step l = max_steps →
     pass1_loop sts max_tape_len max_steps (S fuel) l
     = Exit (StepLimitExceeded max_steps))
  ∧ (∀ max_steps fuel l,
       step l ≠ max_steps → (max_tape_len < tape_len l)%nat →
       pass1_loop sts max_tape_len max_steps (S fuel) l
       = Exit (TapeLimitExceeded max_tape_len))
  ∧ (∀ initial_tape c,
       table_ok sts = true →
       Forall is_bit_char initial_tape →
       initial_tape ≠ [] →
       (length initial_tape ≤ max_tape_len)%nat →
       Spec.step sts (Spec.initial initial_tape) = Spec.Running c →
       pass1 sts initial_tape max_tape_len 1 = Exit (StepLimitExceeded 1)
       ∧ ∃ l',
           pass1_body sts (set_step (run_init initial_tape (length initial_tape)) 1)
           = Done (Continue l')
           ∧ step l' = 1%nat).
Proof.
  split_and!.
  - intros max_steps fuel l Hstep. rewrite pass1_loop_S.
    by destruct (Nat.eqb_spec (step l) max_steps).
  - intros max_steps fuel l Hstep Hlen. rewrite pass1_loop_S.
    destruct (Nat.eqb_spec (step l) max_steps); [done |].
    replace (tape_len (set_step l (S (step l)))) with (tape_len l)
      by (by destruct l).
    by destruct (Nat.ltb_spec max_tape_len (tape_len l)); [| lia].
  - intros s c Hok Hs Hne Hlen Hrun.
    assert (Hsts : sts ≠ []).
    { intros ->. unfold Spec.step in Hrun. simpl in Hrun. discriminate. }
    pose proof (run_init_wf1 sts s Hs Hne Hsts) as Hwf.
    destruct (pass1_body_sim sts Hok (set_step (run_init s (length s)) 1)
                (wf1_set_step _ _ _ Hwf)) as (r & Hr & Hsim).
    change (abs1 (set_step (run_init s (length s)) 1))
      with (abs1 (run_init s (length s))) in Hsim.
    pose proof (step_config_eq sts _ _ (abs1_run_init s Hs)) as Hproper.
    rewrite Hrun in Hproper.
    destruct r as [l' | l']; destruct Hsim as (c' & Hc' & Hsim);
      rewrite Hc' in Hproper; [done |].
    destruct Hsim as (_ & _ & _ & _ & Hstep).
    split; [| by exists l'].
    unfold pass1. rewrite pass1_loop_S. simpl.
    destruct (Nat.ltb_spec max_tape_len (length s)); [lia |].
    change (set_step (run_init s (length s)) 1)
      with (set_step (run_init s (length s)) 1) in Hr.
    unfold set_step, run_init in Hr |- *. simpl in Hr |- *.
    rewrite Hr. simpl. rewrite pass1_loop_S.
    simpl in Hstep. by rewrite Hstep.
Qed.

Lemma limits_checked_before_step_witness :
  pass1_loop [State 0 (Action 0 1 (Some 0%nat)) (Action 0 1 (Some 0%nat))]
    5 0 1 (run_init [chr0] 1)
  = Exit (StepLimitExceeded 0)
  ∧ pass1_loop [State 0 (Action 0 1 (Some 0%nat)) (Action 0 1 (Some 0%nat))]
      5 3 1 (run_init [chr0; chr0; chr0; chr0; chr0; chr0] 6)
    = Exit (TapeLimitExceeded 5)
  ∧ pass1 [State 0 (Action 0 1 (Some 0%nat)) (Action 0 1 (Some 0%nat))]
      [chr0; chr0] 5 1
    = Exit (StepLimitExceeded 1).
Proof.
  split_and!.
  - apply (proj1 (limits_checked_before_step _ 5)). reflexivity.
  - apply (proj1 (proj2 (limits_checked_before_step _ 5))); simpl; [lia | lia].
  - refine (proj1 (proj2 (proj2 (limits_checked_before_step
                     [State 0 (Action 0 1 (Some 0%nat)) (Action 0 1 (Some 0%nat))]
                     5))
                     [chr0; chr0] _ eq_refl _ _ _ eq_refl)).
    + repeat constructor; by left.
    + done.
    + simpl. lia.
Defined.

(** C6 as it is worded fails: with [max_steps = 1], the machine that always
    moves to the right does not halt with its first step, and on the tape
    "00" with [max_tape_len = 1] the run fails with [TapeLimitExceeded]
    before that step. *)
Lemma tape_limit_before_first_step :
  ¬ (∀ sts initial_tape max_tape_len c,
       table_ok sts = true →
       Forall is_bit_char initial_tape →
       Spec.step sts (Spec.initial initial_tape) = Spec.Running c →
       pass1 sts initial_tape max_tape_len 1 = Exit (StepLimitExceeded 1)).
Proof.
  intros H.
  specialize (H [State 0 (Action 0 1 (Some 0%nat)) (Action 0 1 (Some 0%nat))]
                [chr0; chr0] 1%nat _ eq_refl
                ltac:(repeat constructor; by left) eq_refl).
  discriminate H.
Qed.

(** C8 at the empty tape.  The buffer has no cell ([tape_len] is 0) and the
    byte under the head is the terminator of the empty string, which
    selects [action1]: the machine whose [action0] moves to the right and
    whose [action1] stops halts with its first step.  After a move to the
    right the head is at index 1 of a buffer without cell, the buffer is not
    expanded and the next read is outside of it; and the line of a run that
    halts is printed after a write outside of the buffer. *)
Theorem empty_tape_reads_terminator :
  pass1 [State 0 (Action 0 1 (Some 0%nat)) (Action 0 0 (Some 0%nat))] [] 100 100
  = Done (Locals [chr0] 0 1024 (Some 0%nat) 0 0 0 (-1) 1)
  ∧ pass1 [State 0 (Action 0 1 (Some 0%nat)) (Action 0 1 (Some 0%nat))] [] 100 100
    = Undefined
  ∧ run [State 0 (Action 0 1 (Some 0%nat)) (Action 0 0 (Some 0%nat))] "" 100 100 0 0
    = Undefined.
Proof. split_and!; reflexivity. Qed.
(** ** The growth of the tape and the limits of the first execution *)

Lemma expand_inv (l l' : locals) :
  expand l = Done l' →
  tape_len l' = (tape_len l + tape_expansion_amt l)%nat
  ∧ tape_expansion_amt l' = (tape_expansion_amt l * 2)%nat
  ∧ curr_state l' = curr_state l
  ∧ rel_tape_ix l' = rel_tape_ix l
  ∧ min_rel_tape_ix l' = min_rel_tape_ix l
  ∧ max_rel_tape_ix l' = max_rel_tape_ix l
  ∧ step l' = step l.
Proof.
  unfold expand. intros H. apply bind_Done in H as (r & _ & H).
  by injection H as <-.
Qed.

(** What a step of the first execution leaves of the counters. *)
Lemma pass1_body_fields (sts : list state) (l : locals) (r : flow locals) :
  pass1_body sts l = Done r →
  match r with
  | Break l' =>
      tape_len l' = tape_len l
      ∧ tape_expansion_amt l' = tape_expansion_amt l
      ∧ step l' = step l
      ∧ min_rel_tape_ix l' = min_rel_tape_ix l
      ∧ max_rel_tape_ix l' = max_rel_tape_ix l
  | Continue l' =>
      step l' = step l
      ∧ min_rel_tape_ix l' ≤ min_rel_tape_ix l
      ∧ max_rel_tape_ix l ≤ max_rel_tape_ix l'
      ∧ ((tape_len l' = tape_len l
          ∧ tape_expansion_amt l' = tape_expansion_amt l)
         ∨ (tape_len l' = (tape_len l + tape_expansion_amt l)%nat
            ∧ tape_expansion_amt l' = (tape_expansion_amt l * 2)%nat))
  end.
Proof.
  intros H.
  apply pass1_body_inv in H as (c & s & tp & _ & _ & _ & Hcases).
  destruct Hcases as [[_ ->] | (_ & l3 & Hl3 & ->)]; [by destruct l |].
  cbv zeta in Hl3.
  destruct (_ || _).
  - apply expand_inv in Hl3 as (Hlen & Hamt & _ & _ & Hmn & Hmx & Hstep).
    simpl in *. rewrite Hmn, Hmx, Hstep, Hlen, Hamt.
    split_and!; [done | lia | lia | by right].
  - injection Hl3 as <-. simpl. split_and!; [done | lia | lia | by left].
Qed.

Lemma pass1_loop_bounds (sts : list state) (max_tape_len max_steps : nat) :
  ∀ (fuel : nat) (l l' : locals),
    pass1_loop sts max_tape_len max_steps fuel l = Done l' →
    (step l ≤ max_steps)%nat →
    (step l < step l' ≤ max_steps)%nat
    ∧ (tape_len l' ≤ max_tape_len)%nat
    ∧ min_rel_tape_ix l' ≤ min_rel_tape_ix l
    ∧ max_rel_tape_ix l ≤ max_rel_tape_ix l'
    ∧ ∃ e : nat,
        tape_expansion_amt l' = (tape_expansion_amt l * 2 ^ e)%nat
        ∧ tape_len l'
          = (tape_len l + tape_expansion_amt l * (2 ^ e - 1))%nat.
Proof.
  induction fuel as [|fuel IH]; intros l l' H Hle; [discriminate |].
  rewrite pass1_loop_S in H.
  destruct (Nat.eqb_spec (step l) max_steps); [discriminate |].
  destruct (Nat.ltb_spec max_tape_len (tape_len (set_step l (S (step l)))))
    as [| Hlen]; [discriminate |].
  apply bind_Done in H as (r & Hbody & H).
  apply pass1_body_fields in Hbody.
  replace (step (set_step l (S (step l)))) with (S (step l)) in Hbody
    by (by destruct l).
  replace (tape_len (set_step l (S (step l)))) with (tape_len l) in *
    by (by destruct l).
  replace (tape_expansion_amt (set_step l (S (step l))))
    with (tape_expansion_amt l) in * by (by destruct l).
  replace (min_rel_tape_ix (set_step l (S (step l))))
    with (min_rel_tape_ix l) in * by (by destruct l).
  replace (max_rel_tape_ix (set_step l (S (step l))))
    with (max_rel_tape_ix l) in * by (by destruct l).
  destruct r as [l1 | l1].
  - injection H as <-. destruct Hbody as (-> & -> & -> & -> & ->).
    split_and!; try lia. exists 0%nat. simpl. lia.
  - destruct Hbody as (Hstep & Hmn & Hmx & Hgrow).
    apply IH in H as (Hs & Hl & Hmn' & Hmx' & e & He1 & He2); [| lia].
    split_and!; try lia.
    destruct Hgrow as [[Hlen1 Hamt1] | [Hlen1 Hamt1]].
    + exists e. rewrite He1, He2, Hlen1, Hamt1. done.
    + exists (S e). rewrite He1, He2, Hlen1, Hamt1.
      rewrite Nat.pow_succ_r'.
      pose proof (Nat.pow_nonzero 2 e ltac:(lia)). nia.
Qed.

(** A first execution that halts under some limits halts with the same
    variables under greater limits. *)
Lemma pass1_loop_mono (sts : list state)
    (max_tape_len max_steps max_tape_len' max_steps' : nat) :
  (max_tape_len ≤ max_tape_len')%nat → (max_steps ≤ max_steps')%nat →
  ∀ (fuel fuel' : nat) (l l' : locals),
    (fuel ≤ fuel')%nat → (step l ≤ max_steps)%nat →
    pass1_loop sts max_tape_len max_steps fuel l = Done l' →
    pass1_loop sts max_tape_len' max_steps' fuel' l = Done l'.
Proof.
  intros Hlen Hsteps.
  induction fuel as [|fuel IH]; intros fuel' l l' Hfuel Hle H; [discriminate |].
  destruct fuel' as [|fuel']; [lia |].
  rewrite pass1_loop_S in *.
  destruct (Nat.eqb_spec (step l) max_steps); [discriminate |].
  destruct (Nat.eqb_spec (step l) max_steps'); [lia |].
  destruct (Nat.ltb_spec max_tape_len (tape_len (set_step l (S (step l)))));
    [discriminate |].
  destruct (Nat.ltb_spec max_tape_len' (tape_len (set_step l (S (step l)))));
    [lia |].
  apply bind_Done in H as (r & Hbody & H). rewrite Hbody. simpl.
  destruct r as [l1 | l1]; [done |].
  apply pass1_body_step in Hbody.
  replace (step (set_step l (S (step l)))) with (S (step l)) in Hbody
    by (by destruct l).
  apply (IH fuel' l1 l'); [lia | lia | done].
Qed.


(** ** What [run] returns *)


(** The first character that is not a bit ends [check_tape]. *)
Lemma check_tape_first_bad (pre post : list ascii) (c : ascii) (n : nat) :
  Forall is_bit_char pre → c ≠ chr0 → c ≠ chr1 →
  check_tape (pre ++ c :: post) n = Exit (InvalidTapeCharacter (n + length pre)).
Proof.
  intros Hpre H0 H1. revert n.
  induction Hpre as [|x pre [-> | ->] _ IH]; intros n; simpl.
  - destruct (Ascii.eqb_spec c chr0); [done |].
    destruct (Ascii.eqb_spec c chr1); [done |]. simpl. f_equal. f_equal. lia.
  - rewrite IH. f_equal. f_equal. lia.
  - rewrite IH. f_equal. f_equal. lia.
Qed.

(** A run from an equal configuration. *)
Lemma halts_in_config_eq (sts : list state) (lo hi : Z) (k : nat)
    (c1 c' : Spec.config) :
  Spec.halts_in sts lo hi k c1 c' →
  ∀ c2, Spec.config_eq c1 c2 →
    ∃ c'', Spec.halts_in sts lo hi k c2 c'' ∧ Spec.config_eq c' c''.
Proof.
  induction 1 as [c c' Hhead Hstep | k c c1 c1' c' Hhead Hstep Heq1 Hrun IH];
    intros c2 Heq.
  - pose proof (step_config_eq sts c c2 Heq) as Hs. rewrite Hstep in Hs.
    destruct (Spec.step sts c2) as [c'' | |] eqn:E; try done.
    exists c''. split; [| done]. apply Spec.halts_now; [| done].
    destruct Heq as (_ & <- & _). done.
  - pose proof (step_config_eq sts c c2 Heq) as Hs. rewrite Hstep in Hs.
    destruct (Spec.step sts c2) as [| c2' |] eqn:E; try done.
    destruct (IH c1' (config_eq_refl _)) as (c'' & Hrun' & Heq').
    exists c''. split; [| done].
    apply Spec.halts_later with c2' c1'; try done.
    + destruct Heq as (_ & <- & _). done.
    + eapply config_eq_trans; [apply config_eq_sym; exact Hs | done].
Qed.

(** The first execution on a tape of bits that is not empty, on a table
    that is well formed: its result is a halting run of the machine of the
    design document from the initial tape, within the limits. *)
Lemma pass1_halts (sts : list state) (s : list ascii)
    (max_tape_len max_steps : nat) (l : locals) :
  table_ok sts = true → Forall is_bit_char s → s ≠ [] →
  pass1 sts s max_tape_len max_steps = Done l →
  wf1 sts l
  ∧ (step l ≤ max_steps)%nat
  ∧ (∃ w, tape l !! Z.to_nat (tape_ix l) = Some w ∧ w ≠ blank)
  ∧ ∃ c, Spec.halts_in sts (min_rel_tape_ix l) (max_rel_tape_ix l) (step l)
           (Spec.initial s) c
         ∧ Spec.config_eq c (abs1 l).
Proof.
  intros Hok Hs Hne H. unfold pass1 in H.
  destruct (pass1_loop_Done_deref _ _ _ _ _ _ H) as [st0 Hst0].
  simpl in Hst0.
  assert (Hsts : sts ≠ []) by (by destruct sts).
  pose proof (run_init_wf1 sts s Hs Hne Hsts) as Hwf0.
  destruct (pass1_loop_sim sts Hok max_tape_len max_steps _ _ _ Hwf0 H)
    as (k & c & Hrun & Heq & Hwf & _ & _ & Hstep & Hw).
  apply pass1_loop_bounds in H as ([_ Hle] & _); [| simpl; lia].
  simpl in Hstep. subst k.
  destruct (halts_in_config_eq _ _ _ _ _ _ Hrun _ (abs1_run_init s Hs))
    as (c'' & Hrun' & Heq').
  split_and!; try done. exists c''. split; [done |].
  eapply config_eq_trans; [apply config_eq_sym; exact Heq' | done].
Qed.

Lemma string_not_empty (s : string) :
  s ≠ ""%string → list_ascii_of_string s ≠ [].
Proof. by destruct s. Qed.


(** ** The frames of the second execution *)

(** What a step of the second execution with a result has done. *)
Lemma pass2_body_inv (sts : list state) (verbosity : Z) (final_tape_len : nat)
    (l : locals) (out : list output) (r : flow (locals * list output)) :
  pass2_body sts verbosity final_tape_len l out = Done r →
  ∃ c s tp,
    load (tape l) (tape_ix l) = Done c
    ∧ deref sts (curr_state l) = Done s
    ∧ store (tape l) (tape_ix l) (write_char (select_action c s)) = Done tp
    ∧ ∃ out',
        out' = (if (verbosity =? 2)
                   || negb (Ascii.eqb (write_char (select_action c s)) c)
                then out ++ [Frame (S (step l)) (Some (number s)) tp
                               final_tape_len (tape_ix l)]
                else out)
        ∧ match r with
          | Break (l', o) =>
              o = out' ∧ tape l' = tp ∧ step l' = S (step l)
          | Continue (l', o) =>
              o = out' ∧ tape l' = tp ∧ step l' = S (step l)
          end.
Proof.
  destruct l as [tp0 len amt cs ix rel mn mx stp].
  unfold pass2_body, set_step, set_tape, set_tape_ix, set_curr_state.
  cbn [tape tape_len tape_expansion_amt curr_state tape_ix rel_tape_ix
       min_rel_tape_ix max_rel_tape_ix step].
  intros H.
  apply bind_Done in H as (c & Hc & H).
  apply bind_Done in H as (s & Hs & H).
  apply bind_Done in H as (tp & Htp & H).
  apply bind_Done in H as (out' & Hout & H).
  exists c, s, tp. split_and!; try done. exists out'. split.
  - destruct (_ || _); [| by injection Hout].
    unfold print_tape in Hout. destruct cs as [q|]; [| done].
    rewrite Hs in Hout. simpl in Hout. by injection Hout.
  - destruct (direction_to_move _ =? 0); by injection H as <-.
Qed.

#[local] Arguments pass2_body : simpl never.

Lemma each_frame_changes_app (prev : list ascii) (a b : list output) :
  each_frame_changes prev a →
  each_frame_changes (tape_after prev a) b →
  each_frame_changes prev (a ++ b).
Proof.
  revert prev. induction a as [|f a IH]; intros prev Ha Hb; simpl; [done |].
  destruct f as [| stp st tp len ix]; [done |].
  destruct Ha as [Hf Ha]. split; [done |]. by apply IH.
Qed.

Lemma tape_after_app (prev : list ascii) (a b : list output) :
  tape_after prev (a ++ b) = tape_after (tape_after prev a) b.
Proof.
  revert prev. induction a as [|f a IH]; intros prev; simpl; [done |].
  by destruct f.
Qed.

(** The frame that a step of the second execution adds. *)
Lemma pass2_body_frames (sts : list state) (verbosity : Z)
    (final_tape_len : nat) (l : locals) (out : list output)
    (r : flow (locals * list output)) :
  table_ok sts = true →
  wf2 sts final_tape_len l →
  pass2_body sts verbosity final_tape_len l out = Done r →
  ∃ l' new,
    (r = Break (l', out ++ new) ∨ r = Continue (l', out ++ new))
    ∧ step l' = S (step l)
    ∧ Forall (frame_wf sts final_tape_len) new
    ∧ Forall (fun f => frame_step f = Some (S (step l))) new
    ∧ (verbosity = 2 → frame_step <$> new = [Some (S (step l))])
    ∧ (verbosity ≠ 2 →
       each_frame_changes (tape l) new ∧ tape_after (tape l) new = tape l')
    ∧ (last out ≫= frame_tape = Some (tape l) →
       last (out ++ new) ≫= frame_tape = Some (tape l')).
Proof.
  intros Hok Hwf Hr.
  destruct (pass2_body_sim sts Hok verbosity final_tape_len l out Hwf)
    as (r' & Hr' & Hsim).
  rewrite Hr in Hr'. injection Hr' as <-.
  apply pass2_body_inv in Hr as (x & s & tp & Hx & Hs & Htp & o & Ho & Hr).
  assert (Htape' : tape_wf tp final_tape_len).
  { destruct r as [[l1 o1] | [l1 o1]]; destruct Hr as (_ & <- & _);
      by destruct Hsim as (c & _ & _ & Htape1 & _). }
  assert (Hframe : frame_wf sts final_tape_len
            (Frame (S (step l)) (Some (number s)) tp final_tape_len
               (tape_ix l))).
  { destruct Hwf as (_ & (q & Hq & _) & Hix).
    rewrite Hq in Hs. simpl in Hs.
    destruct (sts !! q) as [st|] eqn:Hst; [| discriminate].
    injection Hs as <-. split_and!; try done; try lia. by exists q, st. }
  assert (Hsame : negb (Ascii.eqb (write_char (select_action x s)) x) = false
                  → tp = tape l).
  { intros Hw. apply negb_false_iff, Ascii.eqb_eq in Hw.
    rewrite Hw in Htp. apply store_inv in Htp as [_ ->].
    apply load_Done in Hx as [_ Hx]. by apply list_insert_id. }
  assert (∃ new, o = out ++ new
            ∧ Forall (frame_wf sts final_tape_len) new
            ∧ Forall (fun f => frame_step f = Some (S (step l))) new
            ∧ (verbosity = 2 → frame_step <$> new = [Some (S (step l))])
            ∧ (verbosity ≠ 2 →
               each_frame_changes (tape l) new
               ∧ tape_after (tape l) new = tp)
            ∧ (last out ≫= frame_tape = Some (tape l) →
               last (out ++ new) ≫= frame_tape = Some tp))
    as (new & -> & Hnew & Hstp & Hv2 & Hchg & Hlast).
  { destruct (Z.eqb_spec verbosity 2) as [Hv | Hv]; simpl in Ho.
    - eexists [_]. split; [exact Ho |]. split_and!; try done.
      + by constructor.
      + by constructor.
      + intros _. by rewrite last_snoc.
    - destruct (negb _) eqn:Hw.
      + eexists [_]. split; [exact Ho |]. split_and!; try done.
        * by constructor.
        * by constructor.
        * intros _. simpl. split; [| done]. split; [| done].
          exists (write_char (select_action x s)).
          apply store_inv in Htp as [_ ->]. split; [done |].
          apply load_Done in Hx as [_ ->].
          apply negb_true_iff, Ascii.eqb_neq in Hw. congruence.
        * intros _. by rewrite last_snoc.
      + exists []. rewrite app_nil_r. split_and!; try done.
        * intros _. simpl. by rewrite (Hsame eq_refl).
        * by rewrite (Hsame eq_refl). }
  destruct r as [[l1 o1] | [l1 o1]]; destruct Hr as (-> & <- & Hstep1);
    exists l1, new; split_and!; try done; [by left | by right].
Qed.

(** The frames that the loop of the second execution adds while it follows
    a run of the machine of the design document. *)
Lemma pass2_loop_frames (sts : list state) (verbosity : Z)
    (final_tape_len : nat) (lo hi : Z) :
  table_ok sts = true →
  hi - lo < Z.of_nat final_tape_len →
  ∀ (k : nat) (c c' : Spec.config),
    Spec.halts_in sts lo hi k c c' →
    ∀ (l l' : locals) (out out' : list output) (fuel : nat),
      tape_wf (tape l) final_tape_len →
      state_wf sts (curr_state l) →
      min_rel_tape_ix l = lo →
      Spec.config_eq c (abs2 final_tape_len l) →
      pass2_loop sts verbosity final_tape_len fuel l out = Done (l', out') →
      Spec.config_eq c' (abs2 final_tape_len l')
      ∧ min_rel_tape_ix l' = lo
      ∧ ∃ new,
          out' = out ++ new
          ∧ Forall (frame_wf sts final_tape_len) new
          ∧ Forall (fun f => ∃ stp, frame_step f = Some stp
                                    ∧ (stp ≤ step l + k)%nat) new
          ∧ (verbosity = 2 → frame_step <$> new = Some <$> seq (S (step l)) k)
          ∧ (verbosity ≠ 2 →
             each_frame_changes (tape l) new
             ∧ tape_after (tape l) new = tape l')
          ∧ (last out ≫= frame_tape = Some (tape l) →
             last out' ≫= frame_tape = Some (tape l')).
Proof.
  intros Hok Hfl k c c' Hrun.
  induction Hrun as [c c' Hhead Hstep | k c c1 c1' c' Hhead Hstep Heq1 Hrun IH];
    intros l l' out out' fuel Htape Hstate Hmin Heq Hloop.
  all: destruct fuel as [|fuel]; [discriminate |].
  all: rewrite pass2_loop_S in Hloop.
  all: assert (Hwf : wf2 sts final_tape_len l) by
    (split; [done |]; split; [done |];
     destruct Heq as (_ & Hh & _); simpl in Hh; lia).
  all: destruct (pass2_body_sim sts Hok verbosity final_tape_len l out Hwf)
    as (r & Hr & Hsim).
  all: rewrite Hr in Hloop; simpl in Hloop.
  all: pose proof (step_config_eq sts _ _ Heq) as Hproper;
    rewrite Hstep in Hproper.
  all: apply (pass2_body_frames sts verbosity final_tape_len l out r Hok Hwf)
    in Hr as (l1 & new1 & Hr & Hst1 & Hnew1 & Hstp1 & Hv1 & Hchg1 & Hlast1).
  all: destruct Hr as [-> | ->];
    destruct Hsim as (c2 & Hc2 & Hsim); rewrite Hc2 in Hproper; try done.
  - injection Hloop as <- <-.
    destruct Hsim as (Heq2 & _ & _ & _ & _ & Hmin1 & _).
    split; [by eapply config_eq_trans |]. split; [congruence |].
    exists new1. split_and!; try done.
    eapply Forall_impl; [exact Hstp1 |]. intros f Hf.
    exists (S (step l)). split; [done | lia].
  - destruct Hsim as (Heq2 & Htape1 & Hstate1 & Hmin1 & Hstep1).
    simpl in Hloop.
    destruct (IH l1 l' (out ++ new1) out' fuel Htape1 Hstate1
                ltac:(congruence))
      as (Heq' & Hmin' & new & -> & Hnew & Hstp & Hsteps & Hchg & Hlast);
      [| done |].
    { eapply config_eq_trans; [apply config_eq_sym, Heq1 |].
      by eapply config_eq_trans. }
    rewrite Hstep1 in Hsteps, Hstp.
    split; [done |]. split; [done |].
    exists (new1 ++ new). rewrite app_assoc. split_and!; try done.
    + by apply Forall_app.
    + apply Forall_app. split.
      * eapply Forall_impl; [exact Hstp1 |]. intros f Hf.
        exists (S (step l)). split; [done | lia].
      * eapply Forall_impl; [exact Hstp |]. intros f (stp & Hf & Hle).
        exists stp. split; [done | lia].
    + intros Hv. rewrite fmap_app, Hv1, Hsteps by done. done.
    + intros Hv. destruct (Hchg1 Hv) as [Hc1 Ht1].
      destruct (Hchg Hv) as [Hc Ht]. rewrite <- Ht1 in Hc, Ht.
      split; [by apply each_frame_changes_app | by rewrite tape_after_app].
    + intros Hl. by apply Hlast, Hlast1.
Qed.

(** The frames of a run with a trace. *)
Lemma run_trace (sts : list state) (initial_tape : string)
    (max_tape_len max_steps : nat) (verbosity : Z) (fuel : nat)
    (outs : list output) :
  table_ok sts = true → initial_tape ≠ ""%string → verbosity ≠ 0 →
  run sts initial_tape max_tape_len max_steps verbosity fuel = Done outs →
  ∃ lo hi k c len,
    Spec.halts_in sts lo hi k
      (Spec.initial (list_ascii_of_string initial_tape)) c
    ∧ (k ≤ max_steps)%nat
    ∧ (len ≤ max_tape_len)%nat
    ∧ Forall (frame_wf sts len) outs
    ∧ Forall (fun f => ∃ stp, frame_step f = Some stp ∧ (stp ≤ k)%nat) outs
    ∧ (∃ n tp, head outs = Some (Frame 0 (Some n) tp len (- lo))
         ∧ ∀ r, window tp len (- lo) r
                = Spec.tape_of (list_ascii_of_string initial_tape) r)
    ∧ (∃ f tp, last outs = Some f ∧ frame_tape f = Some tp
         ∧ ∀ r, window tp len (- lo) r = Spec.tape c r)
    ∧ (verbosity = 2 → frame_step <$> outs = Some <$> seq 0 (S k))
    ∧ (verbosity ≠ 2 →
       ∃ f0 tp0 rest,
         outs = f0 :: rest ∧ frame_tape f0 = Some tp0
         ∧ each_frame_changes tp0 rest).
Proof.
  intros Hok Hne Hv H. apply string_not_empty in Hne.
  unfold run in H. cbv zeta in H.
  set (s := list_ascii_of_string initial_tape) in *.
  apply bind_Done in H as (n & Hn & H).
  apply bind_Done in H as (l1 & H1 & H).
  destruct (Z.eqb_spec verbosity 0) as [| _]; [done |].
  apply bind_Done in H as ([l2 out] & H2 & H). simpl in H. injection H as <-.
  pose proof (check_tape_Done _ _ _ Hn) as Hs.
  destruct (pass1_halts sts s max_tape_len max_steps l1 Hok Hs Hne H1)
    as (Hwf1 & Hle & _ & c & Hrun & Heq1).
  unfold pass1 in H1.
  destruct (pass1_loop_Done_deref _ _ _ _ _ _ H1) as [st0 Hst0].
  apply pass1_loop_bounds in H1 as (_ & Hmtl & Hmn & Hmx & _); [| simpl; lia].
  simpl in Hmn, Hmx, Hst0.
  assert (0 < length s)%nat by (destruct s; [done | simpl; lia]).
  destruct (pass2_init_spec s l1 Hs Hmn Hmx)
    as (l20 & Hinit & Htape0 & Hcs0 & Hix0 & Hmin0 & Hstep0 & Hwin).
  set (fl := Z.to_nat (max_rel_tape_ix l1 - min_rel_tape_ix l1 + 1)) in *.
  assert (Heq0 : Spec.config_eq (Spec.initial s) (abs2 fl l20)).
  { unfold Spec.config_eq. simpl. rewrite Hcs0, Hmin0, Hix0.
    split; [done |]. split; [lia |]. intros r.
    rewrite Hwin. symmetry. by apply window_tape_of. }
  assert (Hstate0 : state_wf sts (curr_state l20)).
  { rewrite Hcs0. exists 0%nat. split; [done |].
    destruct sts; [done | simpl; lia]. }
  unfold pass2 in H2. rewrite Hinit in H2. simpl in H2.
  unfold print_tape in H2. rewrite Hcs0 in H2.
  destruct (sts !! 0%nat) as [st|] eqn:Hst; [| discriminate].
  injection Hst0 as <-. simpl in H2. rewrite Hst in H2. simpl in H2.
  destruct (pass2_loop_frames sts verbosity fl (min_rel_tape_ix l1)
              (max_rel_tape_ix l1) Hok ltac:(lia) _ _ _ Hrun l20 l2 _ out fuel
              Htape0 Hstate0 Hmin0 Heq0 H2)
    as (Heq2 & Hmin2 & new & -> & Hnew & Hstp & Hsteps & Hchg & Hlast).
  exists (min_rel_tape_ix l1), (max_rel_tape_ix l1), (step l1), c, fl.
  assert (Hf0 : frame_wf sts fl
            (Frame (step l20) (Some (number st)) (tape l20) fl (tape_ix l20))).
  { split_and!; try done; try lia. by exists 0%nat, st. }
  split_and!; try done.
  - destruct Hwf1 as (_ & _ & _ & _ & _ & Hlo1 & Hhi1). lia.
  - by constructor.
  - constructor.
    + exists 0%nat. simpl. rewrite Hstep0. split; [done | lia].
    + by rewrite Hstep0 in Hstp.
  - exists (number st), (tape l20). simpl. rewrite Hstep0, Hix0.
    split; [done |]. intros r. rewrite Hwin. by apply window_tape_of.
  - specialize (Hlast eq_refl).
    destruct (last _) as [f|]; [| done]. simpl in Hlast.
    exists f, (tape l2). split_and!; try done.
    intros r. destruct Heq2 as (_ & _ & Ht). simpl in Ht.
    by rewrite Ht, Hmin2.
  - intros Hv2. rewrite fmap_app, Hsteps, Hstep0 by done.
    done.
  - intros Hv2. destruct (Hchg Hv2) as [Hc _].
    eexists _, (tape l20), new. split; [reflexivity |]. done.
Qed.

(** ** The lines of [print_tape] *)

Lemma digits_aux_length (base : nat) :
  (2 ≤ base)%nat →
  ∀ (k fuel n : nat) (acc : list ascii),
    (1 ≤ k)%nat → (n < base ^ k)%nat →
    (length (digits_aux base fuel n acc) ≤ k + length acc)%nat.
Proof.
  intros Hb. induction k as [|k IH]; intros fuel n acc Hk Hn; [lia |].
  destruct fuel as [|fuel]; simpl; [lia |].
  destruct (Nat.eqb_spec (n / base) 0) as [| Hnz]; [simpl; lia |].
  assert (Hdiv : (n / base < base ^ k)%nat).
  { apply Nat.Div0.div_lt_upper_bound. by rewrite <- Nat.pow_succ_r'. }
  assert (1 ≤ k)%nat.
  { destruct k; [| lia]. simpl in Hdiv. lia. }
  etrans; [apply IH; done |]. simpl. lia.
Qed.

Lemma digits_aux_acc (base : nat) :
  ∀ (fuel n : nat) (acc : list ascii),
    (length acc ≤ length (digits_aux base fuel n acc))%nat.
Proof.
  induction fuel as [|fuel IH]; intros n acc; simpl; [lia |].
  destruct (n / base =? 0)%nat; [simpl; lia |].
  etrans; [| apply IH]. simpl. lia.
Qed.

Lemma width5_length (base n : nat) :
  (2 ≤ base)%nat → (n < base ^ 5)%nat →
  length (width5 (digits base n)) = 5%nat.
Proof.
  intros Hb Hn. unfold width5, digits.
  pose proof (digits_aux_length base Hb 5 (S n) n [] ltac:(lia) Hn) as H.
  change (5 + length (@nil ascii))%nat with 5%nat in H.
  rewrite length_app, length_replicate. lia.
Qed.

Lemma cells_before_spec (tp : list ascii) :
  ∀ (n i : nat),
    (i + n ≤ length tp)%nat →
    cells_before tp (Z.of_nat i) n
    = Done (flat_map (fun c => [blank; c]) (take n (drop i tp))).
Proof.
  induction n as [|n IH]; intros i Hi; simpl; [done |].
  destruct (lookup_lt_is_Some_2 tp i) as [c Hc]; [lia |].
  rewrite (load_lookup _ _ _ Hc). simpl.
  replace (Z.of_nat i + 1) with (Z.of_nat (S i)) by lia.
  rewrite IH by lia. simpl.
  rewrite (drop_S _ _ _ Hc). done.
Qed.

Lemma cells_after_spec (tp : list ascii) :
  ∀ (n i : nat),
    (i + n ≤ length tp)%nat →
    cells_after tp (Z.of_nat i) n
    = Done (flat_map (fun c => [c; blank]) (take n (drop i tp))).
Proof.
  induction n as [|n IH]; intros i Hi; simpl; [done |].
  destruct (lookup_lt_is_Some_2 tp i) as [c Hc]; [lia |].
  rewrite (load_lookup _ _ _ Hc). simpl.
  replace (Z.of_nat i + 1) with (Z.of_nat (S i)) by lia.
  rewrite IH by lia. simpl.
  rewrite (drop_S _ _ _ Hc). done.
Qed.

Lemma flat_map_pair_length {A} (f : A → list A) (l : list A) :
  (∀ x, length (f x) = 2%nat) → length (flat_map f l) = (2 * length l)%nat.
Proof.
  intros Hf. induction l as [|x l IH]; simpl; [done |].
  rewrite length_app, Hf, IH. lia.
Qed.

Lemma flat_map_before_lookup (l : list ascii) (i : nat) :
  flat_map (fun c => [blank; c]) l !! (2 * i + 1)%nat = l !! i.
Proof.
  revert i. induction l as [|x l IH]; intros i; simpl; [done |].
  destruct i as [|i]; simpl; [done |].
  replace (i + S (i + 0) + 1)%nat with (S (2 * i + 1)) by lia. apply IH.
Qed.

Lemma flat_map_after_lookup (l : list ascii) (i : nat) :
  flat_map (fun c => [c; blank]) l !! (2 * i)%nat = l !! i.
Proof.
  revert i. induction l as [|x l IH]; intros i; simpl; [done |].
  destruct i as [|i]; simpl; [done |].
  replace (i + S (i + 0))%nat with (S (2 * i)) by lia. apply IH.
Qed.

Lemma to_int_small (z : Z) : - 2 ^ 31 ≤ z < 2 ^ 31 → to_int z = z.
Proof. intros H. unfold to_int. rewrite Z.mod_small; lia. Qed.

(** The layout of a line of [print_tape]. *)
Lemma print_tape_line_layout (tp : list ascii) (len : nat) (ix : Z)
    (stp n : nat) :
  (len ≤ length tp)%nat → 0 ≤ ix < Z.of_nat len → Z.of_nat len < 2 ^ 31 →
  Z.of_nat stp < 100000 → Z.of_nat n < 1048576 →
  ∃ line,
    print_tape_line tp (Z.of_nat len) ix stp (Some n) = Done line
    ∧ length line = (2 * len + 14)%nat
    ∧ (∀ i, (i < len)%nat → line !! (13 + 2 * i)%nat = tp !! i)
    ∧ line !! (12 + 2 * Z.to_nat ix)%nat
      = Some (if (0 <? stp)%nat then "|"%char else blank)
    ∧ line !! (14 + 2 * Z.to_nat ix)%nat
      = Some (if (0 <? stp)%nat then "|"%char else blank)
    ∧ line !! 11%nat = Some ":"%char
    ∧ last line = Some newline.
Proof.
  intros Hlen Hix Hint Hstp Hn. unfold print_tape_line. cbv zeta.
  rewrite !to_int_small by lia.
  assert (∃ k, ix = Z.of_nat k) as [k ->] by (exists (Z.to_nat ix); lia).
  rewrite !Nat2Z.id.
  pose proof (cells_before_spec tp k 0 ltac:(lia)) as Hbefore.
  change (Z.of_nat 0) with 0 in Hbefore. rewrite Hbefore. clear Hbefore.
  simpl mbind. cbv beta iota.
  destruct (lookup_lt_is_Some_2 tp k) as [c Hc]; [lia |].
  rewrite (load_lookup _ _ _ Hc).
  destruct (Z.eqb_spec (Z.of_nat k) (2 ^ 31 - 1)); [lia |].
  replace (Z.of_nat k + 1) with (Z.of_nat (S k)) by lia.
  rewrite (cells_after_spec tp _ (S k)) by lia.
  replace (Z.to_nat (Z.of_nat len - Z.of_nat (S k))) with (len - S k)%nat by lia.
  eexists. split; [reflexivity |]. rewrite <- !app_assoc.
  set (bar := if (0 <? stp)%nat then "|"%char else blank).
  set (F1 := width5 (digits 10 stp)). set (F2 := width5 (digits 16 n)).
  assert (HF1 : length F1 = 5%nat).
  { apply width5_length; [lia |]. apply Nat2Z.inj_lt.
    rewrite Nat2Z.inj_pow. exact Hstp. }
  assert (HF2 : length F2 = 5%nat).
  { apply width5_length; [lia |]. apply Nat2Z.inj_lt.
    rewrite Nat2Z.inj_pow. exact Hn. }
  rewrite drop_0.
  set (B := flat_map (fun c => [blank; c]) (take k tp)).
  set (A := flat_map (fun c => [c; blank]) (take (len - S k) (drop (S k) tp))).
  assert (HB : length B = (2 * k)%nat).
  { unfold B. rewrite flat_map_pair_length by done.
    rewrite length_take. lia. }
  assert (HA : length A = (2 * (len - S k))%nat).
  { unfold A. rewrite flat_map_pair_length by done.
    rewrite length_take, length_drop. lia. }
  set (P := F1 ++ blank :: F2 ++ [":"%char]).
  assert (HP : length P = 12%nat).
  { unfold P. rewrite length_app. simpl. rewrite length_app, HF1, HF2. done. }
  replace (F1 ++ blank :: F2 ++ [":"%char] ++ B ++ bar :: c :: bar :: A
           ++ [newline])
    with (P ++ B ++ [bar; c; bar] ++ A ++ [newline])
    by (unfold P; rewrite <- !app_assoc; simpl; by rewrite <- ?app_assoc).
  split_and!.
  - rewrite !length_app, HP, HB, HA. simpl. lia.
  - intros i Hi.
    rewrite lookup_app_r by lia. rewrite HP.
    destruct (decide (i < k)%nat) as [Hlt | Hge].
    + rewrite lookup_app_l by lia.
      replace (13 + 2 * i - 12)%nat with (2 * i + 1)%nat by lia.
      unfold B. rewrite flat_map_before_lookup.
      by rewrite lookup_take_lt by lia.
    + rewrite lookup_app_r by lia. rewrite HB.
      destruct (decide (i = k)) as [-> | Hne].
      * by replace (13 + 2 * k - 12 - 2 * k)%nat with 1%nat by lia.
      * replace (13 + 2 * i - 12 - 2 * k)%nat
          with (S (S (S (2 * (i - S k))))) by lia.
        set (m := (2 * (i - S k))%nat). simpl.
        rewrite lookup_app_l by lia.
        unfold A, m. rewrite flat_map_after_lookup.
        rewrite lookup_take_lt by lia. rewrite lookup_drop. f_equal. lia.
  - rewrite lookup_app_r by lia. rewrite HP.
    rewrite lookup_app_r by lia. rewrite HB.
    by replace (12 + 2 * k - 12 - 2 * k)%nat with 0%nat by lia.
  - rewrite lookup_app_r by lia. rewrite HP.
    rewrite lookup_app_r by lia. rewrite HB.
    by replace (14 + 2 * k - 12 - 2 * k)%nat with 2%nat by lia.
  - rewrite lookup_app_l by lia. unfold P.
    rewrite lookup_app_r by lia. rewrite HF1.
    change (11 - 5)%nat with 6%nat. simpl.
    rewrite lookup_app_r by lia. rewrite HF2. done.
  - rewrite !app_assoc. apply last_snoc.
Qed.

(** ** The listing of [print_tm] *)

Lemma digit_char_not_newline (d : nat) :
  (d < 16)%nat → digit_char d ≠ newline.
Proof.
  intros H. do 16 (destruct d as [|d]; [done |]). lia.
Qed.

Lemma digits_aux_no_newline (base : nat) :
  (2 ≤ base ≤ 16)%nat →
  ∀ (fuel n : nat) (acc : list ascii),
    Forall (fun c => c ≠ newline) acc →
    Forall (fun c => c ≠ newline) (digits_aux base fuel n acc).
Proof.
  intros Hb. induction fuel as [|fuel IH]; intros n acc Hacc; simpl; [done |].
  assert (Forall (fun c => c ≠ newline) (digit_char (n mod base) :: acc)).
  { constructor; [| done]. apply digit_char_not_newline.
    pose proof (Nat.mod_upper_bound n base ltac:(lia)). lia. }
  destruct (n / base =? 0)%nat; [done | by apply IH].
Qed.

Lemma width5_no_newline (base n : nat) :
  (2 ≤ base ≤ 16)%nat →
  Forall (fun c => c ≠ newline) (width5 (digits base n)).
Proof.
  intros Hb. unfold width5, digits. apply Forall_app. split.
  - by apply Forall_replicate.
  - by apply digits_aux_no_newline.
Qed.

Lemma print_int_no_newline (z : Z) :
  Forall (fun c => c ≠ newline) (print_int z).
Proof.
  unfold print_int, digits. destruct (z <? 0).
  - constructor; [done |]. apply digits_aux_no_newline; [lia | done].
  - apply digits_aux_no_newline; [lia | done].
Qed.

(** [print_tm_action] writes one line when [next_state] is a state of the
    table. *)
Lemma print_tm_action_line (sts : list state) (state_number : nat) (c : ascii)
    (a : action) (q : nat) :
  next_state a = Some q → (q < length sts)%nat → c ≠ newline →
  ∃ body,
    print_tm_action sts state_number c a = Done (body ++ [newline])
    ∧ Forall (fun c => c ≠ newline) body.
Proof.
  intros Hq Hlt Hc. unfold print_tm_action. rewrite Hq. simpl.
  destruct (lookup_lt_is_Some_2 sts q Hlt) as [s ->]. simpl.
  exists (width5 (digits 16 state_number)
          ++ [blank; c; blank; "-"%char; ">"%char; blank]
          ++ width5 (digits 16 (number s))
          ++ [blank] ++ print_int (value_to_write a)
          ++ [blank]
          ++ (if direction_to_move a =? -1 then ["L"%char]
              else if direction_to_move a =? 1 then ["R"%char]
              else ["S"%char; "T"%char; "O"%char; "P"%char])).
  split.
  - f_equal. rewrite <- !app_assoc. simpl. by rewrite <- ?app_assoc.
  - repeat (apply Forall_app; split).
    all: try (by apply Forall_replicate).
    all: try (apply digits_aux_no_newline; [lia | done]).
    all: try apply print_int_no_newline.
    all: try (by repeat constructor).
    destruct (_ =? -1); [by repeat constructor |].
    destruct (_ =? 1); by repeat constructor.
Qed.

Lemma print_tm_loop_lines (sts : list state) :
  table_ok sts = true →
  ∀ (n i : nat),
    (i + n ≤ length sts)%nat →
    ∃ lines,
      print_tm_loop sts i n = Done (concat lines)
      ∧ length lines = (2 * n)%nat
      ∧ Forall (fun l => ∃ body, l = body ++ [newline]
                           ∧ Forall (fun c => c ≠ newline) body) lines.
Proof.
  intros Hok. induction n as [|n IH]; intros i Hi; simpl.
  - by exists [].
  - destruct (lookup_lt_is_Some_2 sts i) as [s Hs]; [lia |].
    rewrite (load_lookup _ _ _ Hs). simpl.
    destruct (table_ok_action sts Hok i s chr0 Hs) as [_ (q0 & Hq0 & Hlt0)].
    destruct (table_ok_action sts Hok i s chr1 Hs) as [_ (q1 & Hq1 & Hlt1)].
    change (select_action chr0 s) with (action0 s) in Hq0.
    change (select_action chr1 s) with (action1 s) in Hq1.
    destruct (print_tm_action_line sts (number s) chr0 _ _ Hq0 Hlt0)
      as (b0 & -> & Hb0); [done |].
    destruct (print_tm_action_line sts (number s) chr1 _ _ Hq1 Hlt1)
      as (b1 & -> & Hb1); [done |].
    simpl. destruct (IH (S i)) as (lines & -> & Hlen & Hlines); [lia |].
    simpl. exists ((b0 ++ [newline]) :: (b1 ++ [newline]) :: lines).
    split_and!.
    + simpl. by rewrite <- !app_assoc.
    + simpl. lia.
    + repeat constructor; eauto.
Qed.

(** ** Further properties of the codec *)

Lemma bind_Exit {A B} (m : outcome A) (f : A → outcome B) (e : error) :
  m ≫= f = Exit e → m = Exit e ∨ ∃ a, m = Done a ∧ f a = Exit e.
Proof. destruct m; simpl; intros H; try done; [right; eauto | left; congruence]. Qed.

(** [check_tm] ends with the first character that is not a bit. *)
Lemma check_tm_first_bad (pre post : list ascii) (c : ascii) (n : nat) :
  Forall is_bit_char pre → c ≠ chr0 → c ≠ chr1 →
  check_tm (pre ++ c :: post) n = Exit (InvalidCharacter (n + length pre)).
Proof.
  intros Hpre H0 H1. revert n.
  induction Hpre as [|x pre [-> | ->] _ IH]; intros n; simpl.
  - destruct (Ascii.eqb_spec c chr0); [done |].
    destruct (Ascii.eqb_spec c chr1); [done |]. simpl. f_equal. f_equal. lia.
  - rewrite IH. f_equal. f_equal. lia.
  - rewrite IH. f_equal. f_equal. lia.
Qed.

Lemma check_tm_Exit (s : list ascii) (n : nat) (e : error) :
  check_tm s n = Exit e →
  ∃ pre c post,
    s = pre ++ c :: post ∧ Forall is_bit_char pre ∧ c ≠ chr0 ∧ c ≠ chr1
    ∧ e = InvalidCharacter (n + length pre).
Proof.
  revert n. induction s as [|x s IH]; intros n; simpl; [done |].
  destruct (Ascii.eqb_spec x chr0) as [-> | H0]; simpl.
  - intros H. apply IH in H as (pre & c & post & -> & Hpre & Hc0 & Hc1 & ->).
    exists (chr0 :: pre), c, post. split_and!; try done.
    + constructor; [by left | done].
    + simpl. f_equal. lia.
  - destruct (Ascii.eqb_spec x chr1) as [-> | H1]; simpl.
    + intros H. apply IH in H as (pre & c & post & -> & Hpre & Hc0 & Hc1 & ->).
      exists (chr1 :: pre), c, post. split_and!; try done.
      * constructor; [by right | done].
      * simpl. f_equal. lia.
    + intros H. injection H as <-. exists [], x, s.
      split_and!; try done. simpl. f_equal. lia.
Qed.

Lemma check_tape_Exit (s : list ascii) (n : nat) (e : error) :
  check_tape s n = Exit e →
  ∃ pre c post,
    s = pre ++ c :: post ∧ Forall is_bit_char pre ∧ c ≠ chr0 ∧ c ≠ chr1
    ∧ e = InvalidTapeCharacter (n + length pre).
Proof.
  revert n. induction s as [|x s IH]; intros n; simpl; [done |].
  destruct (Ascii.eqb_spec x chr0) as [-> | H0]; simpl.
  - intros H. apply IH in H as (pre & c & post & -> & Hpre & Hc0 & Hc1 & ->).
    exists (chr0 :: pre), c, post. split_and!; try done.
    + constructor; [by left | done].
    + simpl. f_equal. lia.
  - destruct (Ascii.eqb_spec x chr1) as [-> | H1]; simpl.
    + intros H. apply IH in H as (pre & c & post & -> & Hpre & Hc0 & Hc1 & ->).
      exists (chr1 :: pre), c, post. split_and!; try done.
      * constructor; [by right | done].
      * simpl. f_equal. lia.
    + intros H. injection H as <-. exists [], x, s.
      split_and!; try done. simpl. f_equal. lia.
Qed.

(** The outcomes of [parse_tm] after the tokens. *)
Lemma parse_tm_after_tokens (tm : string) (tokens : list token) :
  tm_tokens tm = Done tokens →
  (∃ sts, parse_tm tm = Done sts)
  ∨ parse_tm tm = Exit IncompleteStateDefinition
  ∨ (∃ k body term,
       split_actions [] tokens !! k = Some (body, term)
       ∧ ((∃ s t, parse_tm tm = Exit (UndefinedStateReference s t))
          ∨ (parse_tm tm = Undefined ∧ (33 < length body)%nat))).
Proof.
  intros Htok. pose proof (parse_tm_tokens tm tokens Htok) as [Hodd Heven].
  cbv zeta in Hodd, Heven.
  destruct (Nat.eq_dec (count_actions tokens 0 mod 2)%nat 0%nat) as [He | Ho];
    [| right; left; auto].
  specialize (Heven He).
  destruct (parse_tm tm) as [sts | e | |] eqn:E; [left; by eexists | | |].
  - destruct Heven as (k & body & term & r' & Hk & Hr & Hbody).
    destruct r' as [a | e' | |]; try discriminate. injection Hr as ->.
    apply body_outcome_Exit in Hbody as (addr & bit & _ & _ & -> & _).
    right; right. exists k, body, term. split; [done |]. left. by eexists _, _.
  - destruct Heven as (k & body & term & r' & Hk & Hr & Hbody).
    destruct r' as [a | e' | |]; try discriminate.
    apply body_outcome_Undefined in Hbody.
    right; right. exists k, body, term. split; [done |]. by right.
  - destruct Heven as (k & body & term & r' & Hk & Hr & Hbody).
    destruct r' as [a | e' | |]; try discriminate.
    by apply body_outcome_not_OutOfFuel in Hbody.
Qed.

(** The tokens of a buffer of bits spell the buffer: the ones of a token
    begun, then the buffer, are the encodings of the new tokens and the ones
    that no zero ends. *)
Lemma tokenize_spells (s : list ascii) :
  Forall is_bit_char s →
  ∀ (i : nat) (tl : Z) (acc tokens : list token),
    0 ≤ tl →
    tokenize s i tl acc = Done tokens →
    ∃ new tl',
      tokens = acc ++ new
      ∧ replicate (Z.to_nat tl) chr1 ++ s
        = encode_tokens new ++ replicate tl' chr1.
Proof.
  induction 1 as [|c s Hc _ IH]; intros i tl acc tokens Htl H; simpl in H.
  - injection H as <-. exists [], (Z.to_nat tl).
    by rewrite !app_nil_r.
  - destruct (Z.ltb_spec 5 (tl + 1)); [discriminate |].
    destruct Hc as [-> | ->]; simpl in H.
    + apply IH in H as (new & tl' & -> & Hs); [| lia].
      exists (token_of_val (tl + 1 - 1) :: new), tl'.
      split; [by rewrite <- app_assoc |].
      simpl in Hs. simpl encode_tokens.
      replace (tl + 1 - 1) with (Z.of_nat (Z.to_nat tl)) by lia.
      rewrite encode_token_of_val by lia.
      rewrite <- !app_assoc. simpl. by rewrite Hs.
    + apply IH in H as (new & tl' & -> & Hs); [| lia].
      exists new, tl'. split; [done |].
      rewrite <- Hs. replace (Z.to_nat (tl + 1)) with (S (Z.to_nat tl)) by lia.
      rewrite replicate_S_end, <- app_assoc. done.
Qed.

(** The bodies of the actions hold no terminator. *)
Lemma split_actions_nonterm (ts : list token) :
  ∀ (p : list token) (k : nat) (body : list token) (term : token),
    Forall nonterm p →
    split_actions p ts !! k = Some (body, term) →
    Forall nonterm body.
Proof.
  induction ts as [|t ts IH]; intros p k body term Hp H; simpl in H; [done |].
  destruct (is_terminator t) eqn:Ht.
  - destruct k as [|k]; simpl in H.
    + by injection H as <- <-.
    + eapply IH; [constructor | exact H].
  - eapply IH; [| exact H]. apply Forall_app. split; [done |].
    by constructor.
Qed.

Lemma body_outcome_value (states_len state_number : nat) (body : list token)
    (term : token) (a : action) :
  Forall nonterm body →
  body_outcome states_len state_number body term = Done a →
  value_to_write a = 0 ∨ value_to_write a = 1.
Proof.
  intros Hb H. apply body_outcome_Done in H as (_ & H0 & H1 & H2).
  destruct body as [|t addr _] using rev_ind.
  - left. by apply H0.
  - apply Forall_app in Hb as [_ Ht]. rewrite Forall_singleton in Ht.
    destruct addr as [|x addr].
    + destruct (H1 t eq_refl) as [-> _]. by apply nonterm_val.
    + destruct (H2 (x :: addr) t ltac:(done) eq_refl) as [-> _].
      by apply nonterm_val.
Qed.

Lemma parse_tm_Done_table (tm : string) (sts : list state) :
  parse_tm tm = Done sts →
  sts ≠ []
  ∧ table_ok sts = true
  ∧ (∀ i st, sts !! i = Some st →
       number st = i
       ∧ (value_to_write (action0 st) = 0 ∨ value_to_write (action0 st) = 1)
       ∧ (value_to_write (action1 st) = 0 ∨ value_to_write (action1 st) = 1))
  ∧ ∀ st, sts !! 0%nat = Some st → action0 st = Action 0 1 (Some 0%nat).
Proof.
  intros H. pose proof (parse_tm_table_ok tm sts H) as Hok.
  apply parse_tm_Done in H as (tokens & Htok & Hcount & Hlen & Hact).
  destruct (tm_tokens_two_actions tm tokens Htok)
    as (mid & last & Htokens & Hlast & Htwo).
  assert (Hall : ∀ k st, (k < 2 * length sts)%nat →
            sts !! (k / 2)%nat = Some st →
            (value_to_write (if (k mod 2 =? 0)%nat then action0 st
                             else action1 st) = 0
             ∨ value_to_write (if (k mod 2 =? 0)%nat then action0 st
                               else action1 st) = 1)
            ∧ number st = (k / 2)%nat).
  { intros k st Hk Hst.
    destruct (lookup_lt_is_Some_2 (split_actions [] tokens) k)
      as [[body term] Hbt]; [lia |].
    destruct (Hact k body term Hbt) as (st' & Hst' & Hnum & Hbody).
    rewrite Hst in Hst'. injection Hst' as <-. split; [| done].
    eapply body_outcome_value; [| exact Hbody].
    by eapply (split_actions_nonterm tokens []). }
  split_and!; try done.
  - intros ->. simpl in Hcount. lia.
  - intros i st Hst.
    assert (Hi : (i < length sts)%nat) by (by eapply lookup_lt_Some).
    assert (H0 : ((2 * i) / 2 = i)%nat)
      by (rewrite Nat.mul_comm; apply Nat.div_mul; lia).
    assert (H1 : ((2 * i + 1) / 2 = i)%nat) by (div2 (2 * i + 1)%nat; lia).
    assert (M0 : ((2 * i) mod 2 = 0)%nat) by (div2 (2 * i)%nat; lia).
    assert (M1 : ((2 * i + 1) mod 2 = 1)%nat) by (div2 (2 * i + 1)%nat; lia).
    destruct (Hall (2 * i)%nat st ltac:(lia)) as [Hv0 Hn];
      [by rewrite H0 |].
    destruct (Hall (2 * i + 1)%nat st ltac:(lia)) as [Hv1 _];
      [by rewrite H1 |].
    rewrite M0 in Hv0. rewrite M1 in Hv1. rewrite H0 in Hn.
    simpl in Hv0, Hv1. done.
  - intros st Hst. subst tokens.
    destruct (Hact 0%nat [] RIGHT eq_refl) as (st' & Hst' & _ & Hbody).
    change (0 / 2)%nat with 0%nat in Hst'. rewrite Hst in Hst'.
    injection Hst' as <-. change (0 mod 2 =? 0)%nat with true in Hbody.
    cbv [body_outcome] in Hbody. simpl in Hbody. by injection Hbody.
Qed.

(** ** The errors of [run] *)

Lemma bind_no_Exit {A B} (m : outcome A) (f : A → outcome B) :
  (∀ e, m ≠ Exit e) → (∀ a e, f a ≠ Exit e) → ∀ e, m ≫= f ≠ Exit e.
Proof.
  intros Hm Hf e. destruct m as [a | e0 | |]; simpl; auto.
  exfalso. by apply (Hm e0).
Qed.

Lemma load_no_Exit {A} (buf : list A) (i : Z) (e : error) : load buf i ≠ Exit e.
Proof. unfold load. by repeat case_match. Qed.

Lemma store_no_Exit {A} (buf : list A) (i : Z) (x : A) (e : error) :
  store buf i x ≠ Exit e.
Proof. unfold store. by case_match. Qed.

Lemma deref_no_Exit (sts : list state) (p : option nat) (e : error) :
  deref sts p ≠ Exit e.
Proof. unfold deref. by repeat case_match. Qed.

Lemma blit_no_Exit (dst : list ascii) (off : Z) (src : list ascii) (e : error) :
  blit dst off src ≠ Exit e.
Proof. unfold blit. by case_match. Qed.

Lemma strcpy_no_Exit (dst : list ascii) (off : Z) (src : list ascii)
    (e : error) :
  strcpy dst off src ≠ Exit e.
Proof. unfold strcpy. case_match; [apply blit_no_Exit | done]. Qed.

Lemma expand_no_Exit (l : locals) (e : error) : expand l ≠ Exit e.
Proof.
  revert e. unfold expand, fill. apply bind_no_Exit; [| done].
  case_match.
  - apply bind_no_Exit; [intros e; apply blit_no_Exit |]. intros t.
    apply bind_no_Exit; [intros e; apply strcpy_no_Exit | done].
  - apply bind_no_Exit; [intros e; apply strcpy_no_Exit |]. intros t.
    apply bind_no_Exit; [intros e; apply blit_no_Exit |]. intros t'.
    apply bind_no_Exit; [intros e; apply store_no_Exit | done].
Qed.

Lemma pass1_body_no_Exit (sts : list state) (l : locals) (e : error) :
  pass1_body sts l ≠ Exit e.
Proof.
  revert e. unfold pass1_body.
  apply bind_no_Exit; [intros e; apply load_no_Exit |]. intros c.
  apply bind_no_Exit; [intros e; apply deref_no_Exit |]. intros s.
  apply bind_no_Exit; [intros e; apply store_no_Exit |]. intros tp.
  case_match; [done |].
  apply bind_no_Exit; [| done].
  case_match; [intros e; apply expand_no_Exit | done].
Qed.

(** The first execution exits for its two limits only. *)
Lemma pass1_loop_Exit (sts : list state) (max_tape_len max_steps : nat) :
  ∀ (fuel : nat) (l : locals) (e : error),
    pass1_loop sts max_tape_len max_steps fuel l = Exit e →
    e = StepLimitExceeded max_steps ∨ e = TapeLimitExceeded max_tape_len.
Proof.
  induction fuel as [|fuel IH]; intros l e H; [discriminate |].
  rewrite pass1_loop_S in H.
  destruct (step l =? max_steps)%nat; [left; congruence |].
  destruct (max_tape_len <? _)%nat; [right; congruence |].
  apply bind_Exit in H as [H | (r & _ & H)].
  - by apply pass1_body_no_Exit in H.
  - destruct r as [l' | l']; [discriminate | by eapply IH].
Qed.

Lemma scan_back_no_Exit (tp : list ascii) :
  ∀ (n : nat) (s : Z) (e : error), scan_back tp n s ≠ Exit e.
Proof.
  induction n as [|n IH]; intros s e; [done |].
  unfold scan_back; fold scan_back. revert e.
  apply bind_no_Exit; [intros e; apply load_no_Exit |]. intros c e.
  case_match; [apply IH | done].
Qed.

Lemma trimmed_output_no_Exit (l : locals) (e : error) :
  trimmed_output l ≠ Exit e.
Proof.
  revert e. unfold trimmed_output.
  apply bind_no_Exit; [intros e; apply store_no_Exit |]. intros tp.
  apply bind_no_Exit; [intros e; apply scan_back_no_Exit |]. intros s e.
  by case_match.
Qed.

Lemma print_tape_no_Exit (sts : list state) (tp : list ascii) (len : nat)
    (ix : Z) (stp : nat) (st : option nat) (e : error) :
  print_tape sts tp len ix stp st ≠ Exit e.
Proof.
  revert e. unfold print_tape. case_match; [| done].
  apply bind_no_Exit; [intros e; apply deref_no_Exit | done].
Qed.

Lemma pass2_body_no_Exit (sts : list state) (verbosity : Z)
    (final_tape_len : nat) (l : locals) (out : list output) (e : error) :
  pass2_body sts verbosity final_tape_len l out ≠ Exit e.
Proof.
  revert e. unfold pass2_body.
  apply bind_no_Exit; [intros e; apply load_no_Exit |]. intros c.
  apply bind_no_Exit; [intros e; apply deref_no_Exit |]. intros s.
  apply bind_no_Exit; [intros e; apply store_no_Exit |]. intros tp.
  apply bind_no_Exit.
  - case_match; [| done].
    apply bind_no_Exit; [intros e; apply print_tape_no_Exit | done].
  - intros o e. by case_match.
Qed.

Lemma pass2_loop_no_Exit (sts : list state) (verbosity : Z)
    (final_tape_len : nat) :
  ∀ (fuel : nat) (l : locals) (out : list output) (e : error),
    pass2_loop sts verbosity final_tape_len fuel l out ≠ Exit e.
Proof.
  induction fuel as [|fuel IH]; intros l out e; [done |].
  rewrite pass2_loop_S. revert e.
  apply bind_no_Exit; [intros e; apply pass2_body_no_Exit |].
  intros [r | r] e; [done | apply IH].
Qed.

Lemma pass2_no_Exit (sts : list state) (s : list ascii) (verbosity : Z)
    (fuel : nat) (l : locals) (e : error) :
  pass2 sts s verbosity fuel l ≠ Exit e.
Proof.
  revert e. unfold pass2. apply bind_no_Exit.
  - unfold pass2_init, fill. cbv zeta. case_match; [done |].
    apply bind_no_Exit; [intros e; apply blit_no_Exit |]. intros t.
    apply bind_no_Exit; [intros e; apply blit_no_Exit |]. intros t'.
    apply bind_no_Exit; [intros e; apply store_no_Exit | done].
  - intros r.
    apply bind_no_Exit; [intros e; apply print_tape_no_Exit |].
    intros f e. apply pass2_loop_no_Exit.
Qed.


(** ** The trace of the changes and the trace of every step *)

(** A step of the second execution does the same for every verbosity, but
    for the frame that it prints. *)
Lemma pass2_body_verbosity (sts : list state) (verbosity : Z)
    (final_tape_len : nat) (l : locals) (out : list output)
    (r : flow (locals * list output)) :
  pass2_body sts verbosity final_tape_len l out = Done r →
  ∃ l' stp st ix (changed brk : bool),
    (if changed then tape l' ≠ tape l else tape l' = tape l)
    ∧ ∀ v' out',
        pass2_body sts v' final_tape_len l out'
        = Done ((if brk then Break else Continue)
                  (l', if (v' =? 2) || changed
                       then out' ++ [Frame stp st (tape l') final_tape_len ix]
                       else out')).
Proof.
  destruct l as [tp0 len amt cs ix rel mn mx stp].
  unfold pass2_body, set_step, set_tape, set_tape_ix, set_curr_state.
  cbn [tape tape_len tape_expansion_amt curr_state tape_ix rel_tape_ix
       min_rel_tape_ix max_rel_tape_ix step].
  intros H.
  apply bind_Done in H as (c & Hc & H).
  apply bind_Done in H as (s & Hs & H).
  apply bind_Done in H as (tp & Htp & _).
  rewrite Hc, Hs. cbn [mbind outcome_bind]. rewrite Htp.
  cbn [mbind outcome_bind].
  set (w := write_char (select_action c s)) in *.
  assert (Hprint : print_tape sts tp final_tape_len ix (S stp) cs
                   = Done (Frame (S stp) (Some (number s)) tp final_tape_len ix)).
  { unfold print_tape. destruct cs as [q|]; [| done]. by rewrite Hs. }
  assert (Htape : if negb (Ascii.eqb w c) then tp ≠ tp0 else tp = tp0).
  { apply store_inv in Htp as [Hix ->]. apply load_Done in Hc as [_ Hc].
    destruct (Ascii.eqb_spec w c) as [-> | Hne]; simpl.
    - by apply list_insert_id.
    - intros E. apply (f_equal (fun t => t !! Z.to_nat ix)) in E.
      rewrite list_lookup_insert_eq in E by lia. congruence. }
  destruct (direction_to_move (select_action c s) =? 0) eqn:Hd.
  - eexists (Locals tp len amt cs ix rel mn mx (S stp)), (S stp),
      (Some (number s)), ix, (negb (Ascii.eqb w c)), true.
    split; [exact Htape |]. intros v' out'. cbn [tape].
    destruct ((v' =? 2) || negb (Ascii.eqb w c)); [| done].
    by rewrite Hprint.
  - eexists (Locals tp len amt (next_state (select_action c s))
               (ix + direction_to_move (select_action c s)) rel mn mx (S stp)),
      (S stp), (Some (number s)), ix, (negb (Ascii.eqb w c)), false.
    split; [exact Htape |]. intros v' out'. cbn [tape].
    destruct ((v' =? 2) || negb (Ascii.eqb w c)); [| done].
    by rewrite Hprint.
Qed.

(** With a verbosity other than 2 the loop of the second execution prints
    the frames that it prints with verbosity 2, but for those that hold
    the tape of the frame before them. *)
Lemma pass2_loop_changed (sts : list state) (verbosity : Z)
    (final_tape_len : nat) :
  verbosity ≠ 2 →
  ∀ (fuel : nat) (l l' : locals) (out1 out2 out1' : list output),
    pass2_loop sts verbosity final_tape_len fuel l out1 = Done (l', out1') →
    ∃ new2,
      pass2_loop sts 2 final_tape_len fuel l out2 = Done (l', out2 ++ new2)
      ∧ out1' = out1 ++ changed_frames (tape l) new2.
Proof.
  intros Hv. apply Z.eqb_neq in Hv.
  induction fuel as [|fuel IH]; intros l l' out1 out2 out1' H; [discriminate |].
  rewrite pass2_loop_S in H. rewrite pass2_loop_S.
  apply bind_Done in H as (r & Hbody & H).
  destruct (pass2_body_verbosity _ _ _ _ _ _ Hbody)
    as (l1 & stp & st & ix & changed & brk & Hch & Hall).
  rewrite (Hall verbosity out1), Hv in Hbody.
  change (false || changed) with changed in Hbody. injection Hbody as <-.
  rewrite (Hall 2 out2). change ((2 =? 2) || changed) with true.
  cbn [mbind outcome_bind].
  set (F := Frame stp st (tape l1) final_tape_len ix) in *.
  assert (Hcf : ∀ rest,
            changed_frames (tape l) (F :: rest)
            = (if changed then [F] else []) ++ changed_frames (tape l1) rest).
  { intros rest. unfold F. simpl.
    destruct (List.list_eq_dec Ascii.ascii_dec (tape l1) (tape l)) as [E | E];
      destruct changed; done. }
  destruct brk.
  - injection H as <- <-. exists [F]. split; [done |].
    rewrite Hcf. destruct changed; simpl; by rewrite ?app_nil_r.
  - cbn [fst snd] in H |- *.
    destruct (IH l1 l' _ (out2 ++ [F]) out1' H) as (new2 & H2 & ->).
    exists (F :: new2). split.
    + rewrite H2, <- app_assoc. done.
    + rewrite Hcf. destruct changed; simpl; by rewrite <- ?app_assoc.
Qed.

(** The same for [run]. *)
Lemma run_changed_frames (sts : list state) (initial_tape : string)
    (max_tape_len max_steps : nat) (verbosity : Z) (fuel : nat)
    (outs : list output) :
  verbosity ≠ 0 → verbosity ≠ 2 →
  run sts initial_tape max_tape_len max_steps verbosity fuel = Done outs →
  ∃ f0 tp0 every,
    run sts initial_tape max_tape_len max_steps 2 fuel = Done (f0 :: every)
    ∧ frame_tape f0 = Some tp0
    ∧ outs = f0 :: changed_frames tp0 every.
Proof.
  intros Hv0 Hv2. unfold run. cbv zeta. intros H.
  apply bind_Done in H as (n & -> & H).
  apply bind_Done in H as (l1 & -> & H).
  cbn [mbind outcome_bind].
  destruct (Z.eqb_spec verbosity 0) as [| _]; [done |].
  change (2 =? 0) with false. cbv iota.
  apply bind_Done in H as ([l2 out] & H & Hout). injection Hout as <-.
  unfold pass2 in *.
  apply bind_Done in H as (r0 & -> & H).
  apply bind_Done in H as (f0 & Hf0 & H).
  cbn [mbind outcome_bind]. rewrite Hf0. cbn [mbind outcome_bind].
  destruct (pass2_loop_changed sts verbosity (snd r0) Hv2 fuel (fst r0) l2
              [f0] [f0] out H) as (new2 & -> & ->).
  exists f0, (tape (fst r0)), new2. split_and!; try done.
  unfold print_tape in Hf0.
  destruct (curr_state (fst r0)).
  - apply bind_Done in Hf0 as (s & _ & Hf0). by injection Hf0 as <-.
  - by injection Hf0 as <-.
Qed.
(** ** Further properties of [parse_tm] *)

(** X1: [parse_tm] fails with [InvalidCharacter i] exactly when [i] is the
    index, in the given string, of its first character that is neither '0'
    nor '1'; no later stage reports this error. *)
Theorem parse_tm_invalid_character (tm : string) (i : nat) :
  parse_tm tm = Exit (InvalidCharacter i)
  ↔ ∃ pre c post,
      list_ascii_of_string tm = pre ++ c :: post
      ∧ Forall is_bit_char pre ∧ c ≠ chr0 ∧ c ≠ chr1 ∧ i = length pre.
Proof.
  split.
  - intros H.
    destruct (tm_tokens tm) as [tokens | e | |] eqn:E.
    + destruct (parse_tm_after_tokens tm tokens E)
        as [[sts Hp] | [Hp | (k & body & term & _ & [(s & t & Hp) | [Hp _]])]];
        rewrite Hp in H; discriminate.
    + unfold parse_tm in H. rewrite E in H. simpl in H. injection H as ->.
      unfold tm_tokens in E. cbv zeta in E.
      apply bind_Exit in E as [Ec | (n & _ & Ht)].
      * apply check_tm_Exit in Ec as (pre & c & post & Hs & Hpre & H0 & H1 & He).
        injection He as ->. by exists pre, c, post.
      * destruct (tokenize_cases (wrap_tm (list_ascii_of_string tm)) 0 0 [])
          as [[tokens Ht'] | [idx Ht']]; rewrite Ht' in Ht; discriminate.
    + unfold parse_tm in H. rewrite E in H. discriminate.
    + unfold parse_tm in H. rewrite E in H. discriminate.
  - intros (pre & c & post & Hs & Hpre & H0 & H1 & ->).
    unfold parse_tm, tm_tokens. rewrite Hs.
    by rewrite (check_tm_first_bad pre post c 0 Hpre H0 H1).
Qed.

(** X2: the tokenizer loses nothing: a list of tokens is the result of the
    tokenizer on a specification exactly when the encodings of the tokens,
    one after the other, are the specification between the implicit "110"
    and "110". *)
Theorem tm_tokens_spell_padded_specification (tm : string)
    (tokens : list token) :
  tm_tokens tm = Done tokens
  ↔ encode_tokens tokens = wrap_tm (list_ascii_of_string tm).
Proof.
  set (s := list_ascii_of_string tm). split.
  - intros H. apply tm_tokens_Done in H as [Hs H]. fold s in Hs, H.
    assert (Hw : Forall is_bit_char (wrap_tm s)).
    { unfold wrap_tm. repeat (apply Forall_app; split); try done;
        repeat constructor; by (left + right). }
    destruct (tokenize_spells _ Hw 0%nat 0 [] tokens ltac:(lia) H)
      as (new & tl' & -> & Hsp).
    change (replicate (Z.to_nat 0) chr1 ++ wrap_tm s) with (wrap_tm s) in Hsp.
    change ([] ++ new) with new. rewrite Hsp.
    destruct tl' as [|m]; [by rewrite app_nil_r |].
    exfalso.
    assert (Hl : last (wrap_tm s) = Some chr0).
    { unfold wrap_tm.
      change [chr1; chr1; chr0] with ([chr1; chr1] ++ [chr0]) at 2.
      rewrite !app_assoc. apply last_snoc. }
    rewrite Hsp, replicate_S_end, app_assoc, last_snoc in Hl. discriminate.
  - intros H.
    assert (Hw : Forall is_bit_char (wrap_tm s))
      by (rewrite <- H; apply encode_tokens_bits).
    unfold wrap_tm in Hw. apply Forall_app in Hw as [_ Hw].
    apply Forall_app in Hw as [Hs _].
    unfold tm_tokens. cbv zeta. fold s. rewrite (check_tm_bits s 0 Hs).
    change (tokenize (wrap_tm s) 0 0 [] = Done tokens).
    rewrite <- H, <- (app_nil_r (encode_tokens tokens)).
    by rewrite tokenize_encode_tokens.
Qed.

(** X3: the two loops over the padded specification agree: the tokenizer
    writes as many tokens as the loop before it counted zeros, which is the
    length that the array of tokens was allocated with. *)
Theorem tokens_fill_allocation (tm : string) (tokens : list token) :
  tm_tokens tm = Done tokens →
  length tokens = count_zeros (wrap_tm (list_ascii_of_string tm)) 0.
Proof.
  intros H. apply tm_tokens_Done in H as [_ H].
  by apply tokenize_length in H.
Qed.

Lemma tokens_fill_allocation_witness :
  length [RIGHT; STOP] = count_zeros (wrap_tm (list_ascii_of_string "11")) 0.
Proof. apply (tokens_fill_allocation "11" [RIGHT; STOP]). reflexivity. Defined.

(** X4: every call of [parse_tm] ends: with a table, with one of its four
    errors, or, when the body of an action has more than 33 tokens, with
    the shift by 32 or more that C leaves undefined. *)
Theorem parse_tm_outcomes (tm : string) :
  (∃ sts, parse_tm tm = Done sts)
  ∨ (∃ i, parse_tm tm = Exit (InvalidCharacter i))
  ∨ (∃ i, parse_tm tm = Exit (InvalidRunLength i))
  ∨ parse_tm tm = Exit IncompleteStateDefinition
  ∨ (∃ s t, parse_tm tm = Exit (UndefinedStateReference s t))
  ∨ (parse_tm tm = Undefined
     ∧ ∃ tokens k body term,
         tm_tokens tm = Done tokens
         ∧ split_actions [] tokens !! k = Some (body, term)
         ∧ (33 < length body)%nat).
Proof.
  destruct (tm_tokens_cases tm) as [[tokens H] | [[i H] | [i H]]].
  - destruct (parse_tm_after_tokens tm tokens H)
      as [Hp | [Hp | (k & body & term & Hk & [Hp | [Hp Hlen]])]].
    + by left.
    + by do 3 right; left.
    + by do 4 right; left.
    + do 5 right. split; [done |]. by exists tokens, k, body, term.
  - right; left. exists i. unfold parse_tm. by rewrite H.
  - right; right; left. exists i. unfold parse_tm. by rewrite H.
Qed.

(** X5: a table that [parse_tm] returns is one that [run] is meant for: it
    has a state, every direction is -1, 0 or +1 and every [next_state] is a
    state of the table, the state at index [i] has the number [i], every
    action writes 0 or 1, and the first action of state 0 is the one of the
    implicit prefix: write 0, move right, stay in state 0. *)
Theorem parse_tm_table_well_formed (tm : string) (sts : list state) :
  parse_tm tm = Done sts →
  sts ≠ []
  ∧ table_ok sts = true
  ∧ (∀ i st, sts !! i = Some st →
       number st = i
       ∧ (value_to_write (action0 st) = 0 ∨ value_to_write (action0 st) = 1)
       ∧ (value_to_write (action1 st) = 0 ∨ value_to_write (action1 st) = 1))
  ∧ ∀ st, sts !! 0%nat = Some st → action0 st = Action 0 1 (Some 0%nat).
Proof. apply parse_tm_Done_table. Qed.

Lemma parse_tm_table_well_formed_witness :
  [State 0 (Action 0 1 (Some 0%nat)) (Action 0 0 (Some 0%nat))] ≠ []
  ∧ table_ok [State 0 (Action 0 1 (Some 0%nat)) (Action 0 0 (Some 0%nat))]
    = true
  ∧ (∀ i st,
       [State 0 (Action 0 1 (Some 0%nat)) (Action 0 0 (Some 0%nat))] !! i
       = Some st →
       number st = i
       ∧ (value_to_write (action0 st) = 0 ∨ value_to_write (action0 st) = 1)
       ∧ (value_to_write (action1 st) = 0 ∨ value_to_write (action1 st) = 1))
  ∧ ∀ st,
      [State 0 (Action 0 1 (Some 0%nat)) (Action 0 0 (Some 0%nat))] !! 0%nat
      = Some st →
      action0 st = Action 0 1 (Some 0%nat).
Proof.
  apply (parse_tm_table_well_formed "11"
           [State 0 (Action 0 1 (Some 0%nat)) (Action 0 0 (Some 0%nat))]).
  reflexivity.
Defined.

(** ** Further properties of [run] *)

(** X6: [run] exits with three errors only, whatever the table is: with
    [InvalidTapeCharacter] at the index of the first character of the tape
    that is neither '0' nor '1', with [StepLimitExceeded max_steps] or with
    [TapeLimitExceeded max_tape_len]. *)
Theorem run_exit_errors (sts : list state) (initial_tape : string)
    (max_tape_len max_steps : nat) (verbosity : Z) (fuel : nat) (e : error) :
  run sts initial_tape max_tape_len max_steps verbosity fuel = Exit e →
  (∃ pre c post,
     list_ascii_of_string initial_tape = pre ++ c :: post
     ∧ Forall is_bit_char pre ∧ c ≠ chr0 ∧ c ≠ chr1
     ∧ e = InvalidTapeCharacter (length pre))
  ∨ e = StepLimitExceeded max_steps
  ∨ e = TapeLimitExceeded max_tape_len.
Proof.
  unfold run. cbv zeta. intros H.
  apply bind_Exit in H as [H | (n & _ & H)].
  - left. apply check_tape_Exit in H as (pre & c & post & ? & ? & ? & ? & ->).
    by exists pre, c, post.
  - right. apply bind_Exit in H as [H | (l & _ & H)].
    + by apply pass1_loop_Exit in H.
    + exfalso. destruct (verbosity =? 0).
      * apply bind_Exit in H as [H | (s & _ & H)]; [| discriminate].
        by apply trimmed_output_no_Exit in H.
      * apply bind_Exit in H as [H | (r & _ & H)]; [| discriminate].
        by apply pass2_no_Exit in H.
Qed.

Lemma run_exit_errors_witness :
  (∃ pre c post,
     list_ascii_of_string "0" = pre ++ c :: post
     ∧ Forall is_bit_char pre ∧ c ≠ chr0 ∧ c ≠ chr1
     ∧ StepLimitExceeded 1 = InvalidTapeCharacter (length pre))
  ∨ StepLimitExceeded 1 = StepLimitExceeded 1
  ∨ StepLimitExceeded 1 = TapeLimitExceeded 100.
Proof.
  apply (run_exit_errors
           [State 0 (Action 0 1 (Some 0%nat)) (Action 0 0 (Some 0%nat))]
           "0" 100 1 0 0 (StepLimitExceeded 1)).
  reflexivity.
Defined.

(** X7: a tape with a character that is neither '0' nor '1' is rejected
    before the machine makes a step, with the index of the first such
    character, whatever the table, the limits and the verbosity are. *)
Theorem run_rejects_bad_tape_character (sts : list state)
    (pre post : list ascii) (c : ascii)
    (max_tape_len max_steps : nat) (verbosity : Z) (fuel : nat) :
  Forall is_bit_char pre → c ≠ chr0 → c ≠ chr1 →
  run sts (string_of_list_ascii (pre ++ c :: post)) max_tape_len max_steps
    verbosity fuel
  = Exit (InvalidTapeCharacter (length pre)).
Proof.
  intros Hpre H0 H1. unfold run. cbv zeta.
  rewrite list_ascii_of_string_of_list_ascii.
  by rewrite (check_tape_first_bad pre post c 0 Hpre H0 H1).
Qed.

Lemma run_rejects_bad_tape_character_witness :
  run [] (string_of_list_ascii ([chr0] ++ "2"%char :: [chr1])) 5 5 2 0
  = Exit (InvalidTapeCharacter (length [chr0])).
Proof.
  apply (run_rejects_bad_tape_character [] [chr0] [chr1] "2"%char 5 5 2 0).
  - repeat constructor.
  - discriminate.
  - discriminate.
Defined.

(** X8: a first execution that halts has made at least one and at most
    [max_steps] steps, its buffer has at most [max_tape_len] cells, and the
    range of the cells that its head was on holds the cells of the initial
    tape. *)
Theorem pass1_result_within_limits (sts : list state) (initial_tape : list ascii)
    (max_tape_len max_steps : nat) (l : locals) :
  pass1 sts initial_tape max_tape_len max_steps = Done l →
  (1 ≤ step l ≤ max_steps)%nat
  ∧ (tape_len l ≤ max_tape_len)%nat
  ∧ min_rel_tape_ix l ≤ 0
  ∧ Z.of_nat (length initial_tape) - 1 ≤ max_rel_tape_ix l.
Proof.
  intros H. unfold pass1 in H.
  apply pass1_loop_bounds in H as (Hs & Hl & Hmn & Hmx & _); [| simpl; lia].
  simpl in Hs, Hmn, Hmx. split_and!; lia.
Qed.

Lemma pass1_result_within_limits_witness :
  (1 ≤ step (Locals [chr0; chr0; chr0; chr1; NUL] 4 1024 (Some 0%nat) 2 2 0 3 3)
   ≤ 100)%nat
  ∧ (tape_len (Locals [chr0; chr0; chr0; chr1; NUL] 4 1024 (Some 0%nat)
                 2 2 0 3 3) ≤ 100)%nat
  ∧ min_rel_tape_ix (Locals [chr0; chr0; chr0; chr1; NUL] 4 1024 (Some 0%nat)
                       2 2 0 3 3) ≤ 0
  ∧ Z.of_nat (length [chr0; chr0; chr1; chr1]) - 1
    ≤ max_rel_tape_ix (Locals [chr0; chr0; chr0; chr1; NUL] 4 1024
                         (Some 0%nat) 2 2 0 3 3).
Proof.
  apply (pass1_result_within_limits
           [State 0 (Action 0 1 (Some 0%nat)) (Action 0 0 (Some 0%nat))]
           [chr0; chr0; chr1; chr1] 100 100).
  reflexivity.
Defined.

(** X9: the buffer of the first execution grows geometrically: after [e]
    expansions the next expansion adds [1024 * 2 ^ e] cells and the buffer
    has the cells of the initial tape and [1024 * (2 ^ e - 1)] more. *)
Theorem pass1_tape_grows_geometrically (sts : list state)
    (initial_tape : list ascii) (max_tape_len max_steps : nat) (l : locals) :
  pass1 sts initial_tape max_tape_len max_steps = Done l →
  ∃ e : nat,
    tape_expansion_amt l = (1024 * 2 ^ e)%nat
    ∧ tape_len l = (length initial_tape + 1024 * (2 ^ e - 1))%nat.
Proof.
  intros H. unfold pass1 in H.
  apply pass1_loop_bounds in H as (_ & _ & _ & _ & e & He1 & He2);
    [| simpl; lia].
  exists e. done.
Qed.

Lemma pass1_tape_grows_geometrically_witness :
  ∃ e : nat,
    tape_expansion_amt
      (Locals (replicate 1023 blank ++ [chr1; chr1; NUL]) 1025 2048
         (Some 1%nat) 1023 (-1) (-1) 0 2)
    = (1024 * 2 ^ e)%nat
    ∧ tape_len
        (Locals (replicate 1023 blank ++ [chr1; chr1; NUL]) 1025 2048
           (Some 1%nat) 1023 (-1) (-1) 0 2)
      = (length [chr0] + 1024 * (2 ^ e - 1))%nat.
Proof.
  apply (pass1_tape_grows_geometrically
           [State 0 (Action 1 (-1) (Some 1%nat)) (Action 0 0 (Some 0%nat));
            State 1 (Action 1 0 (Some 0%nat)) (Action 0 0 (Some 0%nat))]
           [chr0] 2000 10).
  vm_compute. reflexivity.
Defined.

(** X10: greater limits change no result: what [run] prints under some
    limits it prints under every greater [max_tape_len] and [max_steps]. *)
Theorem run_limits_monotone (sts : list state) (initial_tape : string)
    (max_tape_len max_steps max_tape_len' max_steps' : nat) (verbosity : Z)
    (fuel : nat) (outs : list output) :
  (max_tape_len ≤ max_tape_len')%nat → (max_steps ≤ max_steps')%nat →
  run sts initial_tape max_tape_len max_steps verbosity fuel = Done outs →
  run sts initial_tape max_tape_len' max_steps' verbosity fuel = Done outs.
Proof.
  intros Hlen Hsteps. unfold run. cbv zeta. intros H.
  apply bind_Done in H as (n & -> & H).
  apply bind_Done in H as (l & H1 & H).
  change (Done n ≫= ?f) with (f n). cbv beta.
  unfold pass1 in *.
  erewrite pass1_loop_mono; [exact H | exact Hlen | exact Hsteps | | | exact H1];
    simpl; lia.
Qed.

Lemma run_limits_monotone_witness :
  run [State 0 (Action 1 (-1) (Some 1%nat)) (Action 0 0 (Some 0%nat));
       State 1 (Action 1 0 (Some 0%nat)) (Action 0 0 (Some 0%nat))]
    "0" 3000 20 0 0
  = Done [Line [chr1]].
Proof.
  apply (run_limits_monotone
           [State 0 (Action 1 (-1) (Some 1%nat)) (Action 0 0 (Some 0%nat));
            State 1 (Action 1 0 (Some 0%nat)) (Action 0 0 (Some 0%nat))]
           "0" 2000 10 3000 20 0 0 [Line [chr1]]).
  - lia.
  - lia.
  - vm_compute. reflexivity.
Defined.



(** On the tape "0011" the machine that stops on the first 1 makes this
    read: no cell before its head is blank. *)
Example run_reads_before_tape :
  run [State 0 (Action 0 1 (Some 0%nat)) (Action 0 0 (Some 0%nat))]
    "0011" 100 10 0 10 = Undefined
  ∧ run [State 0 (Action 0 1 (Some 0%nat)) (Action 0 0 (Some 0%nat))]
      "0011" 100 10 2 10
    = Done [Frame 0 (Some 0%nat) [chr0; chr0; chr1; chr1; NUL] 4 0;
            Frame 1 (Some 0%nat) [chr0; chr0; chr1; chr1; NUL] 4 0;
            Frame 2 (Some 0%nat) [chr0; chr0; chr1; chr1; NUL] 4 1;
            Frame 3 (Some 0%nat) [chr0; chr0; chr0; chr1; NUL] 4 2].
Proof. split; reflexivity. Qed.



(** X13: the expansion of the tape changes nothing of the machine: for a
    buffer of [tape_len] cells and its terminator it succeeds, to the left
    for a negative [tape_ix] and to the right otherwise, adds
    [tape_expansion_amt] cells, doubles [tape_expansion_amt], and the
    variables hold the same state, head and tape as before. *)
Theorem expand_keeps_machine_tape (l : locals) :
  tape_wf (tape l) (tape_len l) →
  ∃ l',
    expand l = Done l'
    ∧ tape_wf (tape l') (tape_len l')
    ∧ tape_len l' = (tape_len l + tape_expansion_amt l)%nat
    ∧ tape_expansion_amt l' = (tape_expansion_amt l * 2)%nat
    ∧ Spec.config_eq (abs1 l') (abs1 l).
Proof.
  destruct l as [tp len amt cs ix rel mn mx stp].
  intros (cells & Htp & Hlen & Hcells). simpl in *. subst tp len.
  assert (Hblank : Forall is_cell (replicate amt blank)).
  { apply Forall_replicate. by right; right. }
  destruct (Z.ltb_spec ix 0) as [Hneg | Hpos].
  - rewrite expand_left by done. eexists. split; [reflexivity |]. simpl.
    split_and!; try done.
    + exists (replicate amt blank ++ cells). split_and!.
      * by rewrite <- app_assoc.
      * rewrite length_app, length_replicate. lia.
      * by apply Forall_app.
    + split; [done |]. split; [done |]. intros r. simpl.
      rewrite (app_assoc _ cells [NUL]).
      rewrite (window_cells (replicate amt blank ++ cells) [NUL])
        by (rewrite length_app, length_replicate; lia).
      rewrite (window_cells cells [NUL]) by done.
      rewrite length_app, length_replicate.
      replace (ix + Z.of_nat amt - rel) with (ix - rel + Z.of_nat amt) by lia.
      rewrite (Nat.add_comm amt). apply window_grow_left.
  - rewrite expand_right by done. eexists. split; [reflexivity |]. simpl.
    split_and!; try done.
    + exists (cells ++ replicate amt blank). split_and!.
      * by rewrite <- app_assoc.
      * rewrite length_app, length_replicate. lia.
      * by apply Forall_app.
    + split; [done |]. split; [done |]. intros r. simpl.
      rewrite (app_assoc cells _ [NUL]).
      rewrite (window_cells (cells ++ replicate amt blank) [NUL])
        by (rewrite length_app, length_replicate; lia).
      rewrite (window_cells cells [NUL]) by done.
      rewrite length_app, length_replicate.
      apply window_grow_right.
Qed.

Lemma expand_keeps_machine_tape_witness :
  ∃ l',
    expand (Locals [chr0; NUL] 1 2 (Some 0%nat) (-1) (-1) (-1) 0 1) = Done l'
    ∧ tape_wf (tape l') (tape_len l')
    ∧ tape_len l' = (1 + 2)%nat
    ∧ tape_expansion_amt l' = (2 * 2)%nat
    ∧ Spec.config_eq (abs1 l')
        (abs1 (Locals [chr0; NUL] 1 2 (Some 0%nat) (-1) (-1) (-1) 0 1)).
Proof.
  apply (expand_keeps_machine_tape
           (Locals [chr0; NUL] 1 2 (Some 0%nat) (-1) (-1) (-1) 0 1)).
  exists [chr0]. split_and!; [reflexivity | reflexivity |].
  repeat constructor.
Defined.

(** X14: what [run] prints without trace is the tape of the machine of the
    design document: there is a run of that machine from the initial tape
    that halts within [max_steps] steps, and the line printed is the cells
    of its final tape that end at the head and begin after the last blank
    cell before the head; the line is not empty and holds '0' and '1'
    only. *)
Theorem run_prints_tape_left_of_head (sts : list state) (initial_tape : string)
    (max_tape_len max_steps fuel : nat) (outs : list output) :
  table_ok sts = true → initial_tape ≠ ""%string →
  run sts initial_tape max_tape_len max_steps 0 fuel = Done outs →
  ∃ lo hi k c line,
    outs = [Line line]
    ∧ (k ≤ max_steps)%nat
    ∧ Spec.halts_in sts lo hi k
        (Spec.initial (list_ascii_of_string initial_tape)) c
    ∧ line ≠ []
    ∧ (∀ j x, line !! j = Some x →
         is_bit_char x
         ∧ Spec.tape c (Spec.head c - Z.of_nat (length line) + 1 + Z.of_nat j)
           = symbol_of_char x)
    ∧ Spec.tape c (Spec.head c - Z.of_nat (length line)) = Spec.Blank.
Proof.
  intros Hok Hne H. apply string_not_empty in Hne.
  unfold run in H. cbv zeta in H.
  set (s := list_ascii_of_string initial_tape) in *.
  apply bind_Done in H as (n & Hn & H).
  apply bind_Done in H as (l & H1 & H). simpl in H.
  apply bind_Done in H as (line & Hline & H). injection H as <-.
  pose proof (check_tape_Done _ _ _ Hn) as Hs.
  destruct (pass1_halts sts s max_tape_len max_steps l Hok Hs Hne H1)
    as (Hwf & Hle & Hw & c & Hrun & Heq).
  destruct l as [tp len amt cs ix rel mn mx stp].
  destruct Hwf as ((cells & Htp & Hlen & Hcells) & Hix & _).
  simpl in *. subst tp len.
  destruct Hw as (w & Hw & Hwb). rewrite lookup_app_l in Hw by lia.
  destruct (trimmed_output_cases cells amt cs ix rel mn mx stp Hcells Hix)
    as [(out & first & Hout & Hfirst & Hdef & Hnb & Hblank) | [Hu _]];
    [by exists w | | by rewrite Hu in Hline].
  rewrite Hout in Hline. injection Hline as <-.
  assert (Hleft : first = 0 ∨ cells !! Z.to_nat (first - 1) = Some blank)
    by (by right).
  exists mn, mx, stp, c, out.
  assert (Hlenout : Z.of_nat (length out) = ix - first + 1).
  { rewrite Hdef, length_take, length_drop. lia. }
  destruct Heq as (_ & Hhead & Htape). simpl in Hhead, Htape.
  split_and!; try done.
  - intros ->. simpl in Hlenout. lia.
  - intros j x Hj.
    assert (Hjlt : (j < length out)%nat) by (by eapply lookup_lt_Some).
    assert (Hx : cells !! (Z.to_nat first + j)%nat = Some x).
    { rewrite Hdef in Hj. rewrite lookup_take_Some in Hj.
      destruct Hj as [Hj _]. by rewrite lookup_drop in Hj. }
    assert (Hcell : is_cell x) by (by eapply Forall_lookup_1).
    assert (Hxb : x ≠ blank).
    { rewrite Forall_lookup in Hnb. by eapply Hnb. }
    split.
    + destruct Hcell as [-> | [-> | ->]]; [by left | by right | done].
    + rewrite Htape, Hhead, window_cells by done.
      apply window_inside; [lia |].
      replace (Z.to_nat (ix - rel + (rel - Z.of_nat (length out) + 1
                                     + Z.of_nat j)))
        with (Z.to_nat first + j)%nat by lia.
      done.
  - rewrite Htape, Hhead, window_cells by done.
    destruct Hleft as [-> | Hleft].
    + unfold window. cbv zeta.
      destruct (Z.leb_spec 0 (ix - rel + (rel - Z.of_nat (length out))));
        [lia | done].
    + assert (0 < first).
      { destruct (Z.ltb_spec 0 first); [done |].
        assert (first = 0) by lia. subst first. simpl in Hleft.
        destruct cells as [|c0 cells']; [simpl in Hix; lia |].
        simpl in Hleft. injection Hleft as ->.
        rewrite Hdef in Hnb. simpl in Hnb.
        destruct (Z.to_nat (ix - 0 + 1)) eqn:E; [lia |].
        simpl in Hnb. by apply Forall_cons_1 in Hnb as [? _]. }
      rewrite (window_inside cells _ _ blank); [done | lia |].
      replace (Z.to_nat (ix - rel + (rel - Z.of_nat (length out))))
        with (Z.to_nat (first - 1)) by lia.
      done.
Qed.

Lemma run_prints_tape_left_of_head_witness :
  ∃ lo hi k c line,
    [Line [chr1]] = [Line line]
    ∧ (k ≤ 10)%nat
    ∧ Spec.halts_in
        [State 0 (Action 1 (-1) (Some 1%nat)) (Action 0 0 (Some 0%nat));
         State 1 (Action 1 0 (Some 0%nat)) (Action 0 0 (Some 0%nat))]
        lo hi k (Spec.initial (list_ascii_of_string "0")) c
    ∧ line ≠ []
    ∧ (∀ j x, line !! j = Some x →
         is_bit_char x
         ∧ Spec.tape c (Spec.head c - Z.of_nat (length line) + 1 + Z.of_nat j)
           = symbol_of_char x)
    ∧ Spec.tape c (Spec.head c - Z.of_nat (length line)) = Spec.Blank.
Proof.
  apply (run_prints_tape_left_of_head
           [State 0 (Action 1 (-1) (Some 1%nat)) (Action 0 0 (Some 0%nat));
            State 1 (Action 1 0 (Some 0%nat)) (Action 0 0 (Some 0%nat))]
           "0" 2000 10 0 [Line [chr1]]).
  - reflexivity.
  - discriminate.
  - vm_compute. reflexivity.
Defined.

(** X15: the trace of a run that halts, on a tape that is not empty: every
    frame shows a buffer of the same length, with the head on one of its
    cells and a state of the table; the first frame is step 0 with the
    initial tape; the tape of the last frame is the final tape of the
    machine of the design document, also with verbosity 1, where the steps
    that change no cell print no frame; with verbosity 2 there is one frame
    for each step, numbered from 0. *)
Theorem traced_run_frames (sts : list state) (initial_tape : string)
    (max_tape_len max_steps : nat) (verbosity : Z) (fuel : nat)
    (outs : list output) :
  table_ok sts = true → initial_tape ≠ ""%string → verbosity ≠ 0 →
  run sts initial_tape max_tape_len max_steps verbosity fuel = Done outs →
  ∃ lo hi k c len,
    Spec.halts_in sts lo hi k
      (Spec.initial (list_ascii_of_string initial_tape)) c
    ∧ (k ≤ max_steps)%nat
    ∧ (len ≤ max_tape_len)%nat
    ∧ Forall (frame_wf sts len) outs
    ∧ Forall (fun f => ∃ stp, frame_step f = Some stp ∧ (stp ≤ k)%nat) outs
    ∧ (∃ n tp, head outs = Some (Frame 0 (Some n) tp len (- lo))
         ∧ ∀ r, window tp len (- lo) r
                = Spec.tape_of (list_ascii_of_string initial_tape) r)
    ∧ (∃ f tp, last outs = Some f ∧ frame_tape f = Some tp
         ∧ ∀ r, window tp len (- lo) r = Spec.tape c r)
    ∧ (verbosity = 2 → frame_step <$> outs = Some <$> seq 0 (S k)).
Proof.
  intros Hok Hne Hv H.
  destruct (run_trace sts initial_tape max_tape_len max_steps verbosity fuel
              outs Hok Hne Hv H)
    as (lo & hi & k & c & len & H1 & H2 & H3 & H4 & H5 & H6 & H7 & H8 & _).
  by exists lo, hi, k, c, len.
Qed.

Lemma traced_run_frames_witness :
  ∃ outs,
    run [State 0 (Action 0 1 (Some 0%nat)) (Action 0 0 (Some 0%nat))]
      "01" 100 100 2 10 = Done outs
    ∧ ∃ lo hi k c len,
        Spec.halts_in
          [State 0 (Action 0 1 (Some 0%nat)) (Action 0 0 (Some 0%nat))]
          lo hi k (Spec.initial (list_ascii_of_string "01")) c
        ∧ (k ≤ 100)%nat
        ∧ (len ≤ 100)%nat
        ∧ Forall (frame_wf
                    [State 0 (Action 0 1 (Some 0%nat)) (Action 0 0 (Some 0%nat))]
                    len) outs
        ∧ Forall (fun f => ∃ stp, frame_step f = Some stp ∧ (stp ≤ k)%nat) outs
        ∧ (∃ n tp, head outs = Some (Frame 0 (Some n) tp len (- lo))
             ∧ ∀ r, window tp len (- lo) r
                    = Spec.tape_of (list_ascii_of_string "01") r)
        ∧ (∃ f tp, last outs = Some f ∧ frame_tape f = Some tp
             ∧ ∀ r, window tp len (- lo) r = Spec.tape c r)
        ∧ (2 = 2 → frame_step <$> outs = Some <$> seq 0 (S k)).
Proof.
  exists [Frame 0 (Some 0%nat) [chr0; chr1; NUL] 2 0;
          Frame 1 (Some 0%nat) [chr0; chr1; NUL] 2 0;
          Frame 2 (Some 0%nat) [chr0; chr0; NUL] 2 1].
  split; [reflexivity |].
  apply (traced_run_frames
           [State 0 (Action 0 1 (Some 0%nat)) (Action 0 0 (Some 0%nat))]
           "01" 100 100 2 10).
  - reflexivity.
  - discriminate.
  - discriminate.
  - reflexivity.
Defined.

(** X16: with a verbosity other than 0 and 2 the trace shows the changes
    of the tape, all of them and nothing else: it is the trace of
    verbosity 2, which has a frame for every step, without the frames that
    hold the same tape as the frame before them; so after the frame of
    step 0 every frame differs from the frame before it in the cell of its
    head, and in no other cell, and every step that changes a cell has its
    frame. *)
Theorem change_trace_shows_changes (sts : list state) (initial_tape : string)
    (max_tape_len max_steps : nat) (verbosity : Z) (fuel : nat)
    (outs : list output) :
  table_ok sts = true → initial_tape ≠ ""%string →
  verbosity ≠ 0 → verbosity ≠ 2 →
  run sts initial_tape max_tape_len max_steps verbosity fuel = Done outs →
  ∃ f0 tp0 rest every,
    outs = f0 :: rest ∧ frame_tape f0 = Some tp0
    ∧ each_frame_changes tp0 rest
    ∧ run sts initial_tape max_tape_len max_steps 2 fuel = Done (f0 :: every)
    ∧ rest = changed_frames tp0 every.
Proof.
  intros Hok Hne Hv Hv2 H.
  destruct (run_trace sts initial_tape max_tape_len max_steps verbosity fuel
              outs Hok Hne Hv H)
    as (lo & hi & k & c & len & _ & _ & _ & _ & _ & _ & _ & _ & Hchg).
  destruct (Hchg Hv2) as (f0 & tp0 & rest & -> & Hf0 & Hrest).
  destruct (run_changed_frames sts initial_tape max_tape_len max_steps
              verbosity fuel _ Hv Hv2 H)
    as (f0' & tp0' & every & Hrun2 & Hf0' & Heq).
  injection Heq as <- ->. rewrite Hf0 in Hf0'. injection Hf0' as <-.
  by exists f0, tp0, (changed_frames tp0 every), every.
Qed.

Lemma change_trace_shows_changes_witness :
  ∃ f0 tp0 rest every,
    [Frame 0 (Some 0%nat) [chr0; chr0; chr1; NUL] 3 0;
     Frame 3 (Some 0%nat) [chr0; chr0; chr0; NUL] 3 2] = f0 :: rest
    ∧ frame_tape f0 = Some tp0
    ∧ each_frame_changes tp0 rest
    ∧ run [State 0 (Action 0 1 (Some 0%nat)) (Action 0 0 (Some 0%nat))]
        "001" 100 100 2 10 = Done (f0 :: every)
    ∧ rest = changed_frames tp0 every.
Proof.
  apply (change_trace_shows_changes
           [State 0 (Action 0 1 (Some 0%nat)) (Action 0 0 (Some 0%nat))]
           "001" 100 100 1 10).
  - reflexivity.
  - discriminate.
  - discriminate.
  - discriminate.
  - reflexivity.
Defined.

(** The two traces of this run: the steps 1 and 2 change no cell and have
    no frame with verbosity 1. *)
Example change_trace_of_001 :
  run [State 0 (Action 0 1 (Some 0%nat)) (Action 0 0 (Some 0%nat))]
    "001" 100 100 2 10
  = Done [Frame 0 (Some 0%nat) [chr0; chr0; chr1; NUL] 3 0;
          Frame 1 (Some 0%nat) [chr0; chr0; chr1; NUL] 3 0;
          Frame 2 (Some 0%nat) [chr0; chr0; chr1; NUL] 3 1;
          Frame 3 (Some 0%nat) [chr0; chr0; chr0; NUL] 3 2]
  ∧ run [State 0 (Action 0 1 (Some 0%nat)) (Action 0 0 (Some 0%nat))]
      "001" 100 100 1 10
    = Done [Frame 0 (Some 0%nat) [chr0; chr0; chr1; NUL] 3 0;
            Frame 3 (Some 0%nat) [chr0; chr0; chr0; NUL] 3 2].
Proof. split; reflexivity. Qed.

(** ** The lines printed *)

(** X17: the columns of a line of [print_tape]: for a step below 100000, a
    state number below 16^5 and the head on a cell of the buffer, the line
    has [2 * tape_len + 14] characters, the cell [i] of the buffer is at
    column [13 + 2 * i] wherever the head is, the two columns around the
    cell of the head hold '|', or ' ' at step 0, the colon after the state
    number is at column 11 and the line ends with a newline. *)
Theorem print_tape_line_aligned (tp : list ascii) (len : nat) (ix : Z)
    (stp n : nat) :
  (len ≤ length tp)%nat → 0 ≤ ix < Z.of_nat len → Z.of_nat len < 2 ^ 31 →
  Z.of_nat stp < 100000 → Z.of_nat n < 1048576 →
  ∃ line,
    print_tape_line tp (Z.of_nat len) ix stp (Some n) = Done line
    ∧ length line = (2 * len + 14)%nat
    ∧ (∀ i, (i < len)%nat → line !! (13 + 2 * i)%nat = tp !! i)
    ∧ line !! (12 + 2 * Z.to_nat ix)%nat
      = Some (if (0 <? stp)%nat then "|"%char else blank)
    ∧ line !! (14 + 2 * Z.to_nat ix)%nat
      = Some (if (0 <? stp)%nat then "|"%char else blank)
    ∧ line !! 11%nat = Some ":"%char
    ∧ last line = Some newline.
Proof. apply print_tape_line_layout. Qed.

Lemma print_tape_line_aligned_witness :
  ∃ line,
    print_tape_line [chr0; chr1; NUL] (Z.of_nat 2) 1 3 (Some 10%nat) = Done line
    ∧ length line = (2 * 2 + 14)%nat
    ∧ (∀ i, (i < 2)%nat → line !! (13 + 2 * i)%nat = [chr0; chr1; NUL] !! i)
    ∧ line !! (12 + 2 * Z.to_nat 1)%nat
      = Some (if (0 <? 3)%nat then "|"%char else blank)
    ∧ line !! (14 + 2 * Z.to_nat 1)%nat
      = Some (if (0 <? 3)%nat then "|"%char else blank)
    ∧ line !! 11%nat = Some ":"%char
    ∧ last line = Some newline.
Proof.
  apply (print_tape_line_aligned [chr0; chr1; NUL] 2 1 3 10).
  - simpl. lia.
  - lia.
  - simpl. lia.
  - simpl. lia.
  - simpl. lia.
Defined.

(** X18: the lines of a trace line up: with [max_steps] below 100000,
    [max_tape_len] below 2^31 and state numbers below 16^5, every frame of
    a run with a trace is printed as a line of the same length, with the
    cell [i] of its buffer at column [13 + 2 * i]. *)
Theorem traced_run_lines_aligned (sts : list state) (initial_tape : string)
    (max_tape_len max_steps : nat) (verbosity : Z) (fuel : nat)
    (outs : list output) :
  table_ok sts = true →
  (∀ q st, sts !! q = Some st → Z.of_nat (number st) < 1048576) →
  initial_tape ≠ ""%string → verbosity ≠ 0 →
  Z.of_nat max_steps < 100000 → Z.of_nat max_tape_len < 2 ^ 31 →
  run sts initial_tape max_tape_len max_steps verbosity fuel = Done outs →
  ∃ len,
    ∀ f, f ∈ outs →
      ∃ tp line,
        frame_tape f = Some tp
        ∧ render f = Done line
        ∧ length line = (2 * len + 14)%nat
        ∧ ∀ i, (i < len)%nat → line !! (13 + 2 * i)%nat = tp !! i.
Proof.
  intros Hok Hnum Hne Hv Hms Hmtl H.
  destruct (run_trace sts initial_tape max_tape_len max_steps verbosity fuel
              outs Hok Hne Hv H)
    as (lo & hi & k & c & len & _ & Hk & Hlen & Hwf & Hstp & _).
  exists len. intros f Hf.
  rewrite Forall_forall in Hwf, Hstp.
  specialize (Hwf f Hf). destruct (Hstp f Hf) as (stp' & Hstp' & Hle).
  destruct f as [| stp [n |] tp len' ix]; try done.
  destruct Hwf as (-> & Htp & Hix & q & st & Hq & ->).
  simpl in Hstp'. injection Hstp' as ->.
  destruct (print_tape_line_layout tp len ix stp' (number st))
    as (line & Hline & Hlength & Hcells & _); try lia.
  - apply tape_wf_length in Htp. lia.
  - by eapply Hnum.
  - exists tp, line. done.
Qed.

Lemma traced_run_lines_aligned_witness :
  ∃ len,
    ∀ f, f ∈ [Frame 0 (Some 0%nat) [chr0; chr1; NUL] 2 0;
              Frame 1 (Some 0%nat) [chr0; chr1; NUL] 2 0;
              Frame 2 (Some 0%nat) [chr0; chr0; NUL] 2 1] →
      ∃ tp line,
        frame_tape f = Some tp
        ∧ render f = Done line
        ∧ length line = (2 * len + 14)%nat
        ∧ ∀ i, (i < len)%nat → line !! (13 + 2 * i)%nat = tp !! i.
Proof.
  apply (traced_run_lines_aligned
           [State 0 (Action 0 1 (Some 0%nat)) (Action 0 0 (Some 0%nat))]
           "01" 100 100 2 10).
  - reflexivity.
  - intros q st Hq. destruct q as [|q]; [| done].
    injection Hq as <-. simpl. lia.
  - discriminate.
  - discriminate.
  - simpl. lia.
  - simpl. lia.
  - reflexivity.
Defined.

(** X19: the listing of [print_tm] for a well-formed table: no pointer
    that is followed is invalid, and the listing is two lines for each
    state, each ended by its newline. *)
Theorem print_tm_two_lines_per_state (sts : list state) :
  table_ok sts = true →
  ∃ lines,
    print_tm sts (length sts) = Done (concat lines)
    ∧ length lines = (2 * length sts)%nat
    ∧ Forall (fun l => ∃ body, l = body ++ [newline]
                         ∧ Forall (fun c => c ≠ newline) body) lines.
Proof.
  intros Hok. apply (print_tm_loop_lines sts Hok (length sts) 0). lia.
Qed.

Lemma print_tm_two_lines_per_state_witness :
  ∃ lines,
    print_tm [State 0 (Action 0 1 (Some 0%nat)) (Action 0 0 (Some 0%nat))]
      (length [State 0 (Action 0 1 (Some 0%nat)) (Action 0 0 (Some 0%nat))])
    = Done (concat lines)
    ∧ length lines
      = (2 * length [State 0 (Action 0 1 (Some 0%nat))
                       (Action 0 0 (Some 0%nat))])%nat
    ∧ Forall (fun l => ∃ body, l = body ++ [newline]
                         ∧ Forall (fun c => c ≠ newline) body) lines.
Proof.
  apply (print_tm_two_lines_per_state
           [State 0 (Action 0 1 (Some 0%nat)) (Action 0 0 (Some 0%nat))]).
  reflexivity.
Defined.
